(** * Answer mapping of the quiz bowl ingestion pipeline

    A shallow embedding of [qanta/ingestion/answer_mapping.py] and the
    properties of its mapping engine, its rule functions, the reconciliation
    of automatic and annotated pages, and the redirect reader.

    Conventions of the embedding.
    - A Python [str] is a [string], one character per code point; the
      embedding covers the code points below 256.
    - A Python [dict] is a [gmap]; where the code iterates a dict or builds
      it from an iteration, the sequence iterated is a list.
    - A Python [set] is the list of its elements; the order in which the
      interpreter iterates it is a parameter ([PySetOrder]), as the language
      leaves it open.
    - A [set] object that the code updates in place lives in a store of set
      objects and is named by its location. *)

From stdpp Require Import gmap strings list fin_maps.
From Stdlib Require Import ZArith Ascii String.

Local Open Scope stdpp_scope.

(** ** Python string primitives *)

Module PyStr.

(** [str.isspace] of one character, for code points below 256. *)
Definition isspace (c : ascii) : bool :=
  let n := nat_of_ascii c in
  ((9 <=? n) && (n <=? 13)) || ((28 <=? n) && (n <=? 32))
  || (n =? 133) || (n =? 160).

(** [str.lower] of one character, for code points below 256: the letters
    A-Z and the Latin-1 capitals (U+00C0 to U+00DE, U+00D7 apart). *)
Definition lower_char (c : ascii) : ascii :=
  let n := nat_of_ascii c in
  if ((65 <=? n) && (n <=? 90))
     || ((192 <=? n) && (n <=? 222) && negb (n =? 215))
  then ascii_of_nat (n + 32) else c.

Fixpoint lower (s : string) : string :=
  match s with
  | EmptyString => EmptyString
  | String c s' => String (lower_char c) (lower s')
  end.

Fixpoint lstrip (s : string) : string :=
  match s with
  | EmptyString => EmptyString
  | String c s' => if isspace c then lstrip s' else s
  end.

Fixpoint rstrip (s : string) : string :=
  match s with
  | EmptyString => EmptyString
  | String c s' =>
      match rstrip s' with
      | EmptyString => if isspace c then EmptyString else String c EmptyString
      | r => String c r
      end
  end.

(** [s.strip()] *)
Definition strip (s : string) : string := rstrip (lstrip s).

(** [re.sub(r'\s+', ' ', s)]: every maximal run of white space becomes one
    space; [in_run] tells that the previous character was white space. *)
Fixpoint sub_spaces (in_run : bool) (s : string) : string :=
  match s with
  | EmptyString => EmptyString
  | String c s' =>
      if isspace c
      then (if in_run then sub_spaces true s'
            else String " " (sub_spaces true s'))
      else String c (sub_spaces false s')
  end.

(** [old in s] *)
Fixpoint contains (old s : string) : bool :=
  String.prefix old s
  || match s with
     | EmptyString => false
     | String _ s' => contains old s'
     end.

(** [s.replace(old, new)] for a non-empty [old]: the occurrences are taken
    from the left and do not overlap; [skip] counts the characters of the
    occurrence just replaced that are still to be passed over. *)
Fixpoint replace_from (old new : string) (skip : nat) (s : string) : string :=
  match s with
  | EmptyString => EmptyString
  | String c s' =>
      match skip with
      | S k => replace_from old new k s'
      | O =>
          if String.prefix old s
          then new +:+ replace_from old new (String.length old - 1) s'
          else String c (replace_from old new 0 s')
      end
  end.

(** [s.replace("", new)]: [new] before every character and at the end. *)
Fixpoint replace_empty (new : string) (s : string) : string :=
  match s with
  | EmptyString => new
  | String c s' => new +:+ String c (replace_empty new s')
  end.

Definition replace (s old new : string) : string :=
  match old with
  | EmptyString => replace_empty new s
  | _ => replace_from old new 0 s
  end.

(** [re.sub(r'[...]', '', s)] for a class of single characters. *)
Fixpoint remove_chars (cls : ascii -> bool) (s : string) : string :=
  match s with
  | EmptyString => EmptyString
  | String c s' =>
      if cls c then remove_chars cls s' else String c (remove_chars cls s')
  end.

End PyStr.

(** ** Sets and the store of set objects *)

(** The order in which the interpreter iterates a set that holds the given
    elements: some rearrangement of them, the same one every time the
    unchanged set is iterated. *)
Class PySetOrder := {
  set_iter : list string -> list string;
  set_iter_perm : forall xs, set_iter xs ≡ₚ xs
}.

(** [s.add(x)] *)
Definition set_add (x : string) (xs : list string) : list string :=
  if bool_decide (x ∈ xs) then xs else xs ++ [x].

(** [set(iterable)] *)
Definition set_of (xs : list string) : list string :=
  fold_left (fun s x => set_add x s) xs [].

Definition loc := nat.

(** A computation on the store of set objects; a raised exception is [None]
    and leaves the store as it was when raised. *)
Definition M (A : Type) : Type :=
  gmap loc (list string) -> option A * gmap loc (list string).

Definition ret {A} (a : A) : M A := fun h => (Some a, h).

Definition bind {A B} (m : M A) (k : A -> M B) : M B :=
  fun h => match m h with
           | (Some a, h') => k a h'
           | (None, h') => (None, h')
           end.

Notation "'let*' x ':=' m 'in' k" := (bind m (fun x => k))
  (at level 10, x pattern, m at level 100, k at level 200).

Definition lift {A} (o : option A) : M A := fun h => (o, h).

(** A new set object holding [xs]. *)
Definition set_new (xs : list string) : M loc :=
  fun h => let l := fresh (dom h) in (Some l, <[l := xs]> h).

(** The elements of the set object at [l]. *)
Definition set_get (l : loc) : M (list string) := fun h => (h !! l, h).

(** [s -= keys] on the set object at [l]: an update in place. *)
Definition set_isub (l : loc) (keys : gset string) : M unit :=
  fun h => match h !! l with
           | Some xs => (Some tt, <[l := filter (fun x => x ∉ keys) xs]> h)
           | None => (None, h)
           end.

(** ** Rule functions *)

Definition ExpansionRule := string -> list string.
Definition MatchRule := string -> option string.

Definition the_rule (ans : string) : list string :=
  let l_ans := PyStr.lower ans in
  if PyStr.contains "the" l_ans
  then [PyStr.replace l_ans "the" ""]
  else ["the " +:+ PyStr.lower l_ans].

Definition remove_braces (text : string) : string :=
  PyStr.remove_chars (fun c => bool_decide (c = "{"%char) || bool_decide (c = "}"%char)) text.

Definition remove_parens (text : string) : string :=
  PyStr.remove_chars (fun c => bool_decide (c = "("%char) || bool_decide (c = ")"%char)) text.

Definition compose (funcs : list (string -> string)) : string -> string :=
  fun x => fold_left (fun x f => f x) funcs x.

(** ** The mapping engine *)

(** [{key(x): val(x) for x in xs}] *)
Definition dict_of {A} (key val : A -> string) (xs : list A)
  : gmap string string :=
  fold_left (fun d x => <[key x := val x]> d) xs ∅.

Definition try_match (ans_text : string) (title_map : gmap string string)
  : option string :=
  let und_text := PyStr.replace ans_text " " "_" in
  match title_map !! ans_text with
  | Some t => Some t
  | None =>
      match title_map !! und_text with
      | Some t => Some t
      | None => None
      end
  end.

(** The eight lookup tables built on entry. *)
Record lookups := Lookups {
  exact_titles : gmap string string;
  unicode_titles : gmap string string;
  lower_titles : gmap string string;
  lower_unicode_titles : gmap string string;
  exact_wiki_redirects : gmap string string;
  unicode_wiki_redirects : gmap string string;
  lower_wiki_redirects : gmap string string;
  lower_unicode_wiki_redirects : gmap string string
}.

(** [expansion_answer_map], a [defaultdict(set)] in the order its keys were
    inserted. [edict_add k x d] is [d[k].add(x)]. *)
Fixpoint edict_add (k x : string) (d : list (string * list string))
  : list (string * list string) :=
  match d with
  | [] => [(k, set_add x [])]
  | (k', xs) :: d' =>
      if bool_decide (k = k') then (k', set_add x xs) :: d'
      else (k', xs) :: edict_add k x d'
  end.

Section Engine.

Context {O : PySetOrder}.
Variable unidecode : string -> string.

Definition build_lookups (wiki_titles : list string)
    (wiki_redirects_source : list (string * string)) : lookups :=
  let titles := set_iter wiki_titles in
  {| exact_titles := dict_of (fun t => t) (fun t => t) titles;
     unicode_titles := dict_of (fun t => unidecode t) (fun t => t) titles;
     lower_titles := dict_of (fun t => PyStr.lower t) (fun t => t) titles;
     lower_unicode_titles :=
       dict_of (fun t => unidecode (PyStr.lower t)) (fun t => t) titles;
     exact_wiki_redirects := dict_of fst snd wiki_redirects_source;
     unicode_wiki_redirects :=
       dict_of (fun e => unidecode (fst e)) snd wiki_redirects_source;
     lower_wiki_redirects :=
       dict_of (fun e => PyStr.lower (fst e)) snd wiki_redirects_source;
     lower_unicode_wiki_redirects :=
       dict_of (fun e => unidecode (PyStr.lower (fst e))) snd
         wiki_redirects_source |}.

(** The candidate as it is looked up:
    [re.sub(r'\s+', ' ', rule_func(raw_ans).strip()).strip()]. *)
Definition format_candidate (r : string) : string :=
  PyStr.strip (PyStr.sub_spaces false (PyStr.strip r)).

(** The eight lookups of one formatted candidate, with their [continue]s:
    the title of the first table that has it. *)
Definition lookup_candidate (ix : lookups) (rule_ans : string)
  : option string :=
  let lower_ans := PyStr.lower rule_ans in
  match try_match rule_ans (exact_titles ix) with
  | Some m => Some m
  | None =>
  match try_match rule_ans (exact_wiki_redirects ix) with
  | Some m => Some m
  | None =>
  match try_match rule_ans (unicode_titles ix) with
  | Some m => Some m
  | None =>
  match try_match rule_ans (unicode_wiki_redirects ix) with
  | Some m => Some m
  | None =>
  match try_match lower_ans (lower_titles ix) with
  | Some m => Some m
  | None =>
  match try_match lower_ans (lower_wiki_redirects ix) with
  | Some m => Some m
  | None =>
  match try_match lower_ans (lower_unicode_titles ix) with
  | Some m => Some m
  | None =>
  match try_match lower_ans (lower_unicode_wiki_redirects ix) with
  | Some m => Some m
  | None => None
  end end end end end end end end.

(** One turn of the loop over [ans_expansions]. A rule that returns [None]
    makes [.strip()] raise. *)
Definition match_candidate (ix : lookups) (rule_func : MatchRule)
    (original_ans raw_ans : string) (answer_map : gmap string string)
  : option (gmap string string) :=
  match rule_func raw_ans with
  | None => None
  | Some r =>
      match lookup_candidate ix (format_candidate r) with
      | Some m => Some (<[original_ans := m]> answer_map)
      | None => Some answer_map
      end
  end.

(** [for raw_ans in ans_expansions: ...] *)
Fixpoint match_expansions (ix : lookups) (rule_func : MatchRule)
    (original_ans : string) (ans_expansions : list string)
    (answer_map : gmap string string) : option (gmap string string) :=
  match ans_expansions with
  | [] => Some answer_map
  | raw_ans :: rest =>
      match match_candidate ix rule_func original_ans raw_ans answer_map with
      | None => None
      | Some answer_map' =>
          match_expansions ix rule_func original_ans rest answer_map'
      end
  end.

(** [for original_ans, ans_expansions in expansion_answer_map.items(): ...] *)
Fixpoint match_answers (ix : lookups) (rule_func : MatchRule)
    (items : list (string * list string))
    (answer_map : gmap string string) : option (gmap string string) :=
  match items with
  | [] => Some answer_map
  | (original_ans, ans_expansions) :: rest =>
      match match_expansions ix rule_func original_ans
              (set_iter ans_expansions) answer_map with
      | None => None
      | Some answer_map' => match_answers ix rule_func rest answer_map'
      end
  end.

(** The body of the loop over [match_rules]; [unmapped_answers] is the
    location of the set the local name is bound to. *)
Definition match_rule_pass (ix : lookups)
    (expansion_answer_map : list (string * list string))
    (unmapped_answers : loc) (rule_func : MatchRule)
    (answer_map : gmap string string) : M (gmap string string) :=
  let* answer_map' :=
    lift (match_answers ix rule_func expansion_answer_map answer_map) in
  let* _ := set_isub unmapped_answers (dom answer_map') in
  ret answer_map'.

Fixpoint match_rules_loop (ix : lookups)
    (expansion_answer_map : list (string * list string))
    (unmapped_answers : loc) (match_rules : list (string * MatchRule))
    (answer_map : gmap string string) : M (gmap string string) :=
  match match_rules with
  | [] => ret answer_map
  | (name, rule_func) :: rest =>
      let* answer_map' :=
        match_rule_pass ix expansion_answer_map unmapped_answers rule_func
          answer_map in
      match_rules_loop ix expansion_answer_map unmapped_answers rest
        answer_map'
  end.

(** [for ans in unmapped_answers: expansion_answer_map[ans].add(ans)] *)
Definition seed_expansions (answers : list string)
  : list (string * list string) :=
  fold_left (fun d ans => edict_add ans ans d) answers [].

(** One expansion rule over all answers. *)
Definition expand_rule (rule_func : ExpansionRule) (answers : list string)
    (d : list (string * list string)) : list (string * list string) :=
  fold_left
    (fun d raw_ans =>
       fold_left (fun d exp_ans => edict_add raw_ans (PyStr.strip exp_ans) d)
         (rule_func raw_ans) d)
    answers d.

Definition expand_rules (expansion_rules : list (string * ExpansionRule))
    (answers : list string) (d : list (string * list string))
  : list (string * list string) :=
  fold_left (fun d rule => expand_rule (snd rule) answers d)
    expansion_rules d.

(** The expansion map as the loop over the match rules finds it. *)
Definition expansion_map (expansion_rules : list (string * ExpansionRule))
    (elements : list string) : list (string * list string) :=
  let answers := set_iter elements in
  expand_rules expansion_rules answers (seed_expansions answers).

(** [mapping_rules_to_answer_map]; the last argument is the location of the
    caller's set. The result is the answer map and the location of the set
    returned with it. *)
Definition mapping_rules_to_answer_map
    (expansion_rules : list (string * ExpansionRule))
    (match_rules : list (string * MatchRule))
    (wiki_titles : list string)
    (wiki_redirects_source : list (string * string))
    (unmapped_answers : loc) : M (gmap string string * loc) :=
  let ix := build_lookups wiki_titles wiki_redirects_source in
  let answer_map : gmap string string := ∅ in
  let* passed := set_get unmapped_answers in
  let* unmapped_answers := set_new (set_of (set_iter passed)) in
  let* elements := set_get unmapped_answers in
  let expansion_answer_map := expansion_map expansion_rules elements in
  let* answer_map :=
    match_rules_loop ix expansion_answer_map unmapped_answers match_rules
      answer_map in
  ret (answer_map, unmapped_answers).

End Engine.

(** ** Reading the redirects *)

(** [read_wiki_redirects] on the rows that [csv.reader] yields, each a pair
    of a source and a target. With the lookup it returns the number [n] that
    it writes to the log. *)
Definition read_wiki_redirects (wiki_titles : list string)
    (rows : list (string * string)) : gmap string string * nat :=
  fold_left
    (fun acc row =>
       let '(redirect_lookup, n) := acc in
       let '(source, target) := row in
       if bool_decide (target ∈ wiki_titles)
       then (<[source := target]> redirect_lookup, n)
       else (redirect_lookup, S n))
    rows (∅, 0).

(** ** Reconciliation of annotated and automatic pages *)

(** The fields of a raw question that [unmapped_to_mapped_questions] reads
    or writes; [qanta_id] is an [int], as [Question] declares it. *)
Record question := Question {
  qanta_id : Z;
  text : string;
  answer : string;
  page : option string;
  fold : string;
  proto_id : option Z;
  qdb_id : option Z
}.

Global Instance question_eq_dec : EqDecision question.
Proof. solve_decision. Defined.

Definition set_page (q : question) (p : string) : question :=
  {| qanta_id := qanta_id q; text := text q; answer := answer q;
     page := Some p; fold := fold q; proto_id := proto_id q;
     qdb_id := qdb_id q |}.

(** An entry of [match_report]. *)
Record report_entry := ReportEntry {
  result : string;
  annotated_error : option string;
  automatic_error : option string;
  annotated_page : option string;
  automatic_page : option string
}.

(** The lists and the report the loop builds, and [questions], the input
    questions already visited, as the loop left them. *)
Record reconciled := Reconciled {
  questions : list question;
  train_unmatched : list question;
  test_unmatched : list question;
  match_report : gmap Z report_entry
}.

Section Reconciliation.

(** [page_assigner.maybe_assign(answer, question_text, qdb_id, proto_id)]
    of [qanta.ingestion.annotated_mapping], and the two fold names of
    [qanta.util.constants]. *)
Variable maybe_assign :
  string -> string -> option Z -> option Z -> option string * option string.
Variables GUESSER_TRAIN_FOLD BUZZER_TRAIN_FOLD : string.

Definition is_train_fold (f : string) : bool :=
  bool_decide (f = GUESSER_TRAIN_FOLD) || bool_decide (f = BUZZER_TRAIN_FOLD).

(** The body of the loop over the questions. *)
Definition reconcile_question (answer_map : gmap string string)
    (st : reconciled) (q : question) : reconciled :=
  let '(annotated_page, annotated_error) :=
    maybe_assign (answer q) (text q) (qdb_id q) (proto_id q) in
  let automatic_page := answer_map !! answer q in
  let entry r :=
    {| result := r; annotated_error := annotated_error;
       automatic_error := None; annotated_page := annotated_page;
       automatic_page := automatic_page |} in
  match annotated_page, automatic_page with
  | None, None =>
      let report := <[qanta_id q := entry "none"]> (match_report st) in
      if is_train_fold (fold q)
      then {| questions := questions st ++ [q];
              train_unmatched := train_unmatched st ++ [q];
              test_unmatched := test_unmatched st;
              match_report := report |}
      else {| questions := questions st ++ [q];
              train_unmatched := train_unmatched st;
              test_unmatched := test_unmatched st ++ [q];
              match_report := report |}
  | Some ap, None =>
      {| questions := questions st ++ [set_page q ap];
         train_unmatched := train_unmatched st;
         test_unmatched := test_unmatched st;
         match_report := <[qanta_id q := entry "annotated"]> (match_report st) |}
  | None, Some au =>
      {| questions := questions st ++ [set_page q au];
         train_unmatched := train_unmatched st;
         test_unmatched := test_unmatched st;
         match_report := <[qanta_id q := entry "automatic"]> (match_report st) |}
  | Some ap, Some au =>
      if bool_decide (ap = au)
      then {| questions := questions st ++ [set_page q au];
              train_unmatched := train_unmatched st;
              test_unmatched := test_unmatched st;
              match_report :=
                <[qanta_id q := entry "annotated+automatic"]> (match_report st) |}
      else {| questions := questions st ++ [set_page q ap];
              train_unmatched := train_unmatched st;
              test_unmatched := test_unmatched st;
              match_report := <[qanta_id q := entry "disagree"]> (match_report st) |}
  end.

Definition unmapped_to_mapped_questions
    (unmapped_qanta_questions : list question)
    (answer_map : gmap string string) : reconciled :=
  fold_left (reconcile_question answer_map) unmapped_qanta_questions
    {| questions := []; train_unmatched := []; test_unmatched := [];
       match_report := ∅ |}.

End Reconciliation.

(** ** The loop body of the reconciliation, by parts *)

Section ReconciliationParts.

Variable maybe_assign :
  string -> string -> option Z -> option Z -> option string * option string.
Variables GUESSER_TRAIN_FOLD BUZZER_TRAIN_FOLD : string.

(** The annotated page of a question and the error that comes with it. *)
Definition annotation_of (q : question) : option string * option string :=
  maybe_assign (answer q) (text q) (qdb_id q) (proto_id q).

(** The question has neither an annotated nor an automatic page. *)
Definition unmatched (answer_map : gmap string string) (q : question) : Prop :=
  (annotation_of q).1 = None /\ answer_map !! answer q = None.

(** The entry the loop body writes to [match_report] for a question. *)
Definition audit_of (answer_map : gmap string string) (q : question)
  : report_entry :=
  {| result :=
       match (annotation_of q).1, answer_map !! answer q with
       | None, None => "none"
       | Some _, None => "annotated"
       | None, Some _ => "automatic"
       | Some ap, Some au =>
           if bool_decide (ap = au) then "annotated+automatic"
           else "disagree"
       end;
     annotated_error := (annotation_of q).2;
     automatic_error := None;
     annotated_page := (annotation_of q).1;
     automatic_page := answer_map !! answer q |}.

(** The question as the loop body leaves it. *)
Definition assigned (answer_map : gmap string string) (q : question)
  : question :=
  match (annotation_of q).1, answer_map !! answer q with
  | None, None => q
  | Some ap, None => set_page q ap
  | None, Some au => set_page q au
  | Some ap, Some au =>
      if bool_decide (ap = au) then set_page q au else set_page q ap
  end.

(** The questions the loop body appends to [train_unmatched] and to
    [test_unmatched]. *)
Definition to_train (answer_map : gmap string string) (q : question) : Prop :=
  unmatched answer_map q /\
  is_train_fold GUESSER_TRAIN_FOLD BUZZER_TRAIN_FOLD (fold q) = true.

Definition to_test (answer_map : gmap string string) (q : question) : Prop :=
  unmatched answer_map q /\
  is_train_fold GUESSER_TRAIN_FOLD BUZZER_TRAIN_FOLD (fold q) = false.

Global Instance to_train_dec answer_map q : Decision (to_train answer_map q).
Proof. unfold to_train, unmatched. apply _. Defined.

Global Instance to_test_dec answer_map q : Decision (to_test answer_map q).
Proof. unfold to_test, unmatched. apply _. Defined.

End ReconciliationParts.

(** ** The behaviour the specification words describe *)

(** The the-toggle rule as the specification words it: when the lower-cased
    answer contains "the", the answer with the occurrences of "the" removed,
    and otherwise the answer prefixed with "the ". *)
Definition the_rule_spec (ans : string) : list string :=
  if PyStr.contains "the" (PyStr.lower ans)
  then [PyStr.replace ans "the" ""]
  else ["the " +:+ ans].

Section SpecEngine.

Context {O : PySetOrder}.

(** The candidates of one answer as the specification words the pass: the
    first candidate that is found gives the title, and the candidates after
    it are not examined. *)
Fixpoint spec_match_expansions (ix : lookups) (rule_func : MatchRule)
    (original_ans : string) (ans_expansions : list string)
    (answer_map : gmap string string) : option (gmap string string) :=
  match ans_expansions with
  | [] => Some answer_map
  | raw_ans :: rest =>
      match rule_func raw_ans with
      | None => None
      | Some r =>
          match lookup_candidate ix (format_candidate r) with
          | Some m => Some (<[original_ans := m]> answer_map)
          | None =>
              spec_match_expansions ix rule_func original_ans rest answer_map
          end
      end
  end.

(** The pass as the specification words it: only the answers whose key is
    not yet in the answer map are looked up. *)
Fixpoint spec_match_answers (ix : lookups) (rule_func : MatchRule)
    (items : list (string * list string))
    (answer_map : gmap string string) : option (gmap string string) :=
  match items with
  | [] => Some answer_map
  | (original_ans, ans_expansions) :: rest =>
      match answer_map !! original_ans with
      | Some _ => spec_match_answers ix rule_func rest answer_map
      | None =>
          match spec_match_expansions ix rule_func original_ans
                  (set_iter ans_expansions) answer_map with
          | None => None
          | Some answer_map' =>
              spec_match_answers ix rule_func rest answer_map'
          end
      end
  end.

End SpecEngine.

(** The eight tables in the order the specification lists them, each with
    the form of the candidate it is asked for. *)
Definition tiers (ix : lookups) (rule_ans : string) : list (option string) :=
  let lower_ans := PyStr.lower rule_ans in
  [ try_match rule_ans (exact_titles ix);
    try_match rule_ans (exact_wiki_redirects ix);
    try_match rule_ans (unicode_titles ix);
    try_match rule_ans (unicode_wiki_redirects ix);
    try_match lower_ans (lower_titles ix);
    try_match lower_ans (lower_wiki_redirects ix);
    try_match lower_ans (lower_unicode_titles ix);
    try_match lower_ans (lower_unicode_wiki_redirects ix) ].

(** The first hit of a sequence of lookups. *)
Fixpoint first_hit (results : list (option string)) : option string :=
  match results with
  | [] => None
  | Some m :: _ => Some m
  | None :: rest => first_hit rest
  end.

(** ** Concrete inputs *)

(** Sets iterated in the order of insertion, and in the reverse of it. *)
Definition insertion_order : PySetOrder :=
  {| set_iter := fun xs => xs;
     set_iter_perm := fun xs => Permutation_refl xs |}.

Definition reverse_order : PySetOrder :=
  {| set_iter := fun xs => rev xs;
     set_iter_perm := fun xs => Permutation_sym (Permutation_rev xs) |}.

(** [unidecode] on ASCII text, which it leaves as it is. *)
Definition unidecode_ascii (s : string) : string := s.

(** The rules ['exact match'] and ['parens'] of [create_match_rules]. *)
Definition exact_match_rule : string * MatchRule :=
  ("exact match", fun x => Some x).

Definition parens_match_rule : string * MatchRule :=
  ("parens", fun x => Some (remove_parens x)).

(** A store with one set object, at location 0. *)
Definition store_of (answers : list string) : gmap loc (list string) :=
  {[ 0 := answers ]}.

(** The answer map of a run, when it returns. *)
Definition answer_map_of (r : option (gmap string string * loc)
                              * gmap loc (list string))
  : option (gmap string string) :=
  fst <$> fst r.

(** The rule ['the'] of [create_expansion_rules]. *)
Definition the_expansion_rule : string * ExpansionRule := ("the", the_rule).

(** Two titles that differ by the article, and two that differ by the
    parentheses. *)
Definition beatles_titles : list string := ["Beatles"; "The Beatles"].
Definition mercury_titles : list string :=
  ["Mercury (planet)"; "Mercury planet"].

(** The tables of a title set with one redirect. *)
Definition paris_lookups : lookups :=
  build_lookups (O := insertion_order) unidecode_ascii ["Paris"; "France"]
    [("paris", "France")].

(** The tables of the one title ["a("]. *)
Definition paren_lookups : lookups :=
  build_lookups (O := insertion_order) unidecode_ascii ["a("] [].

(** A question whose annotated page is "Paris", an answer map that gives
    its answer the page "France", and a question with neither page. *)
Definition paris_question : question :=
  {| qanta_id := 1; text := "This city is the capital of France.";
     answer := "paris"; page := None; fold := "guesstrain";
     proto_id := None; qdb_id := None |}.

Definition unknown_question : question :=
  {| qanta_id := 2; text := "Name this thing."; answer := "zzz";
     page := None; fold := "guesstrain"; proto_id := None; qdb_id := None |}.

(** A later question with the identifier of [paris_question]. *)
Definition repeated_question : question :=
  {| qanta_id := 1; text := "Name this other thing."; answer := "yyy";
     page := None; fold := "buzztrain"; proto_id := None; qdb_id := None |}.

Definition paris_assigner (answer question_text : string)
    (qdb_id proto_id : option Z) : option string * option string :=
  if bool_decide (answer = "paris") then (Some "Paris", None)
  else (None, None).

Definition france_answer_map : gmap string string := {["paris" := "France"]}.

(** The tables of [mercury_titles]. *)
Definition mercury_lookups : lookups :=
  build_lookups (O := insertion_order) unidecode_ascii mercury_titles [].

(** The fold names of [qanta.util.constants]. *)
Definition guesser_train_fold : string := "guesstrain".
Definition buzzer_train_fold : string := "buzztrain".

(** [r] is [s] with the occurrences of [old] removed, the occurrences
    being taken from the left and not overlapping. *)
Inductive removes (old : string) : string -> string -> Prop :=
  | removes_end : removes old "" ""
  | removes_hit rest r :
      removes old rest r -> removes old (old +:+ rest) r
  | removes_keep c s r :
      String.prefix old (String c s) = false ->
      removes old s r -> removes old (String c s) (String c r).

(** ** Predicates of the statements *)

(** A computation that leaves the set object at [l] as it is, whether it
    returns or raises. *)
Definition frames {A} (l : loc) (m : M A) : Prop :=
  forall h, (m h).2 !! l = h !! l.

(** The keys of an expansion map are among [answers]. *)
Definition keys_within (answers : list string)
    (d : list (string * list string)) : Prop :=
  forall o e, (o, e) ∈ d -> o ∈ answers.

(** No match rule of the list raises. *)
Definition total_rules (match_rules : list (string * MatchRule)) : Prop :=
  forall name rule_func x, (name, rule_func) ∈ match_rules ->
    is_Some (rule_func x).

(** The candidate [raw_ans] is found in no table under [rule_func]. *)
Definition misses (ix : lookups) (rule_func : MatchRule) (raw_ans : string)
  : Prop :=
  forall r, rule_func raw_ans = Some r ->
    lookup_candidate ix (format_candidate r) = None.

(** [m] is a title found for a candidate of the answer [a] under
    [rule_func]. *)
Definition found_for (ix : lookups) (rule_func : MatchRule)
    (items : list (string * list string)) (a m : string) : Prop :=
  exists ans_expansions raw_ans r,
    (a, ans_expansions) ∈ items /\ raw_ans ∈ ans_expansions /\
    rule_func raw_ans = Some r /\
    lookup_candidate ix (format_candidate r) = Some m.

(** The answer map is never overwritten, on one input: a title that an
    answer has after the match rules [rules1] is the title it has after the
    match rules [rules2] have been applied as well. *)
Definition never_overwritten (O : PySetOrder) (unidecode : string -> string)
    (expansion_rules : list (string * ExpansionRule))
    (rules1 rules2 : list (string * MatchRule))
    (wiki_titles : list string)
    (wiki_redirects_source : list (string * string))
    (l : loc) (h : gmap loc (list string)) : Prop :=
  forall am1 am2 a t,
    answer_map_of
      (mapping_rules_to_answer_map unidecode expansion_rules rules1
         wiki_titles wiki_redirects_source l h) = Some am1 ->
    answer_map_of
      (mapping_rules_to_answer_map unidecode expansion_rules
         (rules1 ++ rules2) wiki_titles wiki_redirects_source l h)
      = Some am2 ->
    am1 !! a = Some t -> am2 !! a = Some t.

(** ** The expansion map and the answer map, answer by answer *)

(** [d[k]] of the [defaultdict(set)]: the empty set for a key it lacks. *)
Fixpoint edict_lookup (k : string) (d : list (string * list string))
  : list string :=
  match d with
  | [] => []
  | (k', xs) :: d' => if bool_decide (k = k') then xs else edict_lookup k d'
  end.

(** A sequence of [d[k].add(x)], each given as the pair of [k] and [x]. *)
Definition edict_adds (ops : list (string * string))
    (d : list (string * list string)) : list (string * list string) :=
  fold_left (fun d op => edict_add (fst op) (snd op) d) ops d.

(** The candidates of one answer: the answer, then what each expansion rule
    yields for it, stripped, in the order of the rules. *)
Definition candidates_of (expansion_rules : list (string * ExpansionRule))
    (ans : string) : list string :=
  set_of (ans :: flat_map (fun rule => PyStr.strip <$> snd rule ans)
                   expansion_rules).

(** The title that the candidates [cands] of one answer leave it after the
    pass of a match rule: that of the candidate found last, and the title
    [t] from before the pass when none is found. *)
Fixpoint last_hit (ix : lookups) (rule_func : MatchRule)
    (cands : list string) (t : option string) : option string :=
  match cands with
  | [] => t
  | raw_ans :: rest =>
      last_hit ix rule_func rest
        match rule_func raw_ans with
        | Some r =>
            match lookup_candidate ix (format_candidate r) with
            | Some m => Some m
            | None => t
            end
        | None => t
        end
  end.

(** The title of one answer after the passes of the match rules. *)
Definition title_after {O : PySetOrder} (ix : lookups)
    (match_rules : list (string * MatchRule)) (cands : list string)
    (t : option string) : option string :=
  fold_left (fun t rule => last_hit ix (snd rule) (set_iter cands) t)
    match_rules t.

(** The additions that seed the expansion map, and those that the expansion
    rules make, in the order the loops make them. *)
Definition seed_ops (answers : list string) : list (string * string) :=
  (fun ans => (ans, ans)) <$> answers.

Definition rule_ops (rule_func : ExpansionRule) (answers : list string)
  : list (string * string) :=
  flat_map
    (fun raw_ans =>
       (fun exp_ans => (raw_ans, PyStr.strip exp_ans)) <$> rule_func raw_ans)
    answers.

Definition rules_ops (expansion_rules : list (string * ExpansionRule))
    (answers : list string) : list (string * string) :=
  flat_map (fun rule => rule_ops (snd rule) answers) expansion_rules.

(** ** More rule functions *)

Definition answer_rule (ans : string) : list string :=
  let l_ans := PyStr.lower ans in
  if PyStr.contains "answers:" l_ans
  then [PyStr.replace l_ans "answers:" ""]
  else if PyStr.contains "answer:" l_ans
       then [PyStr.replace l_ans "answer:" ""]
       else [].

Definition parens_rule (ans : string) : list string :=
  if PyStr.contains "(" ans && PyStr.contains ")" ans
  then [PyStr.replace (PyStr.replace ans "(" "") ")" ""]
  else [].

Definition sir_rule (ans : string) : list string :=
  if PyStr.contains "sir" (PyStr.lower ans)
  then [PyStr.replace (PyStr.lower ans) "sir" ""]
  else [].

(** [remove_quotes]: a [re.sub] that deletes the characters of a class of
    three, the straight double quote and the two curly ones; of these the
    code points below 256 have the straight one. *)
Definition remove_quotes (text : string) : string :=
  PyStr.remove_chars (fun c => bool_decide (c = "034"%char)) text.

(** The strings of one character. *)
Definition char_string (c : ascii) : string := String c EmptyString.

(** ** The answer map of a list of questions *)

(** [d[k] = v] on a [dict] kept in the order of insertion: a key that is
    there keeps its place. *)
Fixpoint odict_set (k v : string) (d : list (string * string))
  : list (string * string) :=
  match d with
  | [] => [(k, v)]
  | (k', v') :: d' =>
      if bool_decide (k = k') then (k', v) :: d'
      else (k', v') :: odict_set k v d'
  end.

(** The items of the lookup that [read_wiki_redirects] returns, in the order
    in which a later loop over [.items()] meets them. *)
Definition read_wiki_redirects_items (wiki_titles : list string)
    (rows : list (string * string)) : list (string * string) :=
  fold_left
    (fun redirect_lookup row =>
       let '(source, target) := row in
       if bool_decide (target ∈ wiki_titles)
       then odict_set source target redirect_lookup
       else redirect_lookup)
    rows [].

Section CreateAnswerMap.

Context {O : PySetOrder}.
Variable unidecode : string -> string.

(** The lists that [create_expansion_rules] and [create_match_rules] return;
    they hold functions built on regular expressions and on WordNet. *)
Variable expansion_rules : list (string * ExpansionRule).
Variable match_rules : list (string * MatchRule).

(** [create_answer_map], given the titles that [read_wiki_titles] loads and
    the rows of the redirect file. The set of the answers is a new object. *)
Definition create_answer_map (wiki_titles : list string)
    (rows : list (string * string))
    (unmapped_qanta_questions : list question)
  : M (gmap string string * loc) :=
  let* raw_unmapped_answers :=
    set_new (set_of (answer <$> unmapped_qanta_questions)) in
  let wiki_redirect_map := read_wiki_redirects_items wiki_titles rows in
  mapping_rules_to_answer_map unidecode expansion_rules match_rules
    wiki_titles wiki_redirect_map raw_unmapped_answers.

End CreateAnswerMap.

(** ** The data set of mapped questions ([qanta/datasets/quiz_bowl.py]) *)

Module QuizBowl.

(** [s[start:end]] for two integers. *)
Definition slice_index (i len : Z) : Z :=
  if (i <? 0)%Z then Z.max 0 (i + len) else Z.min i len.

Definition slice (s : string) (start stop : Z) : string :=
  let len := Z.of_nat (String.length s) in
  let a := slice_index start len in
  let b := slice_index stop len in
  String.substring (Z.to_nat a) (Z.to_nat (b - a)) s.

Record Question := {
  qanta_id : Z;
  text : string;
  first_sentence : string;
  tokenizations : list (Z * Z);
  answer : string;
  page : option string;
  fold : string;
  category : option string;
  subcategory : option string;
  tournament : string;
  difficulty : string;
  year : Z;
  proto_id : option Z;
  qdb_id : option Z;
  dataset : string
}.

(** The property [sentences]. *)
Definition sentences (q : Question) : list string :=
  (fun t => slice (text q) (fst t) (snd t)) <$> tokenizations q.

(** The lists of questions that [QantaDatabase.__init__] builds. *)
Record QantaDatabase := {
  all_questions : list Question;
  mapped_questions : list Question;
  train_questions : list Question;
  guess_train_questions : list Question;
  buzz_train_questions : list Question;
  dev_questions : list Question;
  guess_dev_questions : list Question;
  buzz_dev_questions : list Question;
  system_dev_questions : list Question;
  test_questions : list Question
}.

(** The attributes of a [QuizBowlDataset]. *)
Record QuizBowlDataset := {
  db : QantaDatabase;
  guesser_train : bool;
  buzzer_train : bool
}.

Section Folds.

(** The fold names and the two collections of [qanta.util.constants]. *)
Variables GUESSER_TRAIN_FOLD GUESSER_DEV_FOLD BUZZER_TRAIN_FOLD
  BUZZER_DEV_FOLD SYSTEM_DEV_FOLD SYSTEM_TEST_FOLD : string.
Variables TRAIN_FOLDS DEV_FOLDS : list string.

(** [QantaDatabase.__init__] from the questions of the data set, each
    already a [Question]. *)
Definition load_database (questions : list Question) : QantaDatabase :=
  let mapped := filter (fun q => page q <> None) questions in
  let train := filter (fun q => fold q ∈ TRAIN_FOLDS) mapped in
  let dev := filter (fun q => fold q ∈ DEV_FOLDS) mapped in
  {| all_questions := questions;
     mapped_questions := mapped;
     train_questions := train;
     guess_train_questions :=
       filter (fun q => fold q = GUESSER_TRAIN_FOLD) train;
     buzz_train_questions :=
       filter (fun q => fold q = BUZZER_TRAIN_FOLD) train;
     dev_questions := dev;
     guess_dev_questions := filter (fun q => fold q = GUESSER_DEV_FOLD) dev;
     buzz_dev_questions := filter (fun q => fold q = BUZZER_DEV_FOLD) dev;
     system_dev_questions := filter (fun q => fold q = SYSTEM_DEV_FOLD) dev;
     test_questions := filter (fun q => fold q = SYSTEM_TEST_FOLD) mapped |}.

(** [training_data]: the examples, the pages, and [None]. *)
Definition training_data (self : QuizBowlDataset)
  : list (list string) * list (option string) * option unit :=
  let questions :=
    (if guesser_train self then guess_train_questions (db self) else [])
    ++ (if buzzer_train self then buzz_train_questions (db self) else []) in
  (sentences <$> questions, page <$> questions, None).

(** [questions_by_fold]: a dict literal, in which a later key replaces an
    equal earlier one. *)
Definition questions_by_fold (self : QuizBowlDataset)
  : gmap string (list Question) :=
  <[SYSTEM_TEST_FOLD := test_questions (db self)]>
    (<[SYSTEM_DEV_FOLD := system_dev_questions (db self)]>
       (<[BUZZER_DEV_FOLD := buzz_dev_questions (db self)]>
          (<[BUZZER_TRAIN_FOLD := buzz_train_questions (db self)]>
             (<[GUESSER_DEV_FOLD := guess_dev_questions (db self)]>
                (<[GUESSER_TRAIN_FOLD := guess_train_questions (db self)]>
                   ∅))))).

(** [questions_in_folds]; [None] is the [KeyError] of [by_fold[fold]]. *)
Definition questions_in_folds (self : QuizBowlDataset) (folds : list string)
  : option (list Question) :=
  let by_fold := questions_by_fold self in
  fold_left
    (fun questions fold =>
       match questions, by_fold !! fold with
       | Some questions, Some more => Some (questions ++ more)
       | _, _ => None
       end)
    folds (Some []).

End Folds.

(** A small data set, with the fold names of [qanta.util.constants]. *)
Definition sample_question (id : Z) (page : option string) (fold : string)
  : Question :=
  {| qanta_id := id; text := "One. Two."; first_sentence := "One.";
     tokenizations := [(0, 4); (5, 9)]%Z; answer := "answer"; page := page;
     fold := fold; category := None; subcategory := None;
     tournament := "tournament"; difficulty := "easy"; year := 2017;
     proto_id := None; qdb_id := Some id; dataset := "protobowl" |}.

Definition sample_questions : list Question :=
  [sample_question 1 (Some "Paris") "guesstrain";
   sample_question 2 None "guesstrain";
   sample_question 3 (Some "Rome") "buzztrain";
   sample_question 4 (Some "Oslo") "test"].

Definition sample_database : QantaDatabase :=
  load_database "guesstrain" "guessdev" "buzztrain" "buzzdev" "dev" "test"
    ["guesstrain"; "buzztrain"] ["guessdev"; "buzzdev"; "dev"]
    sample_questions.

Definition sample_dataset : QuizBowlDataset :=
  {| db := sample_database; guesser_train := true; buzzer_train := false |}.

End QuizBowl.

(** * Properties *)

(** ** Sets *)

Lemma set_add_elem (x y : string) (xs : list string) :
  y ∈ set_add x xs <-> y = x \/ y ∈ xs.
Proof.
  unfold set_add. case_bool_decide as Hx.
  - split; [by right | intros [-> | H]; done].
  - rewrite elem_of_app, list_elem_of_singleton. tauto.
Qed.

Lemma set_add_NoDup (x : string) (xs : list string) :
  NoDup xs -> NoDup (set_add x xs).
Proof.
  intros Hnd. unfold set_add. case_bool_decide as Hx; [done |].
  apply NoDup_app. split; [done |]. split.
  - intros y Hy Hy'. apply list_elem_of_singleton in Hy'. by subst.
  - apply NoDup_singleton.
Qed.

Lemma set_of_from_elem (xs acc : list string) (y : string) :
  y ∈ fold_left (fun s x => set_add x s) xs acc <-> y ∈ xs \/ y ∈ acc.
Proof.
  revert acc. induction xs as [| x xs IH]; intros acc; simpl.
  - rewrite elem_of_nil. tauto.
  - rewrite IH, set_add_elem, elem_of_cons. tauto.
Qed.

Lemma set_of_elem (xs : list string) (y : string) : y ∈ set_of xs <-> y ∈ xs.
Proof.
  unfold set_of. rewrite set_of_from_elem, elem_of_nil. tauto.
Qed.

Lemma set_of_from_NoDup (xs acc : list string) :
  NoDup acc -> NoDup (fold_left (fun s x => set_add x s) xs acc).
Proof.
  revert acc. induction xs as [| x xs IH]; intros acc Hnd; simpl; [done |].
  apply IH. by apply set_add_NoDup.
Qed.

Lemma set_of_NoDup (xs : list string) : NoDup (set_of xs).
Proof. apply set_of_from_NoDup. apply NoDup_nil_2. Qed.

Lemma set_iter_elem `{O : PySetOrder} (xs : list string) (y : string) :
  y ∈ set_iter xs <-> y ∈ xs.
Proof. by rewrite (set_iter_perm xs). Qed.

(** ** The store *)

Lemma bind_Some {A B} (m : M A) (k : A -> M B) h b h' :
  bind m k h = (Some b, h') ->
  exists a h1, m h = (Some a, h1) /\ k a h1 = (Some b, h').
Proof.
  unfold bind. destruct (m h) as [[a |] h1]; [eauto | discriminate].
Qed.

Lemma frames_ret {A} l (a : A) : frames l (ret a).
Proof. by intros h. Qed.

Lemma frames_lift {A} l (o : option A) : frames l (lift o).
Proof. by intros h. Qed.

Lemma frames_bind {A B} l (m : M A) (k : A -> M B) :
  frames l m -> (forall a, frames l (k a)) -> frames l (bind m k).
Proof.
  intros Hm Hk h. unfold bind. specialize (Hm h).
  destruct (m h) as [[a |] h1]; simpl in *; [| done].
  by rewrite Hk.
Qed.

Lemma frames_set_isub l u keys : l <> u -> frames l (set_isub u keys).
Proof.
  intros Hne h. unfold set_isub. destruct (h !! u); simpl; [| done].
  by rewrite lookup_insert_ne.
Qed.

(** The update in place is seen through the location it is made at. *)
Lemma set_isub_at u keys h xs :
  h !! u = Some xs ->
  (set_isub u keys h).2 !! u = Some (filter (fun x => x ∉ keys) xs).
Proof.
  intros Hu. unfold set_isub. rewrite Hu. simpl. by rewrite lookup_insert_eq.
Qed.

(** ** The lookup tables *)

Lemma dict_of_from_lookup {A} (key val : A -> string) (xs : list A)
    (d : gmap string string) k v :
  fold_left (fun d x => <[key x := val x]> d) xs d !! k = Some v ->
  d !! k = Some v \/ exists x, x ∈ xs /\ key x = k /\ val x = v.
Proof.
  revert d. induction xs as [| x xs IH]; intros d H; simpl in H; [by left |].
  apply IH in H as [H | (y & Hy & Hk & Hv)].
  - apply lookup_insert_Some in H as [[Hk Hv] | [_ H]]; [| by left].
    right. exists x. split; [apply elem_of_cons; by left | done].
  - right. exists y. split; [apply elem_of_cons; by right | done].
Qed.

Lemma dict_of_lookup {A} (key val : A -> string) (xs : list A) k v :
  dict_of key val xs !! k = Some v ->
  exists x, x ∈ xs /\ key x = k /\ val x = v.
Proof.
  intros H. apply dict_of_from_lookup in H as [H | H]; [| done].
  by rewrite lookup_empty in H.
Qed.

Lemma dict_of_from_fresh_key {A} (key val : A -> string) (xs : list A)
    (d : gmap string string) k :
  (forall x, x ∈ xs -> key x <> k) ->
  fold_left (fun d x => <[key x := val x]> d) xs d !! k = d !! k.
Proof.
  revert d. induction xs as [| x xs IH]; intros d H; simpl; [done |].
  rewrite IH.
  - apply lookup_insert_ne. apply H, elem_of_cons. by left.
  - intros y Hy. apply H, elem_of_cons. by right.
Qed.

Lemma dict_of_snoc {A} (key val : A -> string) (xs : list A) y :
  dict_of key val (xs ++ [y]) = <[key y := val y]> (dict_of key val xs).
Proof. unfold dict_of. by rewrite fold_left_app. Qed.

(** An entry is found under its key when the entries that share the key
    agree on the value, whatever the order of insertion. *)
Lemma dict_of_lookup_agree {A} (key val : A -> string) (xs : list A) x :
  x ∈ xs ->
  (forall y, y ∈ xs -> key y = key x -> val y = val x) ->
  dict_of key val xs !! key x = Some (val x).
Proof.
  induction xs as [| y xs IH] using rev_ind; intros Hx Hagree.
  - by apply elem_of_nil in Hx.
  - rewrite dict_of_snoc. destruct (decide (key y = key x)) as [Hk | Hk].
    + rewrite Hk, lookup_insert_eq. f_equal. apply Hagree; [| done].
      apply elem_of_app. right. by apply list_elem_of_singleton.
    + rewrite lookup_insert_ne by done.
      apply elem_of_app in Hx as [Hx | Hx].
      * apply IH; [done |]. intros z Hz. apply Hagree, elem_of_app. by left.
      * apply list_elem_of_singleton in Hx. by subst.
Qed.

(** ** The engine *)

Lemma try_match_lookup text (m : gmap string string) t :
  try_match text m = Some t -> exists k, m !! k = Some t.
Proof.
  unfold try_match. destruct (m !! text) as [t' |] eqn:E1.
  - intros [= <-]. eauto.
  - destruct (m !! PyStr.replace text " " "_") as [t' |] eqn:E2; [| done].
    intros [= <-]. eauto.
Qed.

Lemma try_match_exact text (m : gmap string string) t :
  m !! text = Some t -> try_match text m = Some t.
Proof. intros H. unfold try_match. by rewrite H. Qed.

Lemma lookup_candidate_first_hit ix rule_ans :
  lookup_candidate ix rule_ans = first_hit (tiers ix rule_ans).
Proof.
  unfold lookup_candidate, tiers. simpl.
  repeat (match goal with
          | |- context [match try_match ?a ?b with _ => _ end] =>
              destruct (try_match a b); [reflexivity |]
          end).
  reflexivity.
Qed.

Lemma first_hit_elem results m :
  first_hit results = Some m -> Some m ∈ results.
Proof.
  induction results as [| [r |] results IH]; simpl; [done | |].
  - intros [= ->]. apply elem_of_cons. by left.
  - intros H. apply elem_of_cons. right. by apply IH.
Qed.

Lemma match_candidate_inv ix rule_func original_ans raw_ans am am' :
  match_candidate ix rule_func original_ans raw_ans am = Some am' ->
  exists r, rule_func raw_ans = Some r /\
    match lookup_candidate ix (format_candidate r) with
    | Some m => am' = <[original_ans := m]> am
    | None => am' = am
    end.
Proof.
  unfold match_candidate. destruct (rule_func raw_ans) as [r |]; [| done].
  intros H. exists r. split; [done |].
  destruct (lookup_candidate ix (format_candidate r)); by inversion H.
Qed.

Section EngineFacts.

Context {O : PySetOrder}.
Variable unidecode : string -> string.

Lemma lookup_candidate_value wiki_titles wiki_redirects_source rule_ans m :
  lookup_candidate (build_lookups unidecode wiki_titles wiki_redirects_source)
    rule_ans = Some m ->
  m ∈ wiki_titles \/ m ∈ wiki_redirects_source.*2.
Proof.
  rewrite lookup_candidate_first_hit. intros H%first_hit_elem.
  unfold tiers, build_lookups in H. simpl in H.
  assert (Htitle : forall key text,
    try_match text (dict_of key (fun t : string => t) (set_iter wiki_titles))
      = Some m -> m ∈ wiki_titles).
  { intros key text (k & Hk)%try_match_lookup.
    apply dict_of_lookup in Hk as (x & Hx & _ & Hv). simpl in Hv. subst x.
    by apply set_iter_elem. }
  assert (Hredirect : forall key text,
    try_match text (dict_of key snd wiki_redirects_source) = Some m ->
    m ∈ wiki_redirects_source.*2).
  { intros key text (k & Hk)%try_match_lookup.
    apply dict_of_lookup in Hk as (x & Hx & _ & Hv).
    apply list_elem_of_fmap. eauto. }
  repeat (apply elem_of_cons in H as [H | H];
          [symmetry in H; eauto |]).
  by apply elem_of_nil in H.
Qed.

(** An invariant of the answer map carries over the loop on the candidates
    of an answer, over the loop on the answers and over the loop on the match
    rules, when one candidate carries it over. *)
Lemma match_expansions_invariant (P : gmap string string -> Prop)
    ix rule_func original_ans ans_expansions am am' :
  (forall raw_ans a a', raw_ans ∈ ans_expansions -> P a ->
     match_candidate ix rule_func original_ans raw_ans a = Some a' -> P a') ->
  P am ->
  match_expansions ix rule_func original_ans ans_expansions am = Some am' ->
  P am'.
Proof.
  revert am. induction ans_expansions as [| raw rest IH]; intros am Hstep HP H;
    simpl in H.
  - by injection H as <-.
  - destruct (match_candidate ix rule_func original_ans raw am) as [a1 |] eqn:E;
      [| done].
    apply (IH a1); [| | done].
    + intros raw' a a' Hin. apply Hstep, elem_of_cons. by right.
    + apply (Hstep raw am a1); [apply elem_of_cons; by left | done | done].
Qed.

Lemma match_answers_invariant (P : gmap string string -> Prop)
    ix rule_func items am am' :
  (forall original_ans ans_expansions raw_ans a a',
     (original_ans, ans_expansions) ∈ items -> raw_ans ∈ ans_expansions ->
     P a ->
     match_candidate ix rule_func original_ans raw_ans a = Some a' -> P a') ->
  P am ->
  match_answers ix rule_func items am = Some am' ->
  P am'.
Proof.
  revert am. induction items as [| [o exps] rest IH]; intros am Hstep HP H;
    simpl in H.
  - by injection H as <-.
  - destruct (match_expansions ix rule_func o (set_iter exps) am)
      as [a1 |] eqn:E; [| done].
    apply (IH a1); [| | done].
    + intros o' exps' raw a a' Hin. apply Hstep, elem_of_cons. by right.
    + apply (match_expansions_invariant P ix rule_func o (set_iter exps) am);
        [| done | done].
      intros raw a a' Hraw. apply (Hstep o exps); [| by apply set_iter_elem].
      apply elem_of_cons. by left.
Qed.

Lemma match_rule_pass_inv ix items u rule_func am h am' h' :
  match_rule_pass ix items u rule_func am h = (Some am', h') ->
  match_answers ix rule_func items am = Some am' /\
  exists s, h !! u = Some s /\
    h' = <[u := filter (fun x => x ∉ dom am') s]> h.
Proof.
  unfold match_rule_pass, bind, lift, set_isub, ret.
  destruct (match_answers ix rule_func items am) as [a1 |]; [| done].
  destruct (h !! u) as [s |]; [| done].
  intros [= <- <-]. eauto.
Qed.

Lemma match_rules_loop_invariant (P : gmap string string -> Prop)
    ix items u match_rules am h am' h' :
  (forall name rule_func a a', (name, rule_func) ∈ match_rules -> P a ->
     match_answers ix rule_func items a = Some a' -> P a') ->
  P am ->
  match_rules_loop ix items u match_rules am h = (Some am', h') ->
  P am'.
Proof.
  revert am h. induction match_rules as [| [name f] rest IH];
    intros am h Hstep HP H; simpl in H.
  - by injection H as <- <-.
  - apply bind_Some in H as (a1 & h1 & Hpass & H).
    apply match_rule_pass_inv in Hpass as [Hpass _].
    apply (IH a1 h1); [| | done].
    + intros name' f' a a' Hin. apply (Hstep name'), elem_of_cons. by right.
    + apply (Hstep name f am a1); [apply elem_of_cons; by left | done | done].
Qed.

Lemma match_candidate_dom ix rule_func original_ans raw_ans am am' :
  match_candidate ix rule_func original_ans raw_ans am = Some am' ->
  dom am ⊆ dom am'.
Proof.
  intros (r & _ & H)%match_candidate_inv.
  destruct (lookup_candidate ix (format_candidate r)); subst; [| done].
  apply dom_insert_subseteq.
Qed.

Lemma match_answers_dom ix rule_func items am am' :
  match_answers ix rule_func items am = Some am' -> dom am ⊆ dom am'.
Proof.
  apply (match_answers_invariant (fun a => dom am ⊆ dom a)); [| done].
  intros o exps raw a a' _ _ Ha Hstep. etrans; [exact Ha |].
  by eapply match_candidate_dom.
Qed.

Lemma match_rules_loop_frames ix items u match_rules am l :
  l <> u -> frames l (match_rules_loop ix items u match_rules am).
Proof.
  intros Hne. revert am. induction match_rules as [| [name f] rest IH];
    intros am; simpl.
  - apply frames_ret.
  - apply frames_bind; [| done]. unfold match_rule_pass.
    apply frames_bind; [apply frames_lift |]. intros a.
    apply frames_bind; [by apply frames_set_isub |]. intros _.
    apply frames_ret.
Qed.

(** What the loop over the match rules does to the set it updates. *)
Lemma match_rules_loop_store ix items u match_rules am h am' h' s :
  h !! u = Some s ->
  match_rules_loop ix items u match_rules am h = (Some am', h') ->
  dom am ⊆ dom am' /\
  exists s', h' !! u = Some s' /\ s' ⊆ s /\ (NoDup s -> NoDup s') /\
    ((forall x, x ∈ s -> x ∉ dom am) ->
     forall x, x ∈ s' <-> x ∈ s /\ x ∉ dom am').
Proof.
  clear unidecode.
  revert am h s. induction match_rules as [| [name f] rest IH];
    intros am h s Hu H; simpl in H.
  - injection H as <- <-. split; [done |]. exists s.
    split; [done |]. split; [done |]. split; [done |].
    intros Hs x. split; [| tauto].
    intros Hx. split; [done | by apply Hs].
  - apply bind_Some in H as (a1 & h1 & Hpass & H).
    apply match_rule_pass_inv in Hpass as (Hans & s0 & Hs0 & ->).
    rewrite Hu in Hs0. injection Hs0 as <-.
    apply match_answers_dom in Hans.
    eapply IH in H as (Hdom & s' & Hs' & Hsub & Hnd & Hiff);
      [| apply lookup_insert_eq].
    split; [by etrans |]. exists s'. split; [done |]. split; [| split].
    + intros x Hx. apply Hsub in Hx. by apply list_elem_of_filter in Hx as [_ ?].
    + intros Hs. by apply Hnd, NoDup_filter.
    + intros _ x. rewrite Hiff.
      * rewrite list_elem_of_filter. split; [tauto |].
        intros [Hx Hx']. split; [split |]; [| done | done].
        intros Hx1. apply Hx'. by apply Hdom.
      * intros y Hy. by apply list_elem_of_filter in Hy as [? _].
Qed.

(** The run of the function on a store that has the caller's set. *)
Lemma mapping_rules_run expansion_rules match_rules wiki_titles
    wiki_redirects_source l h passed :
  h !! l = Some passed ->
  mapping_rules_to_answer_map unidecode expansion_rules match_rules
    wiki_titles wiki_redirects_source l h
  = match match_rules_loop
            (build_lookups unidecode wiki_titles wiki_redirects_source)
            (expansion_map expansion_rules (set_of (set_iter passed)))
            (fresh (dom h)) match_rules ∅
            (<[fresh (dom h) := set_of (set_iter passed)]> h) with
    | (Some am, h') => (Some (am, fresh (dom h)), h')
    | (None, h') => (None, h')
    end.
Proof.
  intros Hl. unfold mapping_rules_to_answer_map, bind, set_get, set_new, ret.
  rewrite Hl, lookup_insert_eq. reflexivity.
Qed.

Lemma mapping_rules_dangling expansion_rules match_rules wiki_titles
    wiki_redirects_source l h :
  h !! l = None ->
  mapping_rules_to_answer_map unidecode expansion_rules match_rules
    wiki_titles wiki_redirects_source l h = (None, h).
Proof.
  intros Hl. unfold mapping_rules_to_answer_map, bind, set_get.
  by rewrite Hl.
Qed.

Lemma fresh_loc_ne (h : gmap loc (list string)) l :
  is_Some (h !! l) -> l <> fresh (dom h).
Proof.
  intros Hl%elem_of_dom ->. by apply (is_fresh (dom h)).
Qed.

(** *** The keys of the expansion map *)

Lemma edict_add_key k x d o e :
  (o, e) ∈ edict_add k x d -> o = k \/ exists e', (o, e') ∈ d.
Proof.
  induction d as [| [k' xs] d IH]; simpl.
  - intros H%list_elem_of_singleton. injection H as -> _. by left.
  - case_bool_decide as Hk.
    + intros [H | H]%elem_of_cons.
      * injection H as -> _. right. exists xs. apply elem_of_cons. by left.
      * right. exists e. apply elem_of_cons. by right.
    + intros [H | H]%elem_of_cons.
      * injection H as -> ->. right. exists xs. apply elem_of_cons. by left.
      * apply IH in H as [-> | (e' & He')]; [by left |].
        right. exists e'. apply elem_of_cons. by right.
Qed.

Lemma edict_add_keys_within answers k x d :
  k ∈ answers -> keys_within answers d ->
  keys_within answers (edict_add k x d).
Proof.
  intros Hk Hd o e [-> | (e' & He')]%edict_add_key; [done |].
  by apply (Hd o e').
Qed.

Lemma edict_add_all_keys_within {A} answers k (g : A -> string)
    (es : list A) d :
  k ∈ answers -> keys_within answers d ->
  keys_within answers (fold_left (fun d e => edict_add k (g e) d) es d).
Proof.
  intros Hk. revert d. induction es as [| e es IH]; intros d Hd; simpl;
    [done |].
  apply IH. by apply edict_add_keys_within.
Qed.

Lemma seed_expansions_keys_within answers :
  keys_within answers (seed_expansions answers).
Proof.
  unfold seed_expansions.
  assert (H : forall xs d, (forall x, x ∈ xs -> x ∈ answers) ->
    keys_within answers d ->
    keys_within answers (fold_left (fun d ans => edict_add ans ans d) xs d)).
  { induction xs as [| x xs IH]; intros d Hxs Hd; simpl; [done |].
    apply IH; [intros y Hy; apply Hxs, elem_of_cons; by right |].
    apply edict_add_keys_within; [| done]. apply Hxs, elem_of_cons. by left. }
  apply H; [done |]. intros o e Hin. by apply elem_of_nil in Hin.
Qed.

Lemma expand_rule_keys_within answers rule_func d :
  keys_within answers d ->
  keys_within answers (expand_rule rule_func answers d).
Proof.
  unfold expand_rule.
  assert (H : forall xs d, (forall x, x ∈ xs -> x ∈ answers) ->
    keys_within answers d ->
    keys_within answers
      (fold_left
         (fun d raw_ans =>
            fold_left
              (fun d exp_ans => edict_add raw_ans (PyStr.strip exp_ans) d)
              (rule_func raw_ans) d) xs d)).
  { induction xs as [| x xs IH]; intros d' Hxs Hd; simpl; [done |].
    apply IH; [intros y Hy; apply Hxs, elem_of_cons; by right |].
    apply edict_add_all_keys_within; [| done].
    apply Hxs, elem_of_cons. by left. }
  by apply H.
Qed.

Lemma expansion_map_keys expansion_rules elements o e :
  (o, e) ∈ expansion_map expansion_rules elements -> o ∈ elements.
Proof.
  unfold expansion_map, expand_rules. intros H. apply set_iter_elem.
  revert o e H. fold (keys_within (set_iter elements)).
  generalize (seed_expansions_keys_within (set_iter elements)).
  generalize (seed_expansions (set_iter elements)).
  induction expansion_rules as [| rule rest IH]; intros d Hd; simpl; [done |].
  apply IH. by apply expand_rule_keys_within.
Qed.

(** *** A pass in which a candidate of an answer is found *)

Lemma match_expansions_app ix rule_func original_ans cands1 cands2 am :
  match_expansions ix rule_func original_ans (cands1 ++ cands2) am
  = match match_expansions ix rule_func original_ans cands1 am with
    | Some am1 => match_expansions ix rule_func original_ans cands2 am1
    | None => None
    end.
Proof.
  revert am. induction cands1 as [| raw rest IH]; intros am; simpl; [done |].
  by destruct (match_candidate ix rule_func original_ans raw am).
Qed.

Lemma match_answers_app ix rule_func items1 items2 am :
  match_answers ix rule_func (items1 ++ items2) am
  = match match_answers ix rule_func items1 am with
    | Some am1 => match_answers ix rule_func items2 am1
    | None => None
    end.
Proof.
  revert am. induction items1 as [| [o exps] rest IH]; intros am; simpl;
    [done |].
  by destruct (match_expansions ix rule_func o (set_iter exps) am).
Qed.

Lemma match_candidate_found ix rule_func items o exps raw a am am' :
  (o, exps) ∈ items -> raw ∈ exps ->
  (exists m, am !! a = Some m /\ found_for ix rule_func items a m) ->
  match_candidate ix rule_func o raw am = Some am' ->
  exists m, am' !! a = Some m /\ found_for ix rule_func items a m.
Proof.
  intros Ho Hraw (m & Hm & Hfound) (r & Hr & Hstep)%match_candidate_inv.
  destruct (lookup_candidate ix (format_candidate r)) as [m' |] eqn:Hm';
    subst am'; [| eauto].
  destruct (decide (o = a)) as [-> | Hne].
  - exists m'. split; [apply lookup_insert_eq |]. by exists exps, raw, r.
  - exists m. split; [by rewrite lookup_insert_ne |]. done.
Qed.

Lemma match_answers_found ix rule_func items am am' a :
  match_answers ix rule_func items am = Some am' ->
  (exists m, found_for ix rule_func items a m) ->
  exists m, am' !! a = Some m /\ found_for ix rule_func items a m.
Proof.
  intros Hrun (m & exps & raw & r & Hitem & Hraw & Hr & Hm).
  pose proof Hitem as Hsplit.
  apply list_elem_of_split in Hsplit as (items1 & items2 & Hitems).
  pose proof Hraw as Hsplit. apply set_iter_elem in Hsplit.
  apply list_elem_of_split in Hsplit as (cands1 & cands2 & Hcands).
  rewrite Hitems in Hrun. rewrite match_answers_app in Hrun.
  destruct (match_answers ix rule_func items1 am) as [am1 |]; [| done].
  simpl in Hrun. rewrite Hcands, match_expansions_app in Hrun.
  destruct (match_expansions ix rule_func a cands1 am1) as [am2 |];
    [| done].
  simpl in Hrun. unfold match_candidate in Hrun. rewrite Hr, Hm in Hrun.
  destruct (match_expansions ix rule_func a cands2 (<[a := m]> am2))
    as [am3 |] eqn:Hrest; [| done].
  revert Hrun.
  apply (match_answers_invariant
    (fun x => exists m, x !! a = Some m /\ found_for ix rule_func items a m)).
  - intros o exps' raw' a1 a2 Ho Hraw'.
    apply (match_candidate_found _ _ _ o exps'); [| done].
    rewrite Hitems. apply elem_of_app. right. apply elem_of_cons. by right.
  - revert Hrest.
    apply (match_expansions_invariant
      (fun x => exists m, x !! a = Some m /\ found_for ix rule_func items a m)).
    + intros raw' a1 a2 Hraw'. apply (match_candidate_found _ _ _ a exps);
        [done |].
      apply set_iter_elem. rewrite Hcands. apply elem_of_app. right.
      apply elem_of_cons. by right.
    + exists m. split; [apply lookup_insert_eq |]. by exists exps, raw, r.
Qed.

(** *** The run returns *)

Lemma match_answers_total ix rule_func items am :
  (forall x, is_Some (rule_func x)) ->
  is_Some (match_answers ix rule_func items am).
Proof.
  intros Htot.
  assert (Hc : forall o raw a, is_Some (match_candidate ix rule_func o raw a)).
  { intros o raw a. unfold match_candidate.
    destruct (Htot raw) as [r ->].
    by destruct (lookup_candidate ix (format_candidate r)). }
  assert (He : forall o cands a,
    is_Some (match_expansions ix rule_func o cands a)).
  { intros o cands. induction cands as [| raw rest IH]; intros a; simpl;
      [done |].
    destruct (Hc o raw a) as [a1 ->]. apply IH. }
  revert am. induction items as [| [o exps] rest IH]; intros am; simpl;
    [done |].
  destruct (He o (set_iter exps) am) as [a1 ->]. apply IH.
Qed.

Lemma match_rule_pass_total ix items u rule_func am h s :
  (forall x, is_Some (rule_func x)) -> h !! u = Some s ->
  exists am',
    match_rule_pass ix items u rule_func am h
    = (Some am', <[u := filter (fun x => x ∉ dom am') s]> h).
Proof.
  intros Htot Hs. destruct (match_answers_total ix rule_func items am Htot)
    as [a1 Ha1].
  exists a1. unfold match_rule_pass, bind, lift, set_isub, ret.
  by rewrite Ha1, Hs.
Qed.

Lemma match_rules_loop_total ix items u match_rules am h :
  total_rules match_rules -> is_Some (h !! u) ->
  exists am' h', match_rules_loop ix items u match_rules am h = (Some am', h').
Proof.
  revert am h. induction match_rules as [| [name f] rest IH];
    intros am h Htot [s Hs]; simpl; [by eexists _, _ |].
  destruct (match_rule_pass_total ix items u f am h s) as [a1 Ha1]; [| done |].
  { intros x. apply (Htot name). apply elem_of_cons. by left. }
  unfold bind. rewrite Ha1. apply IH.
  - intros name' f' x Hin. apply (Htot name'). apply elem_of_cons. by right.
  - rewrite lookup_insert_eq. eauto.
Qed.

Lemma mapping_rules_returns expansion_rules match_rules wiki_titles
    wiki_redirects_source l h :
  total_rules match_rules -> is_Some (h !! l) ->
  exists am h',
    mapping_rules_to_answer_map unidecode expansion_rules match_rules
      wiki_titles wiki_redirects_source l h
    = (Some (am, fresh (dom h)), h').
Proof.
  intros Htot [passed Hl]. rewrite (mapping_rules_run _ _ _ _ _ _ _ Hl).
  edestruct (match_rules_loop_total
               (build_lookups unidecode wiki_titles wiki_redirects_source)
               (expansion_map expansion_rules (set_of (set_iter passed)))
               (fresh (dom h)) match_rules ∅
               (<[fresh (dom h) := set_of (set_iter passed)]> h))
    as (am & h' & ->); [done | | by eexists _, _].
  rewrite lookup_insert_eq. eauto.
Qed.

(** The passes of a list of match rules are those of a first part followed
    by those of the rest. *)
Lemma match_rules_loop_app ix items u rules1 rules2 am h :
  match_rules_loop ix items u (rules1 ++ rules2) am h
  = bind (match_rules_loop ix items u rules1 am)
      (fun am1 => match_rules_loop ix items u rules2 am1) h.
Proof.
  revert am h. induction rules1 as [| [name f] rest IH]; intros am h; simpl;
    [done |].
  unfold bind at 1 2 3.
  destruct (match_rule_pass ix items u f am h) as [[a1 |] h1]; [| done].
  rewrite IH. reflexivity.
Qed.

End EngineFacts.

(** ** The mapping engine: the claims *)

Section EngineClaims.

Context {O : PySetOrder}.
Variable unidecode : string -> string.

(** C9. [mapping_rules_to_answer_map] does not mutate the set the caller
    passes: whatever the inputs and the store, and whether the call returns
    or raises, the set object at the caller's location holds after the call
    what it held before. *)
Theorem caller_set_not_mutated expansion_rules match_rules wiki_titles
    wiki_redirects_source (l : loc) (h : gmap loc (list string)) :
  (mapping_rules_to_answer_map unidecode expansion_rules match_rules
     wiki_titles wiki_redirects_source l h).2 !! l = h !! l.
Proof.
  destruct (h !! l) as [passed |] eqn:Hl.
  - rewrite (mapping_rules_run unidecode _ _ _ _ _ _ _ Hl).
    assert (Hne : l <> fresh (dom h)) by (apply fresh_loc_ne; eauto).
    pose proof (match_rules_loop_frames
      (build_lookups unidecode wiki_titles wiki_redirects_source)
      (expansion_map expansion_rules (set_of (set_iter passed)))
      (fresh (dom h)) match_rules ∅ l Hne
      (<[fresh (dom h) := set_of (set_iter passed)]> h)) as Hframe.
    rewrite lookup_insert_ne in Hframe by done.
    destruct (match_rules_loop _ _ _ _ _ _) as [[am |] h']; simpl in *;
      by rewrite Hframe.
  - by rewrite mapping_rules_dangling.
Qed.

(** C4. After each pass of a match rule the unresolved set is within the
    unresolved set before the pass and the keys of the answer map have only
    grown; and the unresolved set returned is the set passed in less the
    keys of the answer map returned. *)
Theorem unresolved_set_monotone :
  (forall ix items u rule_func am h am' h' s,
     match_rule_pass ix items u rule_func am h = (Some am', h') ->
     h !! u = Some s ->
     exists s', h' !! u = Some s' /\ s' ⊆ s /\ dom am ⊆ dom am')
  /\
  (forall expansion_rules match_rules wiki_titles wiki_redirects_source
          l h passed am u h',
     h !! l = Some passed ->
     mapping_rules_to_answer_map unidecode expansion_rules match_rules
       wiki_titles wiki_redirects_source l h = (Some (am, u), h') ->
     exists s', h' !! u = Some s' /\ NoDup s' /\
       forall x, x ∈ s' <-> x ∈ passed /\ x ∉ dom am).
Proof.
  split.
  - intros ix items u f am h am' h' s Hpass Hs.
    apply match_rule_pass_inv in Hpass as (Hans & s0 & Hs0 & ->).
    rewrite Hs in Hs0. injection Hs0 as <-.
    exists (filter (fun x => x ∉ dom am') s).
    split; [apply lookup_insert_eq |]. split.
    + intros x Hx. by apply list_elem_of_filter in Hx as [_ ?].
    + by eapply match_answers_dom.
  - intros exp rules titles redirects l h passed am u h' Hl Hrun.
    rewrite (mapping_rules_run unidecode _ _ _ _ _ _ _ Hl) in Hrun.
    destruct (match_rules_loop _ _ _ _ _ _) as [[am0 |] h0] eqn:Hloop;
      [| done].
    injection Hrun as <- <- <-.
    apply match_rules_loop_store with (s := set_of (set_iter passed))
      in Hloop as (_ & s' & Hs' & _ & Hnd & Hiff);
      [| apply lookup_insert_eq].
    exists s'. split; [done |]. split; [apply Hnd, set_of_NoDup |].
    intros x. rewrite Hiff.
    + by rewrite set_of_elem, set_iter_elem.
    + intros y _. rewrite dom_empty_L. apply not_elem_of_empty.
Qed.

(** C10. Every key of the answer map returned is an element of the set
    passed in, and every value is a title of [wiki_titles] or a target of
    [wiki_redirects_source]. *)
Theorem answer_map_within_inputs expansion_rules match_rules wiki_titles
    wiki_redirects_source l h passed am u h' :
  h !! l = Some passed ->
  mapping_rules_to_answer_map unidecode expansion_rules match_rules
    wiki_titles wiki_redirects_source l h = (Some (am, u), h') ->
  forall k v, am !! k = Some v ->
    k ∈ passed /\ (v ∈ wiki_titles \/ v ∈ wiki_redirects_source.*2).
Proof.
  intros Hl Hrun.
  rewrite (mapping_rules_run unidecode _ _ _ _ _ _ _ Hl) in Hrun.
  destruct (match_rules_loop _ _ _ _ _ _) as [[am0 |] h0] eqn:Hloop;
    [| done].
  injection Hrun as <- <- <-.
  set (P := fun a : gmap string string => forall k v, a !! k = Some v ->
    k ∈ passed /\ (v ∈ wiki_titles \/ v ∈ wiki_redirects_source.*2)).
  revert Hloop. apply (match_rules_loop_invariant P).
  - intros name f a a' _. apply (match_answers_invariant P).
    intros o exps raw a1 a2 Ho _ Ha1 (r & _ & Hstep)%match_candidate_inv.
    destruct (lookup_candidate _ (format_candidate r)) as [m |] eqn:Hm;
      subst a2; [| done].
    unfold P. intros k v [[<- <-] | [_ Hk]]%lookup_insert_Some;
      [| by apply Ha1].
    split; [| exact (lookup_candidate_value unidecode _ _ _ _ Hm)].
    apply expansion_map_keys in Ho.
    by rewrite set_of_elem, set_iter_elem in Ho.
  - intros k v Hk. by rewrite lookup_empty in Hk.
Qed.

(** C3. A formatted candidate is looked up in the eight tables in the order
    exact titles, exact redirects, Unicode-folded titles, Unicode-folded
    redirects, lower-cased titles, lower-cased redirects, lower-cased folded
    titles, lower-cased folded redirects, and the first table that has it
    gives the title recorded for the answer; a candidate that is a title as
    it stands and whose lower-cased form is a redirect is mapped to the
    title. *)
Theorem lookup_priority_order :
  (forall ix (rule_func : MatchRule) original_ans raw_ans am r,
     rule_func raw_ans = Some r ->
     match_candidate ix rule_func original_ans raw_ans am
     = Some match first_hit (tiers ix (format_candidate r)) with
            | Some m => <[original_ans := m]> am
            | None => am
            end)
  /\
  (forall wiki_titles wiki_redirects_source (rule_func : MatchRule)
          original_ans raw_ans am r p,
     rule_func raw_ans = Some r ->
     format_candidate r ∈ wiki_titles ->
     try_match (PyStr.lower (format_candidate r))
       (lower_wiki_redirects
          (build_lookups unidecode wiki_titles wiki_redirects_source))
     = Some p ->
     match_candidate
       (build_lookups unidecode wiki_titles wiki_redirects_source)
       rule_func original_ans raw_ans am
     = Some (<[original_ans := format_candidate r]> am)).
Proof.
  split.
  - intros ix f o raw am r Hr. unfold match_candidate.
    rewrite Hr, lookup_candidate_first_hit.
    by destruct (first_hit (tiers ix (format_candidate r))).
  - intros titles redirects f o raw am r p Hr Htitle _.
    unfold match_candidate. rewrite Hr. unfold lookup_candidate. simpl.
    rewrite (try_match_exact _ _ (format_candidate r)); [done |].
    apply (dict_of_lookup_agree (fun t : string => t) (fun t => t));
      [by apply set_iter_elem | done].
Qed.

(** What the match loop does to an answer that has a title. No further
    candidate and no later match rule removes its key, and the title stays
    as it is for as long as no candidate of that answer is found in a
    table. The loop does not pass over such an answer, although the comment
    of lines 65-68 and the removal of line 109 treat it as done with: after
    the pass of a match rule under which a candidate of the answer is found,
    the title of the answer is one found under that rule. *)
Theorem mapping_kept_until_found :
  (forall ix rule_func original_ans ans_expansions am am' a t,
     match_expansions ix rule_func original_ans ans_expansions am = Some am' ->
     am !! a = Some t ->
     is_Some (am' !! a) /\
     ((original_ans = a ->
       forall raw_ans, raw_ans ∈ ans_expansions -> misses ix rule_func raw_ans) ->
      am' !! a = Some t))
  /\
  (forall ix items u match_rules am h am' h' a t,
     match_rules_loop ix items u match_rules am h = (Some am', h') ->
     am !! a = Some t ->
     is_Some (am' !! a) /\
     ((forall name rule_func ans_expansions raw_ans,
         (name, rule_func) ∈ match_rules -> (a, ans_expansions) ∈ items ->
         raw_ans ∈ ans_expansions -> misses ix rule_func raw_ans) ->
      am' !! a = Some t))
  /\
  (forall ix items u rule_func am h am' h' a,
     match_rule_pass ix items u rule_func am h = (Some am', h') ->
     (exists m, found_for ix rule_func items a m) ->
     exists m, am' !! a = Some m /\ found_for ix rule_func items a m).
Proof.
  assert (Hkeep : forall ix f o raw am am' a,
    match_candidate ix f o raw am = Some am' ->
    is_Some (am !! a) -> is_Some (am' !! a)).
  { intros ix f o raw am am' a Hstep%match_candidate_dom Ha.
    apply elem_of_dom. apply Hstep. by apply elem_of_dom. }
  assert (Hsame : forall ix f o raw am am' a t,
    match_candidate ix f o raw am = Some am' ->
    (o = a -> misses ix f raw) ->
    am !! a = Some t -> am' !! a = Some t).
  { intros ix f o raw am am' a t (r & Hr & Hstep)%match_candidate_inv Hmiss Ha.
    destruct (lookup_candidate ix (format_candidate r)) as [m |] eqn:Hm;
      subst am'; [| done].
    destruct (decide (o = a)) as [Hoa | Hoa].
    - rewrite (Hmiss Hoa r Hr) in Hm. discriminate.
    - by rewrite lookup_insert_ne. }
  split; [| split].
  - intros ix f o cands am am' a t Hrun Ha. split.
    + revert Hrun.
      apply (match_expansions_invariant (fun m => is_Some (m !! a))); [| eauto].
      intros raw a1 a2 _ Ha1 Hstep. by eapply Hkeep.
    + intros Hmiss. revert Hrun.
      apply (match_expansions_invariant (fun m => m !! a = Some t));
        [| done].
      intros raw a1 a2 Hraw Ha1 Hstep.
      apply (Hsame ix f o raw a1 a2 a t Hstep); [| done].
      intros Hoa. by apply Hmiss.
  - intros ix items u rules am h am' h' a t Hrun Ha. split.
    + revert Hrun.
      apply (match_rules_loop_invariant (fun m => is_Some (m !! a)));
        [| eauto].
      intros name f a1 a2 _.
      apply (match_answers_invariant (fun m => is_Some (m !! a))).
      intros o exps raw a3 a4 _ _ Ha3 Hstep. by eapply Hkeep.
    + intros Hmiss. revert Hrun.
      apply (match_rules_loop_invariant (fun m => m !! a = Some t));
        [| done].
      intros name f a1 a2 Hrule.
      apply (match_answers_invariant (fun m => m !! a = Some t)).
      intros o exps raw a3 a4 Ho Hraw Ha3 Hstep.
      apply (Hsame ix f o raw a3 a4 a t Hstep); [| done].
      intros ->. by apply (Hmiss name f exps raw).
  - intros ix items u f am h am' h' a [Hrun _]%match_rule_pass_inv Hfound.
    by eapply match_answers_found.
Qed.

End EngineClaims.

(** ** The mapping engine on concrete inputs *)

Lemma caller_set_kept_example :
  mapping_rules_to_answer_map (O := insertion_order) unidecode_ascii
    [the_expansion_rule] [exact_match_rule] beatles_titles []
    0 (store_of ["beatles"; "zzz"])
  = (Some ({["beatles" := "The Beatles"]}, 1),
     {[0 := ["beatles"; "zzz"]; 1 := ["zzz"]]}).
Proof. vm_compute. reflexivity. Qed.

Lemma unresolved_set_monotone_witness :
  (exists s',
     ({[0 := ["beatles"; "zzz"]; 1 := ["zzz"]]} : gmap loc (list string)) !! 1
     = Some s' /\
     s' ⊆ ["beatles"; "zzz"] /\
     dom (∅ : gmap string string)
     ⊆ dom ({["beatles" := "The Beatles"]} : gmap string string))
  /\
  (exists s',
     ({[0 := ["beatles"; "zzz"]; 1 := ["zzz"]]} : gmap loc (list string)) !! 1
     = Some s' /\ NoDup s' /\
     forall x, x ∈ s' <-> x ∈ ["beatles"; "zzz"]
       /\ x ∉ dom ({["beatles" := "The Beatles"]} : gmap string string)).
Proof.
  split.
  - apply (proj1 (unresolved_set_monotone (O := insertion_order)
                    unidecode_ascii)
             (build_lookups (O := insertion_order) unidecode_ascii
                beatles_titles [])
             (expansion_map (O := insertion_order) [the_expansion_rule]
                ["beatles"; "zzz"])
             1 (fun x => Some x) ∅
             {[0 := ["beatles"; "zzz"]; 1 := ["beatles"; "zzz"]]}).
    + vm_compute. reflexivity.
    + reflexivity.
  - apply (proj2 (unresolved_set_monotone (O := insertion_order)
                    unidecode_ascii)
             [the_expansion_rule] [exact_match_rule] beatles_titles []
             0 (store_of ["beatles"; "zzz"])).
    + reflexivity.
    + vm_compute. reflexivity.
Defined.

Lemma answer_map_within_inputs_witness :
  "beatles" ∈ ["beatles"; "zzz"] /\
  ("The Beatles" ∈ beatles_titles
   \/ "The Beatles" ∈ ([] : list (string * string)).*2).
Proof.
  apply (answer_map_within_inputs (O := insertion_order) unidecode_ascii
           [the_expansion_rule] [exact_match_rule] beatles_titles []
           0 (store_of ["beatles"; "zzz"]) ["beatles"; "zzz"]
           {["beatles" := "The Beatles"]} 1
           {[0 := ["beatles"; "zzz"]; 1 := ["zzz"]]}).
  - reflexivity.
  - vm_compute. reflexivity.
  - reflexivity.
Defined.

Lemma lookup_priority_order_witness :
  match_candidate paris_lookups (fun x => Some x) "Paris" " Paris " ∅
  = Some match first_hit (tiers paris_lookups (format_candidate " Paris ")) with
         | Some m => <["Paris" := m]> ∅
         | None => ∅
         end
  /\
  match_candidate paris_lookups (fun x => Some x) "Paris" " Paris " ∅
  = Some (<["Paris" := format_candidate " Paris "]> ∅).
Proof.
  split.
  - apply (proj1 (lookup_priority_order (O := insertion_order)
                    unidecode_ascii)).
    reflexivity.
  - apply (proj2 (lookup_priority_order (O := insertion_order)
                    unidecode_ascii)
             ["Paris"; "France"] [("paris", "France")] (fun x => Some x)
             "Paris" " Paris " ∅ " Paris " "France").
    + reflexivity.
    + vm_compute. constructor.
    + vm_compute. reflexivity.
Defined.

Lemma mapping_kept_until_found_witness :
  (is_Some (({["a(" := "a("]} : gmap string string) !! "a(") /\
   ({["a(" := "a("]} : gmap string string) !! "a(" = Some "a(")
  /\
  (is_Some (({["a(" := "a("]} : gmap string string) !! "a(") /\
   ({["a(" := "a("]} : gmap string string) !! "a(" = Some "a(")
  /\
  (exists m,
     ({["Mercury (planet)" := "Mercury planet"]} : gmap string string)
       !! "Mercury (planet)" = Some m /\
     found_for mercury_lookups (snd parens_match_rule)
       [("Mercury (planet)", ["Mercury (planet)"])] "Mercury (planet)" m).
Proof.
  assert (Hmiss : misses paren_lookups (snd parens_match_rule) "a(").
  { intros r Hr. injection Hr as <-. vm_compute. reflexivity. }
  split; [| split].
  - destruct (proj1 (mapping_kept_until_found (O := insertion_order))
                paren_lookups (snd parens_match_rule) "a(" ["a("]
                {["a(" := "a("]} {["a(" := "a("]} "a(" "a(") as [H1 H2].
    + vm_compute. reflexivity.
    + reflexivity.
    + split; [exact H1 |]. apply H2. intros _ raw Hraw.
      apply list_elem_of_singleton in Hraw. subst raw. exact Hmiss.
  - destruct (proj1 (proj2 (mapping_kept_until_found (O := insertion_order)))
                paren_lookups [("a(", ["a("])] 0 [parens_match_rule]
                {["a(" := "a("]} {[0 := []]} {["a(" := "a("]} {[0 := []]}
                "a(" "a(") as [H1 H2].
    + vm_compute. reflexivity.
    + reflexivity.
    + split; [exact H1 |]. apply H2. intros name f exps raw Hrule Hitem Hraw.
      apply list_elem_of_singleton in Hrule. injection Hrule as -> ->.
      apply list_elem_of_singleton in Hitem. injection Hitem as ->.
      apply list_elem_of_singleton in Hraw. subst raw. exact Hmiss.
  - apply (proj2 (proj2 (mapping_kept_until_found (O := insertion_order)))
             mercury_lookups [("Mercury (planet)", ["Mercury (planet)"])] 0
             (snd parens_match_rule)
             {["Mercury (planet)" := "Mercury (planet)"]} {[0 := []]}
             {["Mercury (planet)" := "Mercury planet"]} {[0 := []]}
             "Mercury (planet)").
    + vm_compute. reflexivity.
    + exists "Mercury planet", ["Mercury (planet)"], "Mercury (planet)",
        "Mercury planet".
      split; [constructor |]. split; [constructor |].
      split; [reflexivity | vm_compute; reflexivity].
Defined.

(** C1 on the answer "Mercury (planet)" with the titles "Mercury (planet)"
    and "Mercury planet" and no expansion rule. After the match rule
    ['exact match'] the answer has the title of its own name, the strictest
    match there is, and it is no longer in the set of unmapped answers. The
    rule ['parens'] after it looks the answer up again and replaces the
    title by "Mercury planet", where the claim keeps the title of the first
    successful lookup. The answer has one candidate, so that the order of
    iteration plays no part: the two orders give the same maps. *)
Theorem strict_match_replaced_by_later_rule :
  (answer_map_of
     (mapping_rules_to_answer_map (O := insertion_order) unidecode_ascii
        [] [exact_match_rule] mercury_titles []
        0 (store_of ["Mercury (planet)"]))
   = Some {["Mercury (planet)" := "Mercury (planet)"]}
   /\
   answer_map_of
     (mapping_rules_to_answer_map (O := insertion_order) unidecode_ascii
        [] [exact_match_rule; parens_match_rule] mercury_titles []
        0 (store_of ["Mercury (planet)"]))
   = Some {["Mercury (planet)" := "Mercury planet"]})
  /\
  (answer_map_of
     (mapping_rules_to_answer_map (O := reverse_order) unidecode_ascii
        [] [exact_match_rule] mercury_titles []
        0 (store_of ["Mercury (planet)"]))
   = Some {["Mercury (planet)" := "Mercury (planet)"]}
   /\
   answer_map_of
     (mapping_rules_to_answer_map (O := reverse_order) unidecode_ascii
        [] [exact_match_rule; parens_match_rule] mercury_titles []
        0 (store_of ["Mercury (planet)"]))
   = Some {["Mercury (planet)" := "Mercury planet"]}).
Proof. repeat split; vm_compute; reflexivity. Qed.

(** Hence the answer map is overwritten on that input, in either order of
    iteration. *)
Lemma answer_map_overwritten :
  ~ never_overwritten insertion_order unidecode_ascii []
      [exact_match_rule] [parens_match_rule] mercury_titles []
      0 (store_of ["Mercury (planet)"]).
Proof.
  intros H.
  specialize (H {["Mercury (planet)" := "Mercury (planet)"]}
                {["Mercury (planet)" := "Mercury planet"]}
                "Mercury (planet)" "Mercury (planet)").
  assert (H' : ({["Mercury (planet)" := "Mercury planet"]}
                  : gmap string string) !! "Mercury (planet)"
               = Some "Mercury (planet)").
  { apply H; vm_compute; reflexivity. }
  vm_compute in H'. discriminate H'.
Qed.

Lemma overwritten_in_reverse_order :
  ~ never_overwritten reverse_order unidecode_ascii []
      [exact_match_rule] [parens_match_rule] mercury_titles []
      0 (store_of ["Mercury (planet)"]).
Proof.
  intros H.
  specialize (H {["Mercury (planet)" := "Mercury (planet)"]}
                {["Mercury (planet)" := "Mercury planet"]}
                "Mercury (planet)" "Mercury (planet)").
  assert (H' : ({["Mercury (planet)" := "Mercury planet"]}
                  : gmap string string) !! "Mercury (planet)"
               = Some "Mercury (planet)").
  { apply H; vm_compute; reflexivity. }
  vm_compute in H'. discriminate H'.
Qed.

(** C2 on the answer "beatles" with the expansion rule ['the'] and the
    titles "Beatles" and "The Beatles". The candidates are "beatles" and
    "the beatles", and each is found among the lower-cased titles. The code
    looks both up and keeps the title of the candidate it examines last; the
    pass that the specification words keeps the title of the first candidate
    found and looks no further. This holds in either order of iteration. *)
Theorem later_candidate_replaces_first_hit :
  (answer_map_of
     (mapping_rules_to_answer_map (O := insertion_order) unidecode_ascii
        [the_expansion_rule] [exact_match_rule] beatles_titles []
        0 (store_of ["beatles"]))
   = Some {["beatles" := "The Beatles"]}
   /\
   spec_match_answers (O := insertion_order)
     (build_lookups (O := insertion_order) unidecode_ascii beatles_titles [])
     (snd exact_match_rule)
     (expansion_map (O := insertion_order) [the_expansion_rule] ["beatles"])
     ∅
   = Some {["beatles" := "Beatles"]})
  /\
  (answer_map_of
     (mapping_rules_to_answer_map (O := reverse_order) unidecode_ascii
        [the_expansion_rule] [exact_match_rule] beatles_titles []
        0 (store_of ["beatles"]))
   = Some {["beatles" := "Beatles"]}
   /\
   spec_match_answers (O := reverse_order)
     (build_lookups (O := reverse_order) unidecode_ascii beatles_titles [])
     (snd exact_match_rule)
     (expansion_map (O := reverse_order) [the_expansion_rule] ["beatles"])
     ∅
   = Some {["beatles" := "The Beatles"]}).
Proof. repeat split; vm_compute; reflexivity. Qed.

(** ** String primitives *)

Example strip_ex : PyStr.strip "  a b  " = "a b".
Proof. reflexivity. Qed.

Example sub_spaces_ex : PyStr.sub_spaces false "a   b  c" = "a b c".
Proof. reflexivity. Qed.

Example replace_ex : PyStr.replace "the other then" "the" "" = " or n".
Proof. reflexivity. Qed.

Example replace_overlap_ex : PyStr.replace "aaa" "aa" "b" = "ba".
Proof. reflexivity. Qed.

Example format_candidate_ex : format_candidate "  Albert   Einstein " = "Albert Einstein".
Proof. reflexivity. Qed.

Example compose_ex : compose [remove_braces; remove_parens] "{a} (b)" = "a b".
Proof. reflexivity. Qed.

Lemma lower_char_idem c : PyStr.lower_char (PyStr.lower_char c) = PyStr.lower_char c.
Proof. destruct c as [[] [] [] [] [] [] [] []]; reflexivity. Qed.

Lemma lower_idem s : PyStr.lower (PyStr.lower s) = PyStr.lower s.
Proof.
  induction s as [| c s IH]; simpl; [done |].
  by rewrite lower_char_idem, IH.
Qed.

Lemma prefix_app p s :
  String.prefix p s = true -> exists rest, s = p +:+ rest.
Proof.
  revert s. induction p as [| a p IH]; intros s H; simpl in *.
  - by exists s.
  - destruct s as [| b s]; simpl in H; [done |].
    destruct (ascii_dec a b) as [-> |]; [| done].
    apply IH in H as [rest ->]. by exists rest.
Qed.

Lemma replace_from_skip old new p rest :
  PyStr.replace_from old new (String.length p) (p +:+ rest)
  = PyStr.replace_from old new 0 rest.
Proof.
  induction p as [| a p IH]; simpl; [| done].
  by destruct rest.
Qed.

Lemma string_app_length p s :
  String.length (p +:+ s) = String.length p + String.length s.
Proof. induction p as [| a p IH]; simpl; [done | by rewrite IH]. Qed.

(** [s.replace(old, "")] removes the occurrences of a non-empty [old]. *)
Lemma replace_removes old s :
  old <> "" -> removes old s (PyStr.replace s old "").
Proof.
  intros Hold. unfold PyStr.replace.
  destruct old as [| a old]; [done |]. clear Hold.
  remember (String.length s) as n eqn:Hn.
  revert s Hn. induction n as [n IH] using lt_wf_ind. intros s Hn.
  destruct s as [| c s]; [constructor |].
  cbn [PyStr.replace_from].
  destruct (String.prefix (String a old) (String c s)) eqn:Hp.
  - pose proof (prefix_app _ _ Hp) as [rest Hrest].
    simpl in Hrest. injection Hrest as -> ->.
    cbn [String.length]. rewrite Nat.sub_1_r. cbn [Nat.pred].
    rewrite replace_from_skip. cbn [String.append].
    apply (removes_hit (String a old) rest).
    apply (IH (String.length rest)); [| done].
    subst n. simpl. rewrite string_app_length. lia.
  - apply removes_keep; [done |].
    apply (IH (String.length s)); [subst n; simpl; lia | done].
Qed.

(** ** The rule ['the'] *)

(** C7, as it is stated, fails on an answer with a capital: for "Who" the
    words give "the Who" and the code gives "the who". *)
Lemma the_rule_not_as_worded : the_rule "Who" <> the_rule_spec "Who".
Proof. vm_compute. discriminate. Qed.

Lemma the_rule_removal_not_as_worded :
  the_rule "The Who" <> the_rule_spec "The Who".
Proof. vm_compute. discriminate. Qed.

(** C7, as amended. When the lower-cased answer contains "the", [the_rule]
    produces the lower-cased answer with the occurrences of "the" removed,
    and otherwise the lower-cased answer prefixed with "the ". *)
Theorem the_rule_on_lower_cased ans :
  (PyStr.contains "the" (PyStr.lower ans) = true ->
   the_rule ans = [PyStr.replace (PyStr.lower ans) "the" ""] /\
   removes "the" (PyStr.lower ans) (PyStr.replace (PyStr.lower ans) "the" ""))
  /\
  (PyStr.contains "the" (PyStr.lower ans) = false ->
   the_rule ans = ["the " +:+ PyStr.lower ans]).
Proof.
  unfold the_rule. split; intros H; rewrite H.
  - split; [done |]. by apply replace_removes.
  - by rewrite lower_idem.
Qed.

Lemma the_rule_on_lower_cased_witness :
  (the_rule "The Who" = [PyStr.replace (PyStr.lower "The Who") "the" ""] /\
   removes "the" (PyStr.lower "The Who")
     (PyStr.replace (PyStr.lower "The Who") "the" ""))
  /\ the_rule "Who" = ["the " +:+ PyStr.lower "Who"].
Proof.
  split.
  - apply (proj1 (the_rule_on_lower_cased "The Who")). reflexivity.
  - apply (proj2 (the_rule_on_lower_cased "Who")). reflexivity.
Defined.

Example the_rule_ex :
  the_rule "The Who" = [" who"] /\ the_rule "Who" = ["the who"].
Proof. split; reflexivity. Qed.

(** ** Reading the redirects *)

Lemma read_wiki_redirects_filter wiki_titles rows :
  read_wiki_redirects wiki_titles rows
  = (dict_of fst snd (filter (fun row => row.2 ∈ wiki_titles) rows),
     List.length (filter (fun row => row.2 ∉ wiki_titles) rows)).
Proof.
  unfold read_wiki_redirects.
  induction rows as [| [source target] rows IH] using rev_ind; [done |].
  rewrite fold_left_app, IH. simpl. rewrite !filter_app, !filter_cons, !filter_nil.
  simpl. case_bool_decide as Ht.
  - rewrite decide_True by done. rewrite decide_False by tauto.
    by rewrite dict_of_snoc, app_nil_r.
  - rewrite decide_False by done. rewrite decide_True by done.
    rewrite app_nil_r, length_app. simpl. f_equal. lia.
Qed.

Lemma dict_of_has_key {A} (key val : A -> string) (xs : list A) x :
  x ∈ xs -> is_Some (dict_of key val xs !! key x).
Proof.
  induction xs as [| y xs IH] using rev_ind; intros Hx.
  - by apply elem_of_nil in Hx.
  - rewrite dict_of_snoc. apply lookup_insert_is_Some.
    destruct (decide (key y = key x)) as [Hk | Hk]; [by left | right].
    split; [done |]. apply IH.
    apply elem_of_app in Hx as [Hx | Hx]; [done |].
    apply list_elem_of_singleton in Hx. by subst.
Qed.

Lemma NoDup_fst_agree {A B} (rows : list (A * B)) x y :
  NoDup rows.*1 -> x ∈ rows -> y ∈ rows -> x.1 = y.1 -> x = y.
Proof.
  induction rows as [| r rows IH]; intros Hnd Hx Hy Hk.
  - by apply elem_of_nil in Hx.
  - apply NoDup_cons in Hnd as [Hr Hnd].
    apply elem_of_cons in Hx as [-> | Hx];
      apply elem_of_cons in Hy as [-> | Hy]; [done | | | by apply IH].
    + exfalso. apply Hr. rewrite Hk. by apply list_elem_of_fmap_2.
    + exfalso. apply Hr. rewrite <- Hk. by apply list_elem_of_fmap_2.
Qed.

(** C8. [read_wiki_redirects] returns the lookup of exactly the rows whose
    target is among the titles: every entry of it is such a row, a row whose
    target is not a title is no entry of it and is counted, a source is a
    key of it exactly when one of its rows has a title for target, and, the
    sources being distinct, its entries are the rows with a title for
    target. The function returns on every list of rows. *)
Theorem redirects_with_known_target wiki_titles rows :
  exists redirect_lookup n,
    read_wiki_redirects wiki_titles rows = (redirect_lookup, n) /\
    redirect_lookup
    = dict_of fst snd (filter (fun row => row.2 ∈ wiki_titles) rows) /\
    n = List.length (filter (fun row => row.2 ∉ wiki_titles) rows) /\
    (forall source target, redirect_lookup !! source = Some target ->
       (source, target) ∈ rows /\ target ∈ wiki_titles) /\
    (forall source target, (source, target) ∈ rows -> target ∉ wiki_titles ->
       redirect_lookup !! source <> Some target) /\
    (forall source, is_Some (redirect_lookup !! source) <->
       exists target, (source, target) ∈ rows /\ target ∈ wiki_titles) /\
    (NoDup rows.*1 ->
     forall source target, redirect_lookup !! source = Some target <->
       (source, target) ∈ rows /\ target ∈ wiki_titles).
Proof.
  eexists _, _. split; [apply read_wiki_redirects_filter |].
  split; [done |]. split; [done |].
  set (kept := filter (fun row : string * string => row.2 ∈ wiki_titles) rows).
  assert (Hsound : forall source target,
    dict_of fst snd kept !! source = Some target ->
    (source, target) ∈ rows /\ target ∈ wiki_titles).
  { intros source target ([s t] & Hin & Hs & Ht)%dict_of_lookup.
    simpl in *. subst. by apply list_elem_of_filter in Hin as [? ?]. }
  split; [done |]. split; [| split].
  - intros source target _ Hnot Hlook. by apply Hsound in Hlook as [_ ?].
  - intros source. split.
    + intros [target Hlook]. exists target. by apply Hsound.
    + intros (target & Hin & Ht).
      assert (Hkept : (source, target) ∈ kept)
        by by apply list_elem_of_filter.
      by apply (dict_of_has_key fst snd kept (source, target)).
  - intros Hnd source target. split; [apply Hsound |].
    intros [Hin Ht].
    apply (dict_of_lookup_agree fst snd kept (source, target)).
    + by apply list_elem_of_filter.
    + intros y Hy Hk. f_equal.
      apply (NoDup_fst_agree rows); [done | | done | done].
      by apply list_elem_of_filter in Hy as [_ ?].
Qed.

Lemma redirects_with_known_target_witness :
  (read_wiki_redirects ["Soviet Union"]
     [("USSR", "Soviet Union"); ("CCCP", "Sovjet Union")]).1 !! "USSR"
  = Some "Soviet Union".
Proof.
  destruct (redirects_with_known_target ["Soviet Union"]
              [("USSR", "Soviet Union"); ("CCCP", "Sovjet Union")])
    as (m & n & Hrun & _ & _ & _ & _ & _ & Hiff).
  rewrite Hrun. simpl. apply Hiff.
  - apply (bool_decide_unpack (NoDup _)). vm_compute. exact I.
  - split; [constructor | constructor].
Defined.

Example read_wiki_redirects_ex :
  read_wiki_redirects ["Soviet Union"]
    [("USSR", "Soviet Union"); ("CCCP", "Sovjet Union")]
  = ({["USSR" := "Soviet Union"]}, 1).
Proof. vm_compute. reflexivity. Qed.

(** ** Reconciliation *)

Section ReconciliationFacts.

Variable maybe_assign :
  string -> string -> option Z -> option Z -> option string * option string.
Variables GUESSER_TRAIN_FOLD BUZZER_TRAIN_FOLD : string.

Local Abbreviation reconcile_question' :=
  (reconcile_question maybe_assign GUESSER_TRAIN_FOLD BUZZER_TRAIN_FOLD).
Local Abbreviation unmapped_to_mapped_questions' :=
  (unmapped_to_mapped_questions maybe_assign GUESSER_TRAIN_FOLD
     BUZZER_TRAIN_FOLD).
Local Abbreviation is_train_fold' :=
  (is_train_fold GUESSER_TRAIN_FOLD BUZZER_TRAIN_FOLD).
Local Abbreviation annotation_of' :=
  (annotation_of maybe_assign).
Local Abbreviation audit_of' :=
  (audit_of maybe_assign).
Local Abbreviation assigned' :=
  (assigned maybe_assign).
Local Abbreviation to_train' :=
  (to_train maybe_assign GUESSER_TRAIN_FOLD BUZZER_TRAIN_FOLD).
Local Abbreviation to_test' :=
  (to_test maybe_assign GUESSER_TRAIN_FOLD BUZZER_TRAIN_FOLD).

(** The loop body is the table of its parts. *)
Lemma reconcile_question_parts answer_map st q :
  reconcile_question' answer_map st q
  = {| questions := questions st ++ [assigned' answer_map q];
       train_unmatched :=
         train_unmatched st ++ filter (to_train' answer_map) [q];
       test_unmatched :=
         test_unmatched st ++ filter (to_test' answer_map) [q];
       match_report :=
         <[qanta_id q := audit_of' answer_map q]> (match_report st) |}.
Proof.
  rewrite !filter_cons, !filter_nil.
  unfold reconcile_question, audit_of, assigned.
  destruct (decide (to_train' answer_map q)) as [Ht | Ht];
    destruct (decide (to_test' answer_map q)) as [Hs | Hs];
    unfold to_train, to_test, unmatched, annotation_of in *;
    destruct (maybe_assign (answer q) (text q) (qdb_id q) (proto_id q))
      as [[ap |] err];
    destruct (answer_map !! answer q) as [au |]; simpl in *;
    try (destruct Ht as [[? ?] ?]; done);
    try (destruct Hs as [[? ?] ?]; done);
    rewrite ?app_nil_r; try reflexivity.
  - destruct Ht as [_ Ht], Hs as [_ Hs]. congruence.
  - destruct Ht as [_ ->]. reflexivity.
  - destruct Hs as [_ ->]. reflexivity.
  - by case_bool_decide.
  - exfalso. destruct (is_train_fold' (fold q)) eqn:Hf; [apply Ht | apply Hs];
      done.
Qed.

Lemma reconcile_fold_parts answer_map st qs :
  fold_left (reconcile_question' answer_map) qs st
  = {| questions := questions st ++ (assigned' answer_map <$> qs);
       train_unmatched :=
         train_unmatched st ++ filter (to_train' answer_map) qs;
       test_unmatched :=
         test_unmatched st ++ filter (to_test' answer_map) qs;
       match_report :=
         fold_left (fun m q => <[qanta_id q := audit_of' answer_map q]> m)
           qs (match_report st) |}.
Proof.
  revert st. induction qs as [| q qs IH]; intros st.
  - simpl. rewrite !filter_nil, !app_nil_r. by destruct st.
  - cbn [fold_left]. rewrite IH, reconcile_question_parts.
    cbn [questions train_unmatched test_unmatched match_report].
    rewrite fmap_cons, <- !app_assoc.
    rewrite (filter_cons (to_train' answer_map) q qs).
    rewrite (filter_cons (to_test' answer_map) q qs).
    rewrite !filter_cons, !filter_nil.
    by destruct (decide (to_train' answer_map q)),
                (decide (to_test' answer_map q)).
Qed.

Lemma report_from_fresh_id answer_map qs (m : gmap Z report_entry) k :
  (forall q, q ∈ qs -> qanta_id q <> k) ->
  fold_left (fun m q => <[qanta_id q := audit_of' answer_map q]> m) qs m !! k
  = m !! k.
Proof.
  revert m. induction qs as [| q qs IH]; intros m H; simpl; [done |].
  rewrite IH.
  - apply lookup_insert_ne. apply H, elem_of_cons. by left.
  - intros q' Hq'. apply H, elem_of_cons. by right.
Qed.

Lemma report_of_last answer_map qs1 q qs2 (m : gmap Z report_entry) :
  (forall q', q' ∈ qs2 -> qanta_id q' <> qanta_id q) ->
  fold_left (fun m q => <[qanta_id q := audit_of' answer_map q]> m)
    (qs1 ++ q :: qs2) m !! qanta_id q
  = Some (audit_of' answer_map q).
Proof.
  intros H. rewrite fold_left_app. simpl.
  rewrite report_from_fresh_id by done. apply lookup_insert_eq.
Qed.

Lemma report_dom answer_map qs (m : gmap Z report_entry) :
  dom (fold_left (fun m q => <[qanta_id q := audit_of' answer_map q]> m) qs m)
  = dom m ∪ list_to_set (qanta_id <$> qs).
Proof.
  revert m. induction qs as [| q qs IH]; intros m; simpl.
  - by rewrite (right_id_L ∅ (∪)).
  - rewrite IH, dom_insert_L.
    rewrite (comm_L (∪) {[qanta_id q]} (dom m)). by rewrite <- (assoc_L (∪)).
Qed.

(** C5. For a question whose annotated page and automatic page are both
    there and differ, the loop body records the result "disagree" with both
    pages under the identifier of the question and gives the question the
    annotated page: the question at its place in the list returned has the
    annotated page for page, not the automatic one, and is the question
    passed in otherwise. The record is the one of the report returned when
    no later question has the same identifier. *)
Theorem disagreement_takes_annotated_page answer_map qs1 q qs2 ap err au :
  maybe_assign (answer q) (text q) (qdb_id q) (proto_id q) = (Some ap, err) ->
  answer_map !! answer q = Some au ->
  ap <> au ->
  let entry :=
    {| result := "disagree"; annotated_error := err;
       automatic_error := None; annotated_page := Some ap;
       automatic_page := Some au |} in
  let r := unmapped_to_mapped_questions' (qs1 ++ q :: qs2) answer_map in
  (forall st,
     reconcile_question' answer_map st q
     = {| questions := questions st ++ [set_page q ap];
          train_unmatched := train_unmatched st;
          test_unmatched := test_unmatched st;
          match_report := <[qanta_id q := entry]> (match_report st) |}) /\
  questions r !! List.length qs1 = Some (set_page q ap) /\
  (exists q', questions r !! List.length qs1 = Some q' /\
     page q' = Some ap /\ page q' <> Some au /\
     qanta_id q' = qanta_id q /\ text q' = text q /\
     answer q' = answer q /\ fold q' = fold q /\
     proto_id q' = proto_id q /\ qdb_id q' = qdb_id q) /\
  (q ∉ train_unmatched r) /\ (q ∉ test_unmatched r) /\
  ((forall q', q' ∈ qs2 -> qanta_id q' <> qanta_id q) ->
   match_report r !! qanta_id q = Some entry).
Proof.
  intros Hann Hauto Hne entry r.
  assert (Haudit : audit_of' answer_map q = entry).
  { unfold audit_of, annotation_of. rewrite Hann, Hauto. simpl.
    by rewrite bool_decide_eq_false_2. }
  assert (Hassigned : assigned' answer_map q = set_page q ap).
  { unfold assigned, annotation_of. rewrite Hann, Hauto. simpl.
    by rewrite bool_decide_eq_false_2. }
  assert (Hmatched : ~ unmatched maybe_assign answer_map q).
  { unfold unmatched, annotation_of. rewrite Hann. by intros [? _]. }
  assert (Hat : questions r !! List.length qs1 = Some (set_page q ap)).
  { unfold r, unmapped_to_mapped_questions. rewrite reconcile_fold_parts.
    simpl. rewrite fmap_app, fmap_cons, Hassigned.
    rewrite list_lookup_middle; [done |]. by rewrite length_fmap. }
  split; [| split; [| split; [| split; [| split]]]].
  - intros st. rewrite reconcile_question_parts, Haudit, Hassigned.
    rewrite !filter_cons, !filter_nil.
    rewrite !decide_False by (intros [? _]; done).
    by rewrite !app_nil_r.
  - exact Hat.
  - exists (set_page q ap). split; [exact Hat |]. unfold set_page. simpl.
    split; [done |]. split; [| done]. intros [= Heq]. by apply Hne.
  - unfold r, unmapped_to_mapped_questions. rewrite reconcile_fold_parts.
    simpl. intros [[? _] _]%list_elem_of_filter. done.
  - unfold r, unmapped_to_mapped_questions. rewrite reconcile_fold_parts.
    simpl. intros [[? _] _]%list_elem_of_filter. done.
  - intros Hlast. unfold r, unmapped_to_mapped_questions.
    rewrite reconcile_fold_parts. simpl.
    by rewrite report_of_last, Haudit.
Qed.

(** C6. On questions with distinct identifiers the report has one record
    for each question, under its identifier and with its two pages, and no
    other record; and a question with neither page is once in
    [train_unmatched] and not in [test_unmatched] when its fold is a
    training fold, and once in [test_unmatched] and not in
    [train_unmatched] when it is not. *)
Theorem one_audit_record_per_question answer_map qs :
  NoDup (qanta_id <$> qs) ->
  let r := unmapped_to_mapped_questions' qs answer_map in
  size (match_report r) = List.length qs /\
  dom (match_report r) = list_to_set (qanta_id <$> qs) /\
  (forall q, q ∈ qs ->
     exists e, match_report r !! qanta_id q = Some e /\
       annotated_page e
       = (maybe_assign (answer q) (text q) (qdb_id q) (proto_id q)).1 /\
       automatic_page e = answer_map !! answer q) /\
  (forall q, q ∈ qs ->
     (maybe_assign (answer q) (text q) (qdb_id q) (proto_id q)).1 = None ->
     answer_map !! answer q = None ->
     if is_train_fold' (fold q)
     then count_occ question_eq_dec (train_unmatched r) q = 1
          /\ count_occ question_eq_dec (test_unmatched r) q = 0
     else count_occ question_eq_dec (train_unmatched r) q = 0
          /\ count_occ question_eq_dec (test_unmatched r) q = 1).
Proof.
  intros Hids r.
  assert (Hnd : NoDup qs) by by apply NoDup_fmap_1 in Hids.
  unfold r, unmapped_to_mapped_questions. rewrite reconcile_fold_parts.
  simpl. split; [| split; [| split]].
  - rewrite <- size_dom, report_dom, dom_empty_L, (left_id_L ∅ (∪)).
    by rewrite size_list_to_set, length_fmap.
  - by rewrite report_dom, dom_empty_L, (left_id_L ∅ (∪)).
  - intros q Hq. exists (audit_of' answer_map q). split; [| done].
    apply list_elem_of_split in Hq as (qs1 & qs2 & ->).
    apply report_of_last. intros q' Hq' Heq.
    rewrite fmap_app, fmap_cons in Hids.
    apply NoDup_app in Hids as (_ & _ & Hids).
    apply NoDup_cons in Hids as [Hids _]. apply Hids.
    rewrite <- Heq. by apply list_elem_of_fmap_2.
  - intros q Hq Hann Hauto.
    assert (Hun : unmatched maybe_assign answer_map q) by done.
    assert (Hin : forall (P : question -> Prop) `{!forall x, Decision (P x)},
      P q -> count_occ question_eq_dec (filter P qs) q = 1).
    { intros P HP HPq.
      apply (proj1 (NoDup_count_occ' question_eq_dec (filter P qs)));
        [by apply NoDup_ListNoDup, NoDup_filter |].
      apply list_elem_of_In. by apply list_elem_of_filter. }
    assert (Hout : forall (P : question -> Prop) `{!forall x, Decision (P x)},
      ~ P q -> count_occ question_eq_dec (filter P qs) q = 0).
    { intros P HP HPq. apply count_occ_not_In.
      intros [? _]%list_elem_of_In%list_elem_of_filter. done. }
    destruct (is_train_fold' (fold q)) eqn:Hf.
    + split; [by apply Hin | apply Hout]. intros [_ Hf']. congruence.
    + split; [apply Hout | by apply Hin]. intros [_ Hf']. congruence.
Qed.

End ReconciliationFacts.

Lemma disagreement_takes_annotated_page_witness :
  let entry :=
    {| result := "disagree"; annotated_error := None;
       automatic_error := None; annotated_page := Some "Paris";
       automatic_page := Some "France" |} in
  let r :=
    unmapped_to_mapped_questions paris_assigner guesser_train_fold
      buzzer_train_fold ([unknown_question] ++ paris_question :: [])
      france_answer_map in
  (forall st,
     reconcile_question paris_assigner guesser_train_fold buzzer_train_fold
       france_answer_map st paris_question
     = {| questions := questions st ++ [set_page paris_question "Paris"];
          train_unmatched := train_unmatched st;
          test_unmatched := test_unmatched st;
          match_report := <[qanta_id paris_question := entry]> (match_report st) |}) /\
  questions r !! List.length [unknown_question]
  = Some (set_page paris_question "Paris") /\
  (exists q', questions r !! List.length [unknown_question] = Some q' /\
     page q' = Some "Paris" /\ page q' <> Some "France" /\
     qanta_id q' = qanta_id paris_question /\
     text q' = text paris_question /\
     answer q' = answer paris_question /\ fold q' = fold paris_question /\
     proto_id q' = proto_id paris_question /\
     qdb_id q' = qdb_id paris_question) /\
  (paris_question ∉ train_unmatched r) /\
  (paris_question ∉ test_unmatched r) /\
  ((forall q', q' ∈ [] -> qanta_id q' <> qanta_id paris_question) ->
   match_report r !! qanta_id paris_question = Some entry).
Proof.
  apply (disagreement_takes_annotated_page paris_assigner guesser_train_fold
           buzzer_train_fold france_answer_map [unknown_question]
           paris_question [] "Paris" None "France").
  - reflexivity.
  - reflexivity.
  - discriminate.
Defined.

Lemma one_audit_record_per_question_witness :
  let r :=
    unmapped_to_mapped_questions paris_assigner guesser_train_fold
      buzzer_train_fold [unknown_question; paris_question]
      france_answer_map in
  size (match_report r) = 2 /\
  count_occ question_eq_dec (train_unmatched r) unknown_question = 1 /\
  count_occ question_eq_dec (test_unmatched r) unknown_question = 0.
Proof.
  destruct (one_audit_record_per_question paris_assigner guesser_train_fold
              buzzer_train_fold france_answer_map
              [unknown_question; paris_question])
    as (Hsize & _ & _ & Hunmatched).
  - apply (bool_decide_unpack (NoDup _)). vm_compute. exact I.
  - split; [exact Hsize |].
    apply (Hunmatched unknown_question); [| reflexivity | reflexivity].
    constructor.
Defined.

Example reconciliation_ex :
  let r :=
    unmapped_to_mapped_questions paris_assigner guesser_train_fold
      buzzer_train_fold [unknown_question; paris_question]
      france_answer_map in
  questions r = [unknown_question; set_page paris_question "Paris"] /\
  train_unmatched r = [unknown_question] /\ test_unmatched r = [].
Proof. vm_compute. repeat split. Qed.

(** ** The expansion map, answer by answer *)

Lemma edict_lookup_add_eq k x d :
  edict_lookup k (edict_add k x d) = set_add x (edict_lookup k d).
Proof.
  induction d as [| [k' xs] d IH]; simpl.
  - by rewrite bool_decide_eq_true_2.
  - destruct (decide (k = k')) as [-> | Hne].
    + rewrite bool_decide_eq_true_2 by done. simpl.
      by rewrite !bool_decide_eq_true_2.
    + rewrite bool_decide_eq_false_2 by done. simpl.
      by rewrite !bool_decide_eq_false_2.
Qed.

Lemma edict_lookup_add_ne k o x d :
  o <> k -> edict_lookup o (edict_add k x d) = edict_lookup o d.
Proof.
  intros Hne. induction d as [| [k' xs] d IH]; simpl.
  - by rewrite bool_decide_eq_false_2.
  - case_bool_decide as Hk; simpl.
    + subst k'. by rewrite !bool_decide_eq_false_2.
    + by rewrite IH.
Qed.

Lemma edict_add_keys k x d : (edict_add k x d).*1 = set_add k d.*1.
Proof.
  induction d as [| [k' xs] d IH]; [done |].
  cbn [edict_add]. destruct (decide (k = k')) as [-> | Hne].
  - rewrite bool_decide_eq_true_2 by done. rewrite !fmap_cons. cbn [fst].
    unfold set_add. rewrite bool_decide_eq_true_2; [done |].
    apply elem_of_cons. by left.
  - rewrite bool_decide_eq_false_2 by done. rewrite !fmap_cons, IH. cbn [fst].
    unfold set_add. case_bool_decide as Hin.
    + rewrite bool_decide_eq_true_2; [done |]. apply elem_of_cons. by right.
    + rewrite bool_decide_eq_false_2; [done |].
      intros [? | ?]%elem_of_cons; done.
Qed.

Lemma edict_entry d o e :
  NoDup d.*1 -> (o, e) ∈ d -> e = edict_lookup o d.
Proof.
  induction d as [| [k xs] d IH]; intros Hnd Hin; simpl.
  - by apply elem_of_nil in Hin.
  - simpl in Hnd. apply NoDup_cons in Hnd as [Hk Hnd].
    apply elem_of_cons in Hin as [[= -> ->] | Hin].
    + by rewrite bool_decide_eq_true_2.
    + rewrite bool_decide_eq_false_2; [by apply IH |].
      intros ->. apply Hk. apply list_elem_of_fmap. by exists (k, e).
Qed.

Lemma edict_lookup_entry d o : o ∈ d.*1 -> (o, edict_lookup o d) ∈ d.
Proof.
  induction d as [| [k xs] d IH]; simpl; intros Hin.
  - by apply elem_of_nil in Hin.
  - case_bool_decide as Hk.
    + subst k. apply elem_of_cons. by left.
    + apply elem_of_cons in Hin as [? | Hin]; [done |].
      apply elem_of_cons. right. by apply IH.
Qed.

Lemma edict_adds_app ops1 ops2 d :
  edict_adds (ops1 ++ ops2) d = edict_adds ops2 (edict_adds ops1 d).
Proof. unfold edict_adds. by rewrite fold_left_app. Qed.

Lemma edict_adds_keys ops d :
  (edict_adds ops d).*1 = fold_left (fun s x => set_add x s) ops.*1 d.*1.
Proof.
  revert d. induction ops as [| [k x] ops IH]; intros d; simpl; [done |].
  unfold edict_adds in *. simpl. by rewrite IH, edict_add_keys.
Qed.

Lemma edict_adds_lookup a ops d :
  edict_lookup a (edict_adds ops d)
  = fold_left (fun s x => set_add x s)
      (filter (fun op => op.1 = a) ops).*2 (edict_lookup a d).
Proof.
  revert d. induction ops as [| [k x] ops IH]; intros d; [done |].
  unfold edict_adds in *. cbn [fold_left]. rewrite IH, filter_cons. simpl.
  destruct (decide (k = a)) as [-> | Hne]; simpl.
  - by rewrite edict_lookup_add_eq.
  - by rewrite edict_lookup_add_ne.
Qed.

Lemma seed_expansions_adds answers :
  seed_expansions answers = edict_adds (seed_ops answers) [].
Proof.
  unfold seed_expansions, edict_adds, seed_ops.
  generalize ([] : list (string * list string)).
  induction answers as [| a answers IH]; intros d; simpl; [done |].
  by rewrite IH.
Qed.

Lemma expand_rule_adds rule_func answers d :
  expand_rule rule_func answers d = edict_adds (rule_ops rule_func answers) d.
Proof.
  unfold expand_rule, rule_ops. revert d.
  induction answers as [| a answers IH]; intros d; simpl; [done |].
  rewrite edict_adds_app, IH. f_equal.
  unfold edict_adds. generalize (rule_func a). clear. intros es. revert d.
  induction es as [| e es IH]; intros d; simpl; [done |]. by rewrite IH.
Qed.

Lemma expand_rules_adds expansion_rules answers d :
  expand_rules expansion_rules answers d
  = edict_adds (rules_ops expansion_rules answers) d.
Proof.
  unfold expand_rules, rules_ops. revert d.
  induction expansion_rules as [| rule rules IH]; intros d; simpl; [done |].
  by rewrite edict_adds_app, IH, expand_rule_adds.
Qed.

Lemma filter_eq_NoDup (a : string) (l : list string) :
  NoDup l -> a ∈ l -> filter (fun x => x = a) l = [a].
Proof.
  induction l as [| x l IH]; intros Hnd Hin.
  - by apply elem_of_nil in Hin.
  - apply NoDup_cons in Hnd as [Hx Hnd]. rewrite filter_cons.
    destruct (decide (x = a)) as [-> | Hne].
    + f_equal. clear IH Hin Hnd. induction l as [| y l IH]; [done |].
      rewrite filter_cons. rewrite decide_False.
      * apply IH. intros Hin. apply Hx, elem_of_cons. by right.
      * intros ->. apply Hx, elem_of_cons. by left.
    + apply IH; [done |]. by apply elem_of_cons in Hin as [-> | Hin].
Qed.

Lemma seed_ops_for a answers :
  (filter (fun op => op.1 = a) (seed_ops answers)).*2
  = filter (fun x => x = a) answers.
Proof.
  unfold seed_ops. induction answers as [| x answers IH]; [done |].
  rewrite fmap_cons, filter_cons. cbn [fst]. rewrite (filter_cons _ x answers).
  destruct (decide (x = a)); [rewrite fmap_cons; cbn [snd] |]; by rewrite IH.
Qed.

Lemma rule_ops_for a rule_func answers :
  (filter (fun op => op.1 = a) (rule_ops rule_func answers)).*2
  = flat_map (fun raw_ans => PyStr.strip <$> rule_func raw_ans)
      (filter (fun x => x = a) answers).
Proof.
  unfold rule_ops. induction answers as [| x answers IH]; [done |].
  cbn [flat_map]. rewrite filter_app, fmap_app, IH, filter_cons.
  assert (Hx : (filter (fun op : string * string => op.1 = a)
                  ((fun e => (x, PyStr.strip e)) <$> rule_func x)).*2
               = if decide (x = a) then PyStr.strip <$> rule_func x else []).
  { generalize (rule_func x). intros es.
    induction es as [| e es IHes]; [by destruct (decide (x = a)) |].
    rewrite fmap_cons, filter_cons. cbn [fst].
    destruct (decide (x = a)); [rewrite !fmap_cons; cbn [snd] |];
      by rewrite IHes. }
  rewrite Hx. by destruct (decide (x = a)).
Qed.

Lemma rules_ops_for a expansion_rules answers :
  NoDup answers -> a ∈ answers ->
  (filter (fun op => op.1 = a) (rules_ops expansion_rules answers)).*2
  = flat_map (fun rule => PyStr.strip <$> snd rule a) expansion_rules.
Proof.
  intros Hnd Hin. unfold rules_ops.
  induction expansion_rules as [| rule rules IH]; [done |].
  cbn [flat_map]. rewrite filter_app, fmap_app, IH, rule_ops_for.
  rewrite filter_eq_NoDup by done. simpl. by rewrite app_nil_r.
Qed.

Lemma rule_ops_keys rule_func answers k :
  k ∈ (rule_ops rule_func answers).*1 -> k ∈ answers.
Proof.
  unfold rule_ops. induction answers as [| x answers IH]; [done |].
  cbn [flat_map]. rewrite fmap_app, elem_of_app, elem_of_cons.
  intros [Hk | Hk]; [left | right; by apply IH].
  apply list_elem_of_fmap in Hk as ([k' c] & -> & Hin).
  by apply list_elem_of_fmap in Hin as (e & [= -> _] & _).
Qed.

Section ExpansionFacts.

Context {O : PySetOrder}.

Lemma expansion_map_adds expansion_rules elements :
  expansion_map expansion_rules elements
  = edict_adds (seed_ops (set_iter elements)
                ++ rules_ops expansion_rules (set_iter elements)) [].
Proof.
  unfold expansion_map.
  by rewrite expand_rules_adds, seed_expansions_adds, edict_adds_app.
Qed.

Lemma expansion_map_NoDup expansion_rules elements :
  NoDup (expansion_map expansion_rules elements).*1.
Proof.
  rewrite expansion_map_adds, edict_adds_keys.
  apply set_of_from_NoDup. apply NoDup_nil_2.
Qed.

Lemma expansion_map_has_key expansion_rules elements a :
  a ∈ (expansion_map expansion_rules elements).*1 <-> a ∈ elements.
Proof.
  rewrite expansion_map_adds, edict_adds_keys, set_of_from_elem.
  rewrite fmap_app, elem_of_app.
  assert (Hseed : (seed_ops (set_iter elements)).*1 = set_iter elements).
  { unfold seed_ops. rewrite <- list_fmap_compose.
    induction (set_iter elements) as [| x l IH]; [done |].
    rewrite fmap_cons. simpl. by rewrite IH. }
  rewrite Hseed. split.
  - intros [[Hin | Hin] | Hin];
      [by apply set_iter_elem | | by apply elem_of_nil in Hin].
    apply set_iter_elem. unfold rules_ops in Hin.
    induction expansion_rules as [| rule rules IH];
      [by apply elem_of_nil in Hin |].
    cbn [flat_map] in Hin. rewrite fmap_app, elem_of_app in Hin.
    destruct Hin as [Hin | Hin]; [by apply rule_ops_keys in Hin | by apply IH].
  - intros Hin. left. left. by apply set_iter_elem.
Qed.

Lemma expansion_map_lookup expansion_rules elements a :
  NoDup elements -> a ∈ elements ->
  edict_lookup a (expansion_map expansion_rules elements)
  = candidates_of expansion_rules a.
Proof.
  intros Hnd Hin.
  assert (Hnd' : NoDup (set_iter elements)) by by rewrite set_iter_perm.
  assert (Hin' : a ∈ set_iter elements) by by apply set_iter_elem.
  rewrite expansion_map_adds, edict_adds_lookup, filter_app, fmap_app.
  rewrite seed_ops_for, rules_ops_for, filter_eq_NoDup by done.
  reflexivity.
Qed.

End ExpansionFacts.

(** ** The answer map, answer by answer *)

Lemma last_hit_cases ix rule_func cands t :
  (last_hit ix rule_func cands t = t /\
   forall raw, raw ∈ cands -> misses ix rule_func raw)
  \/
  (exists m raw r, raw ∈ cands /\ rule_func raw = Some r /\
     lookup_candidate ix (format_candidate r) = Some m /\
     last_hit ix rule_func cands t = Some m).
Proof.
  revert t. induction cands as [| raw rest IH]; intros t; simpl.
  - left. split; [done |]. intros raw Hraw. by apply elem_of_nil in Hraw.
  - match goal with
    | |- context [last_hit ix rule_func rest ?t'] =>
        destruct (IH t') as [[Heq Hmiss] | (m & raw' & r & Hin & Hr & Hm & Heq)]
    end.
    + rewrite Heq. destruct (rule_func raw) as [r |] eqn:Hr.
      * destruct (lookup_candidate ix (format_candidate r)) as [m |] eqn:Hm.
        -- right. exists m, raw, r. split; [apply elem_of_cons; by left |].
           done.
        -- left. split; [done |]. intros raw' [-> | Hin]%elem_of_cons;
             [| by apply Hmiss].
           intros r' Hr'. rewrite Hr in Hr'. by injection Hr' as <-.
      * left. split; [done |]. intros raw' [-> | Hin]%elem_of_cons;
          [| by apply Hmiss].
        intros r' Hr'. by rewrite Hr in Hr'.
    + right. exists m, raw', r. split; [apply elem_of_cons; by right |].
      done.
Qed.

Lemma match_expansions_title ix rule_func o cands am am' :
  match_expansions ix rule_func o cands am = Some am' ->
  am' !! o = last_hit ix rule_func cands (am !! o) /\
  forall k, k <> o -> am' !! k = am !! k.
Proof.
  revert am. induction cands as [| raw rest IH]; intros am H; simpl in H.
  - by injection H as <-.
  - destruct (match_candidate ix rule_func o raw am) as [am1 |] eqn:Hstep;
      [| done].
    apply IH in H as [Ho Hother].
    apply match_candidate_inv in Hstep as (r & Hr & Hstep).
    simpl. rewrite Hr.
    destruct (lookup_candidate ix (format_candidate r)) as [m |]; subst am1.
    + rewrite lookup_insert_eq in Ho. split; [done |].
      intros k Hk. rewrite Hother by done. by rewrite lookup_insert_ne.
    + done.
Qed.

Section TitleFacts.

Context {O : PySetOrder}.
Variable unidecode : string -> string.

Lemma match_answers_title ix rule_func items am am' a :
  NoDup items.*1 ->
  match_answers ix rule_func items am = Some am' ->
  am' !! a
  = if decide (a ∈ items.*1)
    then last_hit ix rule_func (set_iter (edict_lookup a items)) (am !! a)
    else am !! a.
Proof.
  clear unidecode.
  revert am. induction items as [| [o exps] rest IH]; intros am Hnd H.
  - simpl in H. injection H as <-. by rewrite decide_False by apply not_elem_of_nil.
  - rewrite fmap_cons in Hnd. cbn [fst] in Hnd.
    apply NoDup_cons in Hnd as [Ho Hnd]. simpl in H.
    destruct (match_expansions ix rule_func o (set_iter exps) am)
      as [am1 |] eqn:Hexp; [| done].
    apply match_expansions_title in Hexp as [Hat Hother].
    rewrite (IH am1 Hnd H). rewrite fmap_cons. cbn [fst edict_lookup].
    destruct (decide (a = o)) as [-> | Hne].
    + rewrite bool_decide_eq_true_2 by done.
      rewrite decide_False by done.
      rewrite decide_True by (apply elem_of_cons; by left). done.
    + rewrite bool_decide_eq_false_2 by done. rewrite Hother by done.
      destruct (decide (a ∈ rest.*1)) as [Hin | Hin].
      * by rewrite decide_True by (apply elem_of_cons; by right).
      * rewrite decide_False; [done |]. by intros [? | ?]%elem_of_cons.
Qed.

Lemma match_rules_loop_title ix items u match_rules am h am' h' a :
  NoDup items.*1 ->
  match_rules_loop ix items u match_rules am h = (Some am', h') ->
  am' !! a
  = if decide (a ∈ items.*1)
    then title_after ix match_rules (edict_lookup a items) (am !! a)
    else am !! a.
Proof.
  clear unidecode.
  intros Hnd. revert am h. induction match_rules as [| [name f] rest IH];
    intros am h H; simpl in H.
  - injection H as <- <-. by destruct (decide (a ∈ items.*1)).
  - apply bind_Some in H as (am1 & h1 & Hpass & H).
    apply match_rule_pass_inv in Hpass as [Hpass _].
    rewrite (IH _ _ H). rewrite (match_answers_title _ _ _ _ _ a Hnd Hpass).
    by destruct (decide (a ∈ items.*1)).
Qed.

(** The title of an answer after a run that returns. *)
Lemma run_title expansion_rules match_rules wiki_titles
    wiki_redirects_source l h passed am u h' a :
  h !! l = Some passed ->
  mapping_rules_to_answer_map unidecode expansion_rules match_rules
    wiki_titles wiki_redirects_source l h = (Some (am, u), h') ->
  am !! a
  = if decide (a ∈ passed)
    then title_after
           (build_lookups unidecode wiki_titles wiki_redirects_source)
           match_rules (candidates_of expansion_rules a) None
    else None.
Proof.
  intros Hl Hrun.
  rewrite (mapping_rules_run unidecode _ _ _ _ _ _ _ Hl) in Hrun.
  destruct (match_rules_loop _ _ _ _ _ _) as [[am0 |] h0] eqn:Hloop;
    [| done].
  injection Hrun as <- <- <-.
  rewrite (match_rules_loop_title _ _ _ _ _ _ _ _ a
             (expansion_map_NoDup _ _) Hloop).
  rewrite lookup_empty.
  destruct (decide (a ∈ passed)) as [Hin | Hin].
  - rewrite decide_True.
    + rewrite expansion_map_lookup; [done | apply set_of_NoDup |].
      by apply set_of_elem, set_iter_elem.
    + apply expansion_map_has_key. by apply set_of_elem, set_iter_elem.
  - rewrite decide_False; [done |].
    rewrite expansion_map_has_key, set_of_elem, set_iter_elem. done.
Qed.

Lemma found_for_lookup ix rule_func items a m :
  NoDup items.*1 ->
  found_for ix rule_func items a m <->
  a ∈ items.*1 /\
  exists raw r, raw ∈ edict_lookup a items /\ rule_func raw = Some r /\
    lookup_candidate ix (format_candidate r) = Some m.
Proof.
  intros Hnd. split.
  - intros (exps & raw & r & Hitem & Hraw & Hr & Hm).
    split; [apply list_elem_of_fmap; by exists (a, exps) |].
    exists raw, r. by rewrite <- (edict_entry items a exps Hnd Hitem).
  - intros (Ha & raw & r & Hraw & Hr & Hm).
    exists (edict_lookup a items), raw, r.
    split; [by apply edict_lookup_entry | done].
Qed.

Lemma title_after_cases ix match_rules cands t :
  (title_after ix match_rules cands t = t /\
   forall name f raw, (name, f) ∈ match_rules -> raw ∈ cands ->
     misses ix f raw)
  \/
  (exists rules1 name f rules2 m raw r,
     match_rules = rules1 ++ (name, f) :: rules2 /\
     raw ∈ cands /\ f raw = Some r /\
     lookup_candidate ix (format_candidate r) = Some m /\
     title_after ix match_rules cands t = Some m /\
     forall name' f' raw', (name', f') ∈ rules2 -> raw' ∈ cands ->
       misses ix f' raw').
Proof.
  clear unidecode.
  induction match_rules as [| [name f] rules IH] using rev_ind.
  - left. split; [done |]. intros name f raw Hin. by apply elem_of_nil in Hin.
  - unfold title_after in *. rewrite fold_left_app. cbn [fold_left snd].
    destruct (last_hit_cases ix f (set_iter cands)
                (fold_left (fun t rule => last_hit ix rule.2 (set_iter cands) t)
                   rules t))
      as [[Heq Hmiss] | (m & raw & r & Hraw & Hr & Hm & Heq)].
    + rewrite Heq.
      destruct IH as [[Heq' Hmiss']
                      | (r1 & n1 & f1 & r2 & m & raw & r & -> & Hraw & Hr & Hm
                         & Heq' & Hmiss')].
      * left. split; [done |]. intros name' f' raw' Hin Hraw'.
        apply elem_of_app in Hin as [Hin | Hin]; [by eapply Hmiss' |].
        apply list_elem_of_singleton in Hin. injection Hin as -> ->.
        by apply Hmiss, set_iter_elem.
      * right. exists r1, n1, f1, (r2 ++ [(name, f)]), m, raw, r.
        split; [by rewrite <- app_assoc |]. repeat (split; [done |]).
        intros name' f' raw' Hin Hraw'.
        apply elem_of_app in Hin as [Hin | Hin]; [by eapply Hmiss' |].
        apply list_elem_of_singleton in Hin. injection Hin as -> ->.
        by apply Hmiss, set_iter_elem.
    + right. exists rules, name, f, [], m, raw, r.
      split; [done |]. split; [by apply (proj1 (set_iter_elem cands raw)) |].
      repeat (split; [done |]).
      intros name' f' raw' Hin. by apply elem_of_nil in Hin.
Qed.

(** The answer map of a run that returns, in terms of what is found. *)
Lemma run_title_cases expansion_rules match_rules wiki_titles
    wiki_redirects_source l h passed am u h' a :
  h !! l = Some passed ->
  mapping_rules_to_answer_map unidecode expansion_rules match_rules
    wiki_titles wiki_redirects_source l h = (Some (am, u), h') ->
  let ix := build_lookups unidecode wiki_titles wiki_redirects_source in
  let items := expansion_map expansion_rules (set_of (set_iter passed)) in
  (am !! a = None /\
   forall name f m, (name, f) ∈ match_rules -> ~ found_for ix f items a m)
  \/
  (exists rules1 name f rules2 m,
     match_rules = rules1 ++ (name, f) :: rules2 /\
     found_for ix f items a m /\ am !! a = Some m /\
     forall name' f' m', (name', f') ∈ rules2 ->
       ~ found_for ix f' items a m').
Proof.
  intros Hl Hrun ix items.
  pose proof (expansion_map_NoDup expansion_rules (set_of (set_iter passed)))
    as Hnd. fold items in Hnd.
  assert (Hkey : a ∈ items.*1 <-> a ∈ passed).
  { unfold items. by rewrite expansion_map_has_key, set_of_elem, set_iter_elem. }
  rewrite (run_title _ _ _ _ _ _ _ _ _ _ a Hl Hrun).
  destruct (decide (a ∈ passed)) as [Hin | Hin].
  - assert (Hcands : edict_lookup a items = candidates_of expansion_rules a).
    { unfold items. apply expansion_map_lookup; [apply set_of_NoDup |].
      by apply set_of_elem, set_iter_elem. }
    assert (Hno : forall f, (forall raw, raw ∈ candidates_of expansion_rules a ->
                   misses ix f raw) -> forall m, ~ found_for ix f items a m).
    { intros f Hmiss m (_ & raw & r & Hraw & Hr & Hm)%found_for_lookup;
        [| done].
      rewrite Hcands in Hraw. by rewrite (Hmiss raw Hraw r Hr) in Hm. }
    destruct (title_after_cases ix match_rules
                (candidates_of expansion_rules a) None)
      as [[Heq Hmiss]
          | (r1 & name & f & r2 & m & raw & r & -> & Hraw & Hr & Hm & Heq
             & Hmiss)].
    + left. split; [done |]. intros name f m Hrule. apply Hno.
      intros raw Hraw. by eapply Hmiss.
    + right. exists r1, name, f, r2, m. split; [done |]. split.
      * apply found_for_lookup; [done |]. split; [by apply Hkey |].
        exists raw, r. by rewrite Hcands.
      * split; [done |]. intros name' f' m' Hrule. apply Hno.
        intros raw' Hraw'. by eapply Hmiss.
  - left. split; [done |].
    intros name f m _ (Ha & _)%found_for_lookup; [| done].
    by apply Hkey in Ha.
Qed.

End TitleFacts.

(** ** When the run returns *)

Lemma match_expansions_is_Some ix rule_func o cands am :
  is_Some (match_expansions ix rule_func o cands am) <->
  forall raw, raw ∈ cands -> is_Some (rule_func raw).
Proof.
  revert am. induction cands as [| raw rest IH]; intros am; simpl.
  - split; [| done]. intros _ raw Hraw. by apply elem_of_nil in Hraw.
  - unfold match_candidate. destruct (rule_func raw) as [r |] eqn:Hr.
    + destruct (lookup_candidate ix (format_candidate r)); rewrite IH;
        (split; [intros H raw' [-> | Hin]%elem_of_cons; [by rewrite Hr | by apply H]
                | intros H raw' Hin; apply H, elem_of_cons; by right]).
    + split; [by intros [? ?] |]. intros H. exfalso.
      destruct (H raw) as [r Hr']; [apply elem_of_cons; by left |].
      congruence.
Qed.

Section ReturnFacts.

Context {O : PySetOrder}.
Variable unidecode : string -> string.

Lemma match_answers_is_Some ix rule_func items am :
  is_Some (match_answers ix rule_func items am) <->
  forall o exps raw, (o, exps) ∈ items -> raw ∈ exps ->
    is_Some (rule_func raw).
Proof.
  clear unidecode.
  revert am. induction items as [| [o exps] rest IH]; intros am; simpl.
  - split; [| done]. intros _ o exps raw Hin. by apply elem_of_nil in Hin.
  - destruct (match_expansions ix rule_func o (set_iter exps) am)
      as [am1 |] eqn:Hexp.
    + assert (Hhere : forall raw, raw ∈ exps -> is_Some (rule_func raw)).
      { intros raw Hraw.
        apply (proj1 (match_expansions_is_Some ix rule_func o
                        (set_iter exps) am)); [by rewrite Hexp |].
        by apply set_iter_elem. }
      rewrite IH. split.
      * intros H o' exps' raw [[= -> ->] | Hin]%elem_of_cons;
          [apply Hhere | by apply (H o' exps')].
      * intros H o' exps' raw Hin. apply (H o' exps'), elem_of_cons. by right.
    + split; [by intros [? ?] |]. intros H. exfalso.
      assert (Hsome : is_Some (match_expansions ix rule_func o
                                 (set_iter exps) am)).
      { apply match_expansions_is_Some. intros raw Hraw.
        apply (proj1 (set_iter_elem exps raw)) in Hraw.
        apply (H o exps); [apply elem_of_cons; by left | done]. }
      rewrite Hexp in Hsome. by destruct Hsome.
Qed.

Lemma match_rules_loop_is_Some ix items u match_rules am h :
  is_Some (h !! u) ->
  (exists am' h', match_rules_loop ix items u match_rules am h = (Some am', h'))
  <->
  (forall name f o exps raw, (name, f) ∈ match_rules -> (o, exps) ∈ items ->
     raw ∈ exps -> is_Some (f raw)).
Proof.
  clear unidecode.
  revert am h. induction match_rules as [| [name f] rest IH];
    intros am h [s Hs]; simpl.
  - split; [| by eexists _, _]. intros _ name f o exps raw Hin.
    by apply elem_of_nil in Hin.
  - unfold bind at 1. unfold match_rule_pass, bind, lift, set_isub, ret.
    destruct (match_answers ix f items am) as [am1 |] eqn:Hans.
    + rewrite Hs. rewrite IH by (rewrite lookup_insert_eq; eauto).
      assert (Hhere : forall o exps raw, (o, exps) ∈ items -> raw ∈ exps ->
                is_Some (f raw)).
      { apply (match_answers_is_Some ix f items am). by rewrite Hans. }
      split.
      * intros H name' f' o exps raw [[= -> ->] | Hin]%elem_of_cons;
          [apply Hhere | by apply (H name' f' o exps)].
      * intros H name' f' o exps raw Hin.
        apply (H name' f' o exps), elem_of_cons. by right.
    + split; [by intros (? & ? & ?) |]. intros H. exfalso.
      assert (Hsome : is_Some (match_answers ix f items am)).
      { apply match_answers_is_Some. intros o exps raw.
        apply (H name f o exps). apply elem_of_cons. by left. }
      rewrite Hans in Hsome. by destruct Hsome.
Qed.

End ReturnFacts.

(** ** The mapping engine: further properties *)

Section EngineMore.

Context {O : PySetOrder}.
Variable unidecode : string -> string.

(** X1. The expansion map has one entry for each answer of the set and no
    other; the candidates of an answer are the answer itself and, stripped,
    what the expansion rules yield for it, and nothing else. *)
Theorem expansion_map_entries expansion_rules elements :
  NoDup elements ->
  NoDup (expansion_map expansion_rules elements).*1 /\
  (forall a, a ∈ (expansion_map expansion_rules elements).*1 <-> a ∈ elements)
  /\
  (forall a, a ∈ elements ->
     exists exps, (a, exps) ∈ expansion_map expansion_rules elements /\
       forall c, c ∈ exps <->
         c = a \/ exists name f e, (name, f) ∈ expansion_rules /\
                    e ∈ f a /\ c = PyStr.strip e).
Proof.
  clear unidecode.
  intros Hnd. split; [apply expansion_map_NoDup |].
  split; [intros a; apply expansion_map_has_key |].
  intros a Ha. exists (candidates_of expansion_rules a). split.
  - rewrite <- (expansion_map_lookup expansion_rules elements a Hnd Ha).
    apply edict_lookup_entry. by apply expansion_map_has_key.
  - intros c. unfold candidates_of. rewrite set_of_elem, elem_of_cons.
    apply or_iff_compat_l. rewrite list_elem_of_In, in_flat_map. split.
    + intros ([name f] & Hrule%list_elem_of_In & Hc%list_elem_of_In).
      apply list_elem_of_fmap in Hc as (e & -> & He). by exists name, f, e.
    + intros (name & f & e & Hrule & He & ->). exists (name, f).
      split; [by apply list_elem_of_In |]. apply list_elem_of_In.
      by apply list_elem_of_fmap_2.
Qed.

(** X2. After a run that returns, an answer is a key of the answer map
    exactly when some candidate of it is found in a table under some match
    rule of the list. *)
Theorem mapped_iff_found expansion_rules match_rules wiki_titles
    wiki_redirects_source l h passed am u h' :
  h !! l = Some passed ->
  mapping_rules_to_answer_map unidecode expansion_rules match_rules
    wiki_titles wiki_redirects_source l h = (Some (am, u), h') ->
  forall a,
    is_Some (am !! a) <->
    exists name f m, (name, f) ∈ match_rules /\
      found_for (build_lookups unidecode wiki_titles wiki_redirects_source) f
        (expansion_map expansion_rules (set_of (set_iter passed))) a m.
Proof.
  intros Hl Hrun a.
  destruct (run_title_cases unidecode _ _ _ _ _ _ _ _ _ _ a Hl Hrun)
    as [[Hnone Hno] | (r1 & name & f & r2 & m & -> & Hfound & Hsome & _)].
  - rewrite Hnone. split; [by intros [? ?] |].
    intros (name & f & m & Hrule & Hfound).
    by apply (Hno name f m Hrule) in Hfound.
  - rewrite Hsome. split; [| by eauto]. intros _. exists name, f, m.
    split; [| done]. apply elem_of_app. right. apply elem_of_cons. by left.
Qed.

(** X3. After a run that returns, the title of an answer is one found for
    a candidate of it under the last match rule of the list under which any
    candidate of it is found. *)
Theorem title_found_under_last_rule expansion_rules match_rules wiki_titles
    wiki_redirects_source l h passed am u h' a m :
  h !! l = Some passed ->
  mapping_rules_to_answer_map unidecode expansion_rules match_rules
    wiki_titles wiki_redirects_source l h = (Some (am, u), h') ->
  am !! a = Some m ->
  let ix := build_lookups unidecode wiki_titles wiki_redirects_source in
  let items := expansion_map expansion_rules (set_of (set_iter passed)) in
  exists rules1 name f rules2,
    match_rules = rules1 ++ (name, f) :: rules2 /\
    found_for ix f items a m /\
    forall name' f' m', (name', f') ∈ rules2 -> ~ found_for ix f' items a m'.
Proof.
  intros Hl Hrun Ha ix items.
  destruct (run_title_cases unidecode _ _ _ _ _ _ _ _ _ _ a Hl Hrun)
    as [[Hnone _] | (r1 & name & f & r2 & m' & Hrules & Hfound & Hsome & Hno)].
  - by rewrite Ha in Hnone.
  - rewrite Ha in Hsome. injection Hsome as <-. by exists r1, name, f, r2.
Qed.

(** X4. The title of an answer does not depend on the other answers of the
    set: two runs with the same rules, titles and redirects, on two sets that
    both hold the answer, give it the same title, or both none. *)
Theorem title_independent_of_other_answers expansion_rules match_rules
    wiki_titles wiki_redirects_source
    l1 h1 passed1 am1 u1 h1' l2 h2 passed2 am2 u2 h2' a :
  h1 !! l1 = Some passed1 ->
  h2 !! l2 = Some passed2 ->
  mapping_rules_to_answer_map unidecode expansion_rules match_rules
    wiki_titles wiki_redirects_source l1 h1 = (Some (am1, u1), h1') ->
  mapping_rules_to_answer_map unidecode expansion_rules match_rules
    wiki_titles wiki_redirects_source l2 h2 = (Some (am2, u2), h2') ->
  a ∈ passed1 -> a ∈ passed2 ->
  am1 !! a = am2 !! a.
Proof.
  intros Hl1 Hl2 Hrun1 Hrun2 Ha1 Ha2.
  rewrite (run_title unidecode _ _ _ _ _ _ _ _ _ _ a Hl1 Hrun1).
  rewrite (run_title unidecode _ _ _ _ _ _ _ _ _ _ a Hl2 Hrun2).
  by rewrite !decide_True.
Qed.

(** X5. With no match rule the answer map is empty and the set returned
    holds the answers passed in. On an empty set of answers the answer map is
    empty and the set returned empty, whatever the rules: no rule is applied,
    so that a run with rules that raise returns as well. *)
Theorem run_on_edge_inputs :
  (forall expansion_rules wiki_titles wiki_redirects_source l h passed,
     h !! l = Some passed ->
     exists s,
       mapping_rules_to_answer_map unidecode expansion_rules []
         wiki_titles wiki_redirects_source l h
       = (Some (∅, fresh (dom h)), <[fresh (dom h) := s]> h) /\
       NoDup s /\ forall x, x ∈ s <-> x ∈ passed)
  /\
  (forall expansion_rules match_rules wiki_titles wiki_redirects_source l h,
     h !! l = Some [] ->
     mapping_rules_to_answer_map unidecode expansion_rules match_rules
       wiki_titles wiki_redirects_source l h
     = (Some (∅, fresh (dom h)), <[fresh (dom h) := []]> h)).
Proof.
  split.
  - intros exp titles redirects l h passed Hl.
    exists (set_of (set_iter passed)).
    rewrite (mapping_rules_run unidecode _ _ _ _ _ _ _ Hl). simpl.
    split; [done |]. split; [apply set_of_NoDup |].
    intros x. by rewrite set_of_elem, set_iter_elem.
  - intros exp rules titles redirects l h Hl.
    rewrite (mapping_rules_run unidecode _ _ _ _ _ _ _ Hl).
    assert (Hiter : set_iter [] = []).
    { apply Permutation_nil_r. apply set_iter_perm. }
    rewrite Hiter. cbn [set_of fold_left].
    assert (Hmap : expansion_map exp [] = []).
    { unfold expansion_map. rewrite Hiter. unfold expand_rules.
      cbn [seed_expansions fold_left].
      induction exp as [| rule exp IH]; [done |]. simpl. exact IH. }
    rewrite Hmap.
    assert (Hloop : forall rules' (am : gmap string string),
      match_rules_loop (build_lookups unidecode titles redirects) []
        (fresh (dom h)) rules' am (<[fresh (dom h) := []]> h)
      = (Some am, <[fresh (dom h) := []]> h)).
    { induction rules' as [| [name f] rules' IH]; intros am; [done |].
      cbn [match_rules_loop]. unfold bind at 1.
      unfold match_rule_pass, bind, lift, set_isub, ret.
      cbn [match_answers]. rewrite lookup_insert_eq.
      rewrite filter_nil, insert_insert_eq. apply IH. }
    by rewrite Hloop.
Qed.

(** X6. A run on a store that has the caller's set returns exactly when
    every match rule of the list yields a string for every candidate of every
    answer; it raises as soon as one rule yields [None] for one candidate, in
    whatever pass and whether or not the answer has a title by then. *)
Theorem returns_iff_rules_defined expansion_rules match_rules wiki_titles
    wiki_redirects_source l h passed :
  h !! l = Some passed ->
  (exists am u h',
     mapping_rules_to_answer_map unidecode expansion_rules match_rules
       wiki_titles wiki_redirects_source l h = (Some (am, u), h'))
  <->
  (forall name f a exps raw,
     (name, f) ∈ match_rules ->
     (a, exps) ∈ expansion_map expansion_rules (set_of (set_iter passed)) ->
     raw ∈ exps -> is_Some (f raw)).
Proof.
  intros Hl. rewrite (mapping_rules_run unidecode _ _ _ _ _ _ _ Hl).
  rewrite <- (match_rules_loop_is_Some
                (build_lookups unidecode wiki_titles wiki_redirects_source)
                (expansion_map expansion_rules (set_of (set_iter passed)))
                (fresh (dom h)) match_rules ∅
                (<[fresh (dom h) := set_of (set_iter passed)]> h))
    by (rewrite lookup_insert_eq; eauto).
  destruct (match_rules_loop _ _ _ _ _ _) as [[am |] h0].
  - split; intros _; by eexists _, _; try eexists.
  - split; [by intros (? & ? & ? & ?) | by intros (? & ? & ?)].
Qed.

(** X7. The set returned is a new object, at a location the store did not
    have, and every set object the store had before the call holds after it
    what it held before, whether the call returns or raises. *)
Theorem existing_sets_unchanged expansion_rules match_rules wiki_titles
    wiki_redirects_source (l : loc) (h : gmap loc (list string)) :
  let out :=
    mapping_rules_to_answer_map unidecode expansion_rules match_rules
      wiki_titles wiki_redirects_source l h in
  (forall l', is_Some (h !! l') -> out.2 !! l' = h !! l') /\
  (forall am u, out.1 = Some (am, u) ->
     h !! u = None /\ is_Some (out.2 !! u)).
Proof.
  intros out. unfold out. destruct (h !! l) as [passed |] eqn:Hl.
  - rewrite (mapping_rules_run unidecode _ _ _ _ _ _ _ Hl).
    pose proof (match_rules_loop_frames
      (build_lookups unidecode wiki_titles wiki_redirects_source)
      (expansion_map expansion_rules (set_of (set_iter passed)))
      (fresh (dom h)) match_rules ∅) as Hframe.
    destruct (match_rules_loop _ _ _ _ _ _) as [[am |] h'] eqn:Hloop.
    + split.
      * intros l' Hl'. simpl.
        assert (Hne : l' <> fresh (dom h)) by by apply fresh_loc_ne.
        specialize (Hframe l' Hne
                      (<[fresh (dom h) := set_of (set_iter passed)]> h)).
        rewrite Hloop in Hframe. simpl in Hframe.
        by rewrite Hframe, lookup_insert_ne.
      * intros am' u [= <- <-]. split.
        -- apply not_elem_of_dom. apply is_fresh.
        -- simpl.
           apply match_rules_loop_store
             with (s := set_of (set_iter passed)) in Hloop
             as (_ & s' & Hs' & _); [by eauto | apply lookup_insert_eq].
    + split; [| by intros ? ? [=]].
      intros l' Hl'. simpl.
      assert (Hne : l' <> fresh (dom h)) by by apply fresh_loc_ne.
      specialize (Hframe l' Hne
                    (<[fresh (dom h) := set_of (set_iter passed)]> h)).
      rewrite Hloop in Hframe. simpl in Hframe.
      by rewrite Hframe, lookup_insert_ne.
  - rewrite mapping_rules_dangling by done. simpl.
    split; [done | by intros ? ? [=]].
Qed.

End EngineMore.

Lemma expansion_map_entries_witness :
  NoDup (expansion_map (O := insertion_order) [the_expansion_rule]
           ["beatles"; "zzz"]).*1 /\
  (forall a,
     a ∈ (expansion_map (O := insertion_order) [the_expansion_rule]
            ["beatles"; "zzz"]).*1 <-> a ∈ ["beatles"; "zzz"])
  /\
  (forall a, a ∈ ["beatles"; "zzz"] ->
     exists exps,
       (a, exps) ∈ expansion_map (O := insertion_order) [the_expansion_rule]
                     ["beatles"; "zzz"] /\
       forall c, c ∈ exps <->
         c = a \/ exists name f e, (name, f) ∈ [the_expansion_rule] /\
                    e ∈ f a /\ c = PyStr.strip e).
Proof.
  apply (expansion_map_entries (O := insertion_order)).
  apply (bool_decide_unpack (NoDup _)). vm_compute. exact I.
Defined.

Lemma mapped_iff_found_witness :
  is_Some (({["beatles" := "The Beatles"]} : gmap string string) !! "beatles")
  <->
  exists name f m, (name, f) ∈ [exact_match_rule] /\
    found_for
      (build_lookups (O := insertion_order) unidecode_ascii
         beatles_titles []) f
      (expansion_map (O := insertion_order) [the_expansion_rule]
         (set_of (set_iter (PySetOrder := insertion_order)
                    ["beatles"; "zzz"]))) "beatles" m.
Proof.
  apply (mapped_iff_found (O := insertion_order) unidecode_ascii
           [the_expansion_rule] [exact_match_rule] beatles_titles []
           0 (store_of ["beatles"; "zzz"]) ["beatles"; "zzz"]
           {["beatles" := "The Beatles"]} 1
           {[0 := ["beatles"; "zzz"]; 1 := ["zzz"]]}).
  - reflexivity.
  - vm_compute. reflexivity.
Defined.

Lemma title_found_under_last_rule_witness :
  exists rules1 name f rules2,
    [exact_match_rule; parens_match_rule] = rules1 ++ (name, f) :: rules2 /\
    found_for mercury_lookups f
      (expansion_map (O := insertion_order) []
         (set_of (set_iter (PySetOrder := insertion_order)
                    ["Mercury (planet)"])))
      "Mercury (planet)" "Mercury planet" /\
    forall name' f' m', (name', f') ∈ rules2 ->
      ~ found_for mercury_lookups f'
          (expansion_map (O := insertion_order) []
             (set_of (set_iter (PySetOrder := insertion_order)
                        ["Mercury (planet)"])))
          "Mercury (planet)" m'.
Proof.
  apply (title_found_under_last_rule (O := insertion_order) unidecode_ascii
           [] [exact_match_rule; parens_match_rule] mercury_titles []
           0 (store_of ["Mercury (planet)"]) ["Mercury (planet)"]
           {["Mercury (planet)" := "Mercury planet"]} 1
           {[0 := ["Mercury (planet)"]; 1 := []]}).
  - reflexivity.
  - vm_compute. reflexivity.
  - reflexivity.
Defined.

Lemma title_independent_of_other_answers_witness :
  ({["beatles" := "The Beatles"]} : gmap string string) !! "beatles"
  = ({["beatles" := "The Beatles"]} : gmap string string) !! "beatles".
Proof.
  apply (title_independent_of_other_answers (O := insertion_order)
           unidecode_ascii [the_expansion_rule] [exact_match_rule]
           beatles_titles []
           0 (store_of ["beatles"]) ["beatles"]
           {["beatles" := "The Beatles"]} 1 {[0 := ["beatles"]; 1 := []]}
           0 (store_of ["beatles"; "zzz"]) ["beatles"; "zzz"]
           {["beatles" := "The Beatles"]} 1
           {[0 := ["beatles"; "zzz"]; 1 := ["zzz"]]}).
  - reflexivity.
  - reflexivity.
  - vm_compute. reflexivity.
  - vm_compute. reflexivity.
  - constructor.
  - constructor.
Defined.

Lemma run_on_edge_inputs_witness :
  (exists s,
     mapping_rules_to_answer_map (O := insertion_order) unidecode_ascii
       [the_expansion_rule] [] beatles_titles [] 0 (store_of ["beatles"])
     = (Some (∅, fresh (dom (store_of ["beatles"]))),
        <[fresh (dom (store_of ["beatles"])) := s]> (store_of ["beatles"])) /\
     NoDup s /\ forall x, x ∈ s <-> x ∈ ["beatles"])
  /\
  mapping_rules_to_answer_map (O := insertion_order) unidecode_ascii
    [the_expansion_rule] [("undefined", fun _ => None)] beatles_titles []
    0 (store_of [])
  = (Some (∅, fresh (dom (store_of []))),
     <[fresh (dom (store_of [])) := []]> (store_of [])).
Proof.
  split.
  - apply (proj1 (run_on_edge_inputs (O := insertion_order) unidecode_ascii)).
    reflexivity.
  - apply (proj2 (run_on_edge_inputs (O := insertion_order) unidecode_ascii)).
    reflexivity.
Defined.

Lemma returns_iff_rules_defined_witness :
  (exists am u h',
     mapping_rules_to_answer_map (O := insertion_order) unidecode_ascii
       [the_expansion_rule] [exact_match_rule] beatles_titles []
       0 (store_of ["beatles"]) = (Some (am, u), h'))
  <->
  (forall name f a exps raw,
     (name, f) ∈ [exact_match_rule] ->
     (a, exps) ∈ expansion_map (O := insertion_order) [the_expansion_rule]
                   (set_of (set_iter (PySetOrder := insertion_order)
                              ["beatles"])) ->
     raw ∈ exps -> is_Some (f raw)).
Proof.
  apply (returns_iff_rules_defined (O := insertion_order) unidecode_ascii).
  reflexivity.
Defined.

Lemma existing_sets_unchanged_witness :
  (mapping_rules_to_answer_map (O := insertion_order) unidecode_ascii
     [the_expansion_rule] [exact_match_rule] beatles_titles []
     0 (store_of ["beatles"])).2 !! 0
  = store_of ["beatles"] !! 0
  /\ store_of ["beatles"] !! 1 = None.
Proof.
  destruct (existing_sets_unchanged (O := insertion_order) unidecode_ascii
              [the_expansion_rule] [exact_match_rule] beatles_titles []
              0 (store_of ["beatles"])) as [Hkept Hnew].
  split.
  - apply Hkept. vm_compute. eauto.
  - apply (Hnew {["beatles" := "The Beatles"]} 1). vm_compute. reflexivity.
Defined.

(** ** More of the string primitives *)

Lemma prefix_char c a s :
  String.prefix (char_string c) (String a s) = bool_decide (c = a).
Proof.
  unfold char_string. simpl. destruct (ascii_dec c a) as [-> | Hne].
  - rewrite bool_decide_eq_true_2 by done. by destruct s.
  - by rewrite bool_decide_eq_false_2.
Qed.

Lemma contains_char c s :
  PyStr.contains (char_string c) s = true <->
  exists s1 s2, s = s1 +:+ String c s2.
Proof.
  induction s as [| a s IH].
  - simpl. split; [done |]. intros (s1 & s2 & H). by destruct s1.
  - cbn [PyStr.contains]. rewrite prefix_char, orb_true_iff, IH. split.
    + intros [Hc%bool_decide_eq_true | (s1 & s2 & ->)].
      * subst a. by exists "", s.
      * by exists (String a s1), s2.
    + intros (s1 & s2 & H). destruct s1 as [| b s1]; simpl in H.
      * injection H as -> ->. left. by apply bool_decide_eq_true.
      * injection H as -> ->. right. by exists s1, s2.
Qed.

Lemma replace_char_remove c s :
  PyStr.replace s (char_string c) ""
  = PyStr.remove_chars (fun x => bool_decide (x = c)) s.
Proof.
  unfold PyStr.replace, char_string.
  induction s as [| a s IH]; [done |].
  cbn [PyStr.replace_from PyStr.remove_chars String.length Nat.sub].
  fold (char_string c). rewrite prefix_char. unfold char_string.
  destruct (decide (c = a)) as [-> | Hne].
  - rewrite !bool_decide_eq_true_2 by done. by rewrite IH.
  - rewrite !bool_decide_eq_false_2 by done. by rewrite IH.
Qed.

Lemma remove_chars_twice cls1 cls2 s :
  PyStr.remove_chars cls2 (PyStr.remove_chars cls1 s)
  = PyStr.remove_chars (fun c => cls1 c || cls2 c) s.
Proof.
  induction s as [| a s IH]; [done |]. simpl.
  destruct (cls1 a); simpl; [done |]. destruct (cls2 a); by rewrite IH.
Qed.

Lemma remove_chars_ext cls1 cls2 s :
  (forall c, cls1 c = cls2 c) ->
  PyStr.remove_chars cls1 s = PyStr.remove_chars cls2 s.
Proof.
  intros H. induction s as [| a s IH]; [done |]. simpl.
  by rewrite H, IH.
Qed.

Lemma remove_chars_comm cls1 cls2 s :
  PyStr.remove_chars cls2 (PyStr.remove_chars cls1 s)
  = PyStr.remove_chars cls1 (PyStr.remove_chars cls2 s).
Proof.
  rewrite !remove_chars_twice. apply remove_chars_ext.
  intros c. apply orb_comm.
Qed.

Lemma remove_chars_idem cls s :
  PyStr.remove_chars cls (PyStr.remove_chars cls s) = PyStr.remove_chars cls s.
Proof.
  rewrite remove_chars_twice. apply remove_chars_ext.
  intros c. apply orb_diag.
Qed.

Lemma remove_chars_gone cls c s :
  cls c = true ->
  PyStr.contains (char_string c) (PyStr.remove_chars cls s) = false.
Proof.
  intros Hc. induction s as [| a s IH]; [done |]. simpl.
  destruct (cls a) eqn:Ha; [done |].
  cbn [PyStr.contains]. rewrite prefix_char, IH, orb_false_r.
  apply bool_decide_eq_false. intros ->. congruence.
Qed.

Lemma replace_absent old new s :
  old <> "" -> PyStr.contains old s = false -> PyStr.replace s old new = s.
Proof.
  intros Hold. unfold PyStr.replace. destruct old as [| o old]; [done |].
  induction s as [| a s IH]; [done |].
  cbn [PyStr.contains PyStr.replace_from]. intros [Hp Hc]%orb_false_iff.
  by rewrite Hp, IH.
Qed.

Lemma lower_app s1 s2 :
  PyStr.lower (s1 +:+ s2) = PyStr.lower s1 +:+ PyStr.lower s2.
Proof. induction s1 as [| a s1 IH]; simpl; [done | by rewrite IH]. Qed.

Lemma lower_replace_from old new k s :
  PyStr.lower s = s -> PyStr.lower new = new ->
  PyStr.lower (PyStr.replace_from old new k s) = PyStr.replace_from old new k s.
Proof.
  intros Hs Hnew. revert k Hs. induction s as [| a s IH]; intros k Hs;
    [done |].
  simpl in Hs. injection Hs as Ha Hs. cbn [PyStr.replace_from].
  destruct k as [| k]; [| by apply IH].
  destruct (String.prefix old (String a s)).
  - rewrite lower_app, Hnew. by rewrite IH.
  - simpl. by rewrite Ha, IH.
Qed.

Lemma lower_replace s old :
  old <> "" ->
  PyStr.lower (PyStr.replace (PyStr.lower s) old "")
  = PyStr.replace (PyStr.lower s) old "".
Proof.
  intros Hold. unfold PyStr.replace. destruct old; [done |].
  apply lower_replace_from; [apply lower_idem | done].
Qed.

(** ** The rule functions: further properties *)

(** X8. The expansion rule ['parens'] yields a candidate exactly when the
    answer has both an opening and a closing parenthesis, and the candidate is
    what the match rule ['parens'] makes of the answer: it has no parenthesis
    left and [remove_parens] leaves it as it is. *)
Theorem parens_rule_is_remove_parens ans :
  parens_rule ans
  = (if PyStr.contains "(" ans && PyStr.contains ")" ans
     then [remove_parens ans] else [])
  /\
  (forall c, c ∈ parens_rule ans ->
     PyStr.contains "(" c = false /\ PyStr.contains ")" c = false /\
     remove_parens c = c).
Proof.
  assert (Heq : PyStr.replace (PyStr.replace ans "(" "") ")" ""
                = remove_parens ans).
  { change "(" with (char_string "(") at 1. change ")" with (char_string ")").
    rewrite !replace_char_remove, remove_chars_twice. unfold remove_parens.
    apply remove_chars_ext. intros c. done. }
  unfold parens_rule. rewrite Heq. split; [done |].
  destruct (PyStr.contains "(" ans && PyStr.contains ")" ans).
  - intros c ->%list_elem_of_singleton. unfold remove_parens.
    split; [| split].
    + by apply (remove_chars_gone _ "(").
    + by apply (remove_chars_gone _ ")").
    + apply remove_chars_idem.
  - intros c Hc. by apply elem_of_nil in Hc.
Qed.

Lemma parens_rule_is_remove_parens_witness :
  PyStr.contains "(" "Mercury planet" = false /\
  PyStr.contains ")" "Mercury planet" = false /\
  remove_parens "Mercury planet" = "Mercury planet".
Proof.
  apply (proj2 (parens_rule_is_remove_parens "Mercury (planet)")).
  vm_compute. constructor.
Defined.

(** X9. [remove_braces] and [remove_quotes] commute, so that the rule
    ['braces+quotes'] is the same function in either order of composition;
    the composed function leaves no brace and no straight quote, and applying
    it again changes nothing. The same holds of each of [remove_braces],
    [remove_quotes] and [remove_parens] alone. *)
Theorem braces_quotes_order_immaterial text :
  let both := compose [remove_braces; remove_quotes] in
  both text = compose [remove_quotes; remove_braces] text /\
  both (both text) = both text /\
  PyStr.contains "{" (both text) = false /\
  PyStr.contains "}" (both text) = false /\
  PyStr.contains (char_string "034") (both text) = false /\
  remove_braces (remove_braces text) = remove_braces text /\
  remove_quotes (remove_quotes text) = remove_quotes text /\
  remove_parens (remove_parens text) = remove_parens text.
Proof.
  unfold compose, remove_braces, remove_quotes, remove_parens.
  cbn [fold_left]. split; [apply remove_chars_comm |].
  split.
  { rewrite !remove_chars_twice. apply remove_chars_ext. intros c.
    by destruct (bool_decide (c = "{"%char) || bool_decide (c = "}"%char)),
                (bool_decide (c = "034"%char)). }
  rewrite remove_chars_twice.
  split; [by apply (remove_chars_gone _ "{") |].
  split; [by apply (remove_chars_gone _ "}") |].
  split; [by apply remove_chars_gone |].
  by rewrite !remove_chars_idem.
Qed.

(** X10. Every candidate that the rules ['the'], ['sir'] and ['answer']
    yield is lower-cased: lower-casing it again changes nothing. *)
Theorem rule_candidates_lower_cased ans c :
  c ∈ the_rule ans ++ sir_rule ans ++ answer_rule ans ->
  PyStr.lower c = c.
Proof.
  rewrite !elem_of_app. unfold the_rule, sir_rule, answer_rule.
  intros [Hc | [Hc | Hc]].
  - destruct (PyStr.contains "the" (PyStr.lower ans));
      apply list_elem_of_singleton in Hc; subst c.
    + by apply lower_replace.
    + by rewrite lower_app, !lower_idem.
  - destruct (PyStr.contains "sir" (PyStr.lower ans));
      [| by apply elem_of_nil in Hc].
    apply list_elem_of_singleton in Hc. subst c. by apply lower_replace.
  - destruct (PyStr.contains "answers:" (PyStr.lower ans)).
    { apply list_elem_of_singleton in Hc. subst c. by apply lower_replace. }
    destruct (PyStr.contains "answer:" (PyStr.lower ans));
      [| by apply elem_of_nil in Hc].
    apply list_elem_of_singleton in Hc. subst c. by apply lower_replace.
Qed.

Lemma rule_candidates_lower_cased_witness :
  PyStr.lower " isaac newton" = " isaac newton".
Proof.
  apply (rule_candidates_lower_cased "Sir Isaac Newton").
  vm_compute. right. left.
Defined.

(** X11. [try_match] gives the title stored under the text itself when
    there is one, and otherwise the title stored under the text with its
    spaces turned to underscores; it gives none exactly when neither key is
    there, and for a text without a space it is the plain lookup. *)
Theorem try_match_keys text (title_map : gmap string string) :
  (forall t, title_map !! text = Some t -> try_match text title_map = Some t)
  /\
  (title_map !! text = None ->
   try_match text title_map = title_map !! PyStr.replace text " " "_")
  /\
  (try_match text title_map = None <->
   title_map !! text = None /\
   title_map !! PyStr.replace text " " "_" = None)
  /\
  (PyStr.contains " " text = false ->
   try_match text title_map = title_map !! text).
Proof.
  unfold try_match. split; [| split; [| split]].
  - by intros t ->.
  - intros ->. by destruct (title_map !! PyStr.replace text " " "_").
  - destruct (title_map !! text) as [t |].
    + split; [done | by intros [? _]].
    + destruct (title_map !! PyStr.replace text " " "_"); split; try done.
      by intros [_ ?].
  - intros Hc. rewrite (replace_absent " " "_" text) by done.
    by destruct (title_map !! text).
Qed.

Lemma try_match_keys_witness :
  try_match "Soviet Union" {["Soviet_Union" := "Soviet_Union"]}
  = ({["Soviet_Union" := "Soviet_Union"]} : gmap string string)
      !! PyStr.replace "Soviet Union" " " "_"
  /\
  try_match "USSR" {["Soviet_Union" := "Soviet_Union"]}
  = ({["Soviet_Union" := "Soviet_Union"]} : gmap string string) !! "USSR".
Proof.
  split.
  - apply (proj1 (proj2 (try_match_keys "Soviet Union"
                           {["Soviet_Union" := "Soviet_Union"]}))).
    reflexivity.
  - apply (proj2 (proj2 (proj2 (try_match_keys "USSR"
                                  {["Soviet_Union" := "Soviet_Union"]})))).
    reflexivity.
Defined.

(** ** Reconciliation: further properties *)

Section ReconciliationMore.

Variable maybe_assign :
  string -> string -> option Z -> option Z -> option string * option string.
Variables GUESSER_TRAIN_FOLD BUZZER_TRAIN_FOLD : string.

Local Abbreviation unmapped_to_mapped_questions' :=
  (unmapped_to_mapped_questions maybe_assign GUESSER_TRAIN_FOLD
     BUZZER_TRAIN_FOLD).
Local Abbreviation train_fold :=
  (is_train_fold GUESSER_TRAIN_FOLD BUZZER_TRAIN_FOLD).
Local Abbreviation annotation q :=
  (maybe_assign (answer q) (text q) (qdb_id q) (proto_id q)).

Lemma report_lookup_inv answer_map qs (m : gmap Z report_entry) k e :
  fold_left (fun m q => <[qanta_id q := audit_of maybe_assign answer_map q]> m)
    qs m !! k = Some e ->
  m !! k = Some e \/
  exists q, q ∈ qs /\ qanta_id q = k /\ e = audit_of maybe_assign answer_map q.
Proof.
  revert m. induction qs as [| q qs IH]; intros m H; simpl in H; [by left |].
  apply IH in H as [H | (q' & Hq' & Hk & He)].
  - apply lookup_insert_Some in H as [[Hk He] | [_ H]]; [| by left].
    right. exists q. split; [apply elem_of_cons; by left | done].
  - right. exists q'. split; [apply elem_of_cons; by right | done].
Qed.

Lemma report_size answer_map qs (m : gmap Z report_entry) :
  size (fold_left
          (fun m q => <[qanta_id q := audit_of maybe_assign answer_map q]> m)
          qs m)
  <= size m + List.length qs.
Proof.
  revert m. induction qs as [| q qs IH]; intros m; simpl; [lia |].
  etrans; [apply IH |]. rewrite map_size_insert.
  destruct (m !! qanta_id q); simpl; lia.
Qed.

(** X12. The function visits every question once and in order, and changes
    nothing of a question but its page: the annotated page when there is
    one, otherwise the automatic page when there is one, and otherwise the
    page is left as it was. *)
Theorem page_of_each_question answer_map qs :
  let r := unmapped_to_mapped_questions maybe_assign GUESSER_TRAIN_FOLD
             BUZZER_TRAIN_FOLD qs answer_map in
  List.length (questions r) = List.length qs /\
  forall i q, qs !! i = Some q ->
    exists q', questions r !! i = Some q' /\
      qanta_id q' = qanta_id q /\ text q' = text q /\
      answer q' = answer q /\ fold q' = fold q /\
      proto_id q' = proto_id q /\ qdb_id q' = qdb_id q /\
      page q'
      = match (annotation q).1, answer_map !! answer q with
        | Some ap, _ => Some ap
        | None, Some au => Some au
        | None, None => page q
        end.
Proof.
  intros r. unfold r, unmapped_to_mapped_questions.
  rewrite reconcile_fold_parts. simpl. split; [by rewrite length_fmap |].
  intros i q Hq. exists (assigned maybe_assign answer_map q).
  split; [by rewrite list_lookup_fmap, Hq |].
  unfold assigned, annotation_of.
  destruct (maybe_assign (answer q) (text q) (qdb_id q) (proto_id q)).1
    as [ap |]; destruct (answer_map !! answer q) as [au |]; simpl;
    try case_bool_decide; subst; done.
Qed.

(** X13. Every entry of the report belongs to a question of the input with
    that identifier and carries its two pages and the error of its
    annotation; its automatic error is none; and its result names the case:
    "none" when both pages are missing, "annotated" and "automatic" when one
    is there, "annotated+automatic" when both are there and equal,
    "disagree" when both are there and differ. *)
Theorem report_entries answer_map qs k e :
  match_report
    (unmapped_to_mapped_questions maybe_assign GUESSER_TRAIN_FOLD
       BUZZER_TRAIN_FOLD qs answer_map) !! k
  = Some e ->
  automatic_error e = None /\
  (exists q, q ∈ qs /\ qanta_id q = k /\
     annotated_page e = (annotation q).1 /\
     annotated_error e = (annotation q).2 /\
     automatic_page e = answer_map !! answer q) /\
  (result e = "none" <->
   annotated_page e = None /\ automatic_page e = None) /\
  (result e = "annotated" <->
   is_Some (annotated_page e) /\ automatic_page e = None) /\
  (result e = "automatic" <->
   annotated_page e = None /\ is_Some (automatic_page e)) /\
  (result e = "annotated+automatic" <->
   is_Some (annotated_page e) /\ annotated_page e = automatic_page e) /\
  (result e = "disagree" <->
   is_Some (annotated_page e) /\ is_Some (automatic_page e) /\
   annotated_page e <> automatic_page e).
Proof.
  unfold unmapped_to_mapped_questions. rewrite reconcile_fold_parts. simpl.
  intros [H | (q & Hq & Hk & ->)]%report_lookup_inv;
    [by rewrite lookup_empty in H |].
  split; [done |]. split; [by exists q |].
  unfold audit_of, annotation_of. simpl.
  destruct (maybe_assign (answer q) (text q) (qdb_id q) (proto_id q)).1
    as [ap |]; destruct (answer_map !! answer q) as [au |]; simpl;
    try case_bool_decide; subst;
    repeat split; try done; try (by intros [? ?]); try (by intros (? & ? & ?));
    try (by eauto); try (by intros [_ [? ?]]); try (by intros [[? ?] _]);
    try (intros [_ [= ?]]; done); try (intros (_ & _ & ?); done);
    try (intros _; split; [eauto | split; [eauto | congruence]]);
    try (intros _; split; eauto); try congruence.
Qed.

(** X14. [train_unmatched] and [test_unmatched] hold, in the order of the
    input, the questions with neither page: those of a training fold in the
    first, the others in the second; a question is never in both, and the
    two lists add up to the questions with neither page. *)
Theorem unmatched_partition answer_map qs :
  let r := unmapped_to_mapped_questions maybe_assign GUESSER_TRAIN_FOLD
             BUZZER_TRAIN_FOLD qs answer_map in
  train_unmatched r `sublist_of` qs /\
  test_unmatched r `sublist_of` qs /\
  (forall q, q ∈ train_unmatched r <->
     q ∈ qs /\ (annotation q).1 = None /\ answer_map !! answer q = None /\
     train_fold (fold q) = true) /\
  (forall q, q ∈ test_unmatched r <->
     q ∈ qs /\ (annotation q).1 = None /\ answer_map !! answer q = None /\
     train_fold (fold q) = false) /\
  (forall q, q ∈ train_unmatched r -> q ∉ test_unmatched r) /\
  List.length (train_unmatched r) + List.length (test_unmatched r)
  = List.length (filter (unmatched maybe_assign answer_map) qs).
Proof.
  intros r. unfold r, unmapped_to_mapped_questions.
  rewrite reconcile_fold_parts. simpl.
  split; [apply sublist_filter |]. split; [apply sublist_filter |].
  split; [| split; [| split]].
  - intros q. rewrite list_elem_of_filter.
    unfold to_train, unmatched, annotation_of. tauto.
  - intros q. rewrite list_elem_of_filter.
    unfold to_test, unmatched, annotation_of. tauto.
  - intros q [[_ Ht] _]%list_elem_of_filter [[_ Hs] _]%list_elem_of_filter.
    congruence.
  - clear r. induction qs as [| q qs' IH]; [done |].
    rewrite !filter_cons.
    destruct (decide (to_train maybe_assign GUESSER_TRAIN_FOLD
                        BUZZER_TRAIN_FOLD answer_map q)) as [[Hu Ht] | Ht];
      destruct (decide (to_test maybe_assign GUESSER_TRAIN_FOLD
                          BUZZER_TRAIN_FOLD answer_map q)) as [[Hu' Hs] | Hs];
      destruct (decide (unmatched maybe_assign answer_map q)) as [Hun | Hun];
      simpl; try congruence; try lia; try done.
    exfalso. unfold to_train, to_test in *.
    destruct (train_fold (fold q)); tauto.
Qed.

(** X15. When identifiers repeat, the report keeps for an identifier the
    entry of the last question that has it, so that it has as many entries
    as there are distinct identifiers, and never more than questions. *)
Theorem report_with_repeated_ids answer_map qs :
  let r := unmapped_to_mapped_questions maybe_assign GUESSER_TRAIN_FOLD
             BUZZER_TRAIN_FOLD qs answer_map in
  size (match_report r) = size (list_to_set (qanta_id <$> qs) : gset Z) /\
  size (match_report r) <= List.length qs /\
  forall qs1 q qs2, qs = qs1 ++ q :: qs2 ->
    (forall q', q' ∈ qs2 -> qanta_id q' <> qanta_id q) ->
    exists e, match_report r !! qanta_id q = Some e /\
      annotated_page e = (annotation q).1 /\
      annotated_error e = (annotation q).2 /\
      automatic_page e = answer_map !! answer q.
Proof.
  intros r. unfold r, unmapped_to_mapped_questions.
  rewrite reconcile_fold_parts. simpl. split; [| split].
  - by rewrite <- size_dom, report_dom, dom_empty_L, (left_id_L ∅ (∪)).
  - etrans; [apply report_size |]. rewrite map_size_empty. lia.
  - intros qs1 q qs2 -> Hlast. exists (audit_of maybe_assign answer_map q).
    split; [by apply report_of_last | done].
Qed.

End ReconciliationMore.

Lemma page_of_each_question_witness :
  exists q',
    questions
      (unmapped_to_mapped_questions paris_assigner guesser_train_fold
         buzzer_train_fold [unknown_question; paris_question]
         france_answer_map) !! 1 = Some q' /\
    qanta_id q' = qanta_id paris_question /\ text q' = text paris_question /\
    answer q' = answer paris_question /\ fold q' = fold paris_question /\
    proto_id q' = proto_id paris_question /\
    qdb_id q' = qdb_id paris_question /\
    page q'
    = match
        (paris_assigner (answer paris_question) (text paris_question)
           (qdb_id paris_question) (proto_id paris_question)).1,
        france_answer_map !! answer paris_question
      with
      | Some ap, _ => Some ap
      | None, Some au => Some au
      | None, None => page paris_question
      end.
Proof.
  apply (proj2 (page_of_each_question paris_assigner guesser_train_fold
                  buzzer_train_fold france_answer_map
                  [unknown_question; paris_question])).
  reflexivity.
Defined.

Lemma report_entries_witness :
  let e :=
    {| result := "none"; annotated_error := None; automatic_error := None;
       annotated_page := None; automatic_page := None |} in
  automatic_error e = None /\
  (exists q, q ∈ [unknown_question; paris_question] /\ qanta_id q = 2%Z /\
     annotated_page e
     = (paris_assigner (answer q) (text q) (qdb_id q) (proto_id q)).1 /\
     annotated_error e
     = (paris_assigner (answer q) (text q) (qdb_id q) (proto_id q)).2 /\
     automatic_page e = france_answer_map !! answer q) /\
  (result e = "none" <->
   annotated_page e = None /\ automatic_page e = None) /\
  (result e = "annotated" <->
   is_Some (annotated_page e) /\ automatic_page e = None) /\
  (result e = "automatic" <->
   annotated_page e = None /\ is_Some (automatic_page e)) /\
  (result e = "annotated+automatic" <->
   is_Some (annotated_page e) /\ annotated_page e = automatic_page e) /\
  (result e = "disagree" <->
   is_Some (annotated_page e) /\ is_Some (automatic_page e) /\
   annotated_page e <> automatic_page e).
Proof.
  apply (report_entries paris_assigner guesser_train_fold buzzer_train_fold
           france_answer_map [unknown_question; paris_question] 2).
  vm_compute. reflexivity.
Defined.

Lemma unmatched_partition_witness :
  unknown_question
  ∉ test_unmatched
      (unmapped_to_mapped_questions paris_assigner guesser_train_fold
         buzzer_train_fold [unknown_question; paris_question]
         france_answer_map).
Proof.
  destruct (unmatched_partition paris_assigner guesser_train_fold
              buzzer_train_fold france_answer_map
              [unknown_question; paris_question])
    as (_ & _ & Htrain & _ & Hboth & _).
  apply Hboth. apply Htrain.
  split; [constructor |]. repeat split.
Defined.

Lemma report_with_repeated_ids_witness :
  qanta_id repeated_question = qanta_id paris_question /\
  size (match_report
          (unmapped_to_mapped_questions paris_assigner guesser_train_fold
             buzzer_train_fold
             [paris_question; unknown_question; repeated_question]
             france_answer_map)) = 2 /\
  exists e,
    match_report
      (unmapped_to_mapped_questions paris_assigner guesser_train_fold
         buzzer_train_fold
         [paris_question; unknown_question; repeated_question]
         france_answer_map) !! qanta_id paris_question = Some e /\
    annotated_page e = None /\ annotated_error e = None /\
    automatic_page e = None.
Proof.
  destruct (report_with_repeated_ids paris_assigner guesser_train_fold
              buzzer_train_fold france_answer_map
              [paris_question; unknown_question; repeated_question])
    as (Hsize & _ & Hlast).
  split; [reflexivity |]. split.
  - rewrite Hsize. vm_compute. reflexivity.
  - apply (Hlast [paris_question; unknown_question] repeated_question []);
      [reflexivity |].
    intros q' Hq'. by apply elem_of_nil in Hq'.
Defined.

(** ** Reading the redirects: further properties *)

Lemma dict_of_size {A} (key val : A -> string) (xs : list A) :
  size (dict_of key val xs) <= List.length xs.
Proof.
  induction xs as [| x xs IH] using rev_ind;
    [unfold dict_of; simpl; by rewrite map_size_empty |].
  rewrite dict_of_snoc, map_size_insert, length_app. simpl.
  destruct (dict_of key val xs !! key x); simpl; lia.
Qed.

Lemma dict_of_size_NoDup {A} (key val : A -> string) (xs : list A) :
  NoDup (key <$> xs) -> size (dict_of key val xs) = List.length xs.
Proof.
  induction xs as [| x xs IH] using rev_ind; intros Hnd;
    [unfold dict_of; simpl; by rewrite map_size_empty |].
  rewrite fmap_app in Hnd. apply NoDup_app in Hnd as (Hxs & Hfresh & _).
  rewrite dict_of_snoc, map_size_insert, length_app. simpl.
  destruct (dict_of key val xs !! key x) as [v |] eqn:Hv.
  - apply dict_of_lookup in Hv as (y & Hy & Hk & _). exfalso.
    apply (Hfresh (key x)); [| by apply list_elem_of_singleton].
    rewrite <- Hk. by apply list_elem_of_fmap_2.
  - simpl. rewrite IH by done. lia.
Qed.

Lemma filter_fst_NoDup {A B} (P : A * B -> Prop) `{!forall x, Decision (P x)}
    (rows : list (A * B)) :
  NoDup rows.*1 -> NoDup (filter P rows).*1.
Proof.
  induction rows as [| r rows IH]; intros Hnd; [done |].
  rewrite fmap_cons in Hnd. apply NoDup_cons in Hnd as [Hr Hnd].
  rewrite filter_cons. destruct (decide (P r)); [| by apply IH].
  rewrite fmap_cons. apply NoDup_cons. split; [| by apply IH].
  intros (y & Hk & Hy)%list_elem_of_fmap. apply Hr.
  rewrite Hk. apply list_elem_of_fmap_2.
  by apply list_elem_of_filter in Hy as [_ ?].
Qed.

Lemma filter_complement_length {A} (P : A -> Prop)
    `{!forall x, Decision (P x)} (l : list A) :
  List.length (filter P l) + List.length (filter (fun x => ~ P x) l)
  = List.length l.
Proof.
  induction l as [| x l IH]; [done |]. rewrite !filter_cons.
  destruct (decide (P x)), (decide (~ P x)); simpl; try lia; tauto.
Qed.

(** X16. Every row is either counted or kept: the entries of the lookup and
    the count never add up to more than the rows, and to exactly the rows
    when the sources are distinct. When a source comes in several rows, the
    last of its rows with a title for target gives the entry, and a source
    whose rows all have an unknown target has none. *)
Theorem redirect_rows_accounted wiki_titles rows :
  let out := read_wiki_redirects wiki_titles rows in
  size out.1 + out.2 <= List.length rows /\
  (NoDup rows.*1 -> size out.1 + out.2 = List.length rows) /\
  (forall rows1 source target rows2,
     rows = rows1 ++ (source, target) :: rows2 ->
     target ∈ wiki_titles ->
     (forall target', (source, target') ∈ rows2 -> target' ∉ wiki_titles) ->
     out.1 !! source = Some target) /\
  (forall source,
     (forall target, (source, target) ∈ rows -> target ∉ wiki_titles) ->
     out.1 !! source = None).
Proof.
  intros out. unfold out. rewrite read_wiki_redirects_filter. simpl.
  pose proof (filter_complement_length
                (fun row : string * string => row.2 ∈ wiki_titles) rows)
    as Hlen.
  split; [| split; [| split]].
  - pose proof (dict_of_size fst snd
      (filter (fun row : string * string => row.2 ∈ wiki_titles) rows)).
    lia.
  - intros Hnd. rewrite dict_of_size_NoDup; [lia |].
    by apply filter_fst_NoDup.
  - intros rows1 source target rows2 -> Ht Hlast.
    rewrite filter_app, filter_cons. rewrite decide_True by done.
    unfold dict_of. rewrite fold_left_app. cbn [fold_left fst snd].
    rewrite dict_of_from_fresh_key; [apply lookup_insert_eq |].
    intros [s t] [Hin Hrow]%list_elem_of_filter Hk. simpl in *. subst s.
    by apply (Hlast t).
  - intros source Hall.
    destruct (dict_of fst snd
                (filter (fun row : string * string => row.2 ∈ wiki_titles)
                   rows) !! source) as [t |] eqn:Hlook; [| done].
    apply dict_of_lookup in Hlook as ([s t'] & Hin & Hs & Ht).
    simpl in *. subst. apply list_elem_of_filter in Hin as [Hin Hrow].
    by apply Hall in Hrow.
Qed.

Lemma redirect_rows_accounted_witness :
  (read_wiki_redirects ["Soviet Union"; "Russia"]
     [("USSR", "Russia"); ("USSR", "Soviet Union"); ("USSR", "Sovjet")]).1
    !! "USSR" = Some "Soviet Union".
Proof.
  destruct (redirect_rows_accounted ["Soviet Union"; "Russia"]
              [("USSR", "Russia"); ("USSR", "Soviet Union");
               ("USSR", "Sovjet")]) as (_ & _ & Hlast & _).
  apply (Hlast [("USSR", "Russia")] "USSR" "Soviet Union"
           [("USSR", "Sovjet")]).
  - reflexivity.
  - constructor.
  - intros target' Hin. apply list_elem_of_singleton in Hin.
    injection Hin as ->. intros Hin.
    apply (bool_decide_pack _) in Hin. vm_compute in Hin. exact Hin.
Defined.

(** ** The answer map of a list of questions *)

Lemma odict_set_keys k v d : (odict_set k v d).*1 = set_add k d.*1.
Proof.
  induction d as [| [k' v'] d IH]; [done |].
  cbn [odict_set]. destruct (decide (k = k')) as [-> | Hne].
  - rewrite bool_decide_eq_true_2 by done. rewrite !fmap_cons. cbn [fst].
    unfold set_add. rewrite bool_decide_eq_true_2; [done |].
    apply elem_of_cons. by left.
  - rewrite bool_decide_eq_false_2 by done. rewrite !fmap_cons, IH. cbn [fst].
    unfold set_add. case_bool_decide as Hin.
    + rewrite bool_decide_eq_true_2; [done |]. apply elem_of_cons. by right.
    + rewrite bool_decide_eq_false_2; [done |].
      intros [? | ?]%elem_of_cons; done.
Qed.

Lemma odict_set_to_map k v d :
  (list_to_map (odict_set k v d) : gmap string string)
  = <[k := v]> (list_to_map d).
Proof.
  induction d as [| [k' v'] d IH]; [done |].
  cbn [odict_set]. destruct (decide (k = k')) as [-> | Hne].
  - rewrite bool_decide_eq_true_2 by done. cbn [list_to_map foldr uncurry].
    unfold list_to_map. simpl. by rewrite insert_insert_eq.
  - rewrite bool_decide_eq_false_2 by done. unfold list_to_map in *. simpl.
    rewrite IH. by apply insert_insert_ne.
Qed.

Lemma odict_set_elem k v d k0 v0 :
  (k0, v0) ∈ odict_set k v d -> (k0, v0) = (k, v) \/ (k0, v0) ∈ d.
Proof.
  induction d as [| [k' v'] d IH]; simpl.
  - intros ->%list_elem_of_singleton. by left.
  - case_bool_decide as Hk.
    + intros [-> | Hin]%elem_of_cons; [left; by subst |].
      right. apply elem_of_cons. by right.
    + intros [-> | Hin]%elem_of_cons.
      * right. apply elem_of_cons. by left.
      * apply IH in Hin as [-> | Hin]; [by left |].
        right. apply elem_of_cons. by right.
Qed.

Lemma read_wiki_redirects_items_facts wiki_titles rows :
  NoDup (read_wiki_redirects_items wiki_titles rows).*1 /\
  list_to_map (read_wiki_redirects_items wiki_titles rows)
  = (read_wiki_redirects wiki_titles rows).1 /\
  forall source target,
    (source, target) ∈ read_wiki_redirects_items wiki_titles rows ->
    target ∈ wiki_titles.
Proof.
  unfold read_wiki_redirects_items, read_wiki_redirects.
  induction rows as [| [source target] rows IH] using rev_ind.
  - split; [apply NoDup_nil_2 |]. split; [done |].
    intros s t Hin. by apply elem_of_nil in Hin.
  - rewrite !fold_left_app. cbn [fold_left].
    destruct IH as (Hnd & Hmap & Hval).
    destruct (fold_left _ rows (∅, 0)) as [m n] eqn:Hfold.
    simpl in Hmap. case_bool_decide as Ht; simpl.
    + split; [rewrite odict_set_keys; by apply set_add_NoDup |].
      split; [by rewrite odict_set_to_map, Hmap |].
      intros s t [[= -> ->] | Hin]%odict_set_elem; [done | by eapply Hval].
    + done.
Qed.

Section CreateAnswerMapFacts.

Context {O : PySetOrder}.
Variable unidecode : string -> string.

(** The keys and the values of the answer map of a run that returns. *)
Lemma run_keys_values expansion_rules match_rules wiki_titles
    wiki_redirects_source l h passed am u h' k v :
  h !! l = Some passed ->
  mapping_rules_to_answer_map unidecode expansion_rules match_rules
    wiki_titles wiki_redirects_source l h = (Some (am, u), h') ->
  am !! k = Some v ->
  k ∈ passed /\ (v ∈ wiki_titles \/ v ∈ wiki_redirects_source.*2).
Proof.
  intros Hl Hrun Hk.
  destruct (run_title_cases unidecode _ _ _ _ _ _ _ _ _ _ k Hl Hrun)
    as [[Hnone _] | (r1 & name & f & r2 & m & _ & Hfound & Hsome & _)].
  - by rewrite Hk in Hnone.
  - rewrite Hk in Hsome. injection Hsome as <-.
    destruct Hfound as (exps & raw & r & Hitem & _ & _ & Hm).
    split; [| by eapply lookup_candidate_value].
    apply expansion_map_keys in Hitem.
    by rewrite set_of_elem, set_iter_elem in Hitem.
Qed.

(** A run leaves the set objects of the store as they were. *)
Lemma run_keeps_store expansion_rules match_rules wiki_titles
    wiki_redirects_source l h l' :
  is_Some (h !! l') ->
  (mapping_rules_to_answer_map unidecode expansion_rules match_rules
     wiki_titles wiki_redirects_source l h).2 !! l' = h !! l'.
Proof.
  intros Hl'. destruct (h !! l) as [passed |] eqn:Hl.
  - rewrite (mapping_rules_run unidecode _ _ _ _ _ _ _ Hl).
    assert (Hne : l' <> fresh (dom h)) by by apply fresh_loc_ne.
    pose proof (match_rules_loop_frames
      (build_lookups unidecode wiki_titles wiki_redirects_source)
      (expansion_map expansion_rules (set_of (set_iter passed)))
      (fresh (dom h)) match_rules ∅ l' Hne
      (<[fresh (dom h) := set_of (set_iter passed)]> h)) as Hframe.
    rewrite lookup_insert_ne in Hframe by done.
    destruct (match_rules_loop _ _ _ _ _ _) as [[am |] h']; simpl in *;
      by rewrite Hframe.
  - by rewrite mapping_rules_dangling.
Qed.

(** X17. In the answer map that [create_answer_map] returns, every key is
    the answer of one of the questions and every value is a title of the
    title set: a redirect can only lead to a title, since the redirects
    with another target were dropped on reading. The call leaves the set
    objects of the store as they were. *)
Theorem create_answer_map_within_titles expansion_rules match_rules
    wiki_titles rows questions h am u h' :
  create_answer_map unidecode expansion_rules match_rules wiki_titles rows
    questions h = (Some (am, u), h') ->
  (forall k v, am !! k = Some v ->
     (exists q, q ∈ questions /\ answer q = k) /\ v ∈ wiki_titles) /\
  (forall l, is_Some (h !! l) -> h' !! l = h !! l).
Proof.
  unfold create_answer_map. intros Hrun.
  apply bind_Some in Hrun as (l & h1 & Hnew & Hrun).
  unfold set_new in Hnew. injection Hnew as <- <-. split.
  - intros k v Hk.
    destruct (run_keys_values _ _ _ _ _ _ _ _ _ _ k v
                (lookup_insert_eq _ _ _) Hrun Hk) as [Hkey Hval].
    split.
    + rewrite set_of_elem in Hkey.
      apply list_elem_of_fmap in Hkey as (q & -> & Hq). by exists q.
    + destruct Hval as [Hval | Hval]; [done |].
      apply list_elem_of_fmap in Hval as ([s t] & -> & Hin).
      by apply (proj2 (proj2 (read_wiki_redirects_items_facts
                                wiki_titles rows)) s t).
  - intros l' Hl'.
    assert (Hne : l' <> fresh (dom h)) by by apply fresh_loc_ne.
    pose proof (run_keeps_store expansion_rules match_rules wiki_titles
                  (read_wiki_redirects_items wiki_titles rows)
                  (fresh (dom h))
                  (<[fresh (dom h) := set_of (answer <$> questions)]> h) l')
      as Hkept.
    rewrite Hrun in Hkept. simpl in Hkept.
    rewrite Hkept by (rewrite lookup_insert_ne; done).
    by rewrite lookup_insert_ne.
Qed.

End CreateAnswerMapFacts.

Lemma create_answer_map_within_titles_witness :
  (exists q, q ∈ [paris_question; unknown_question] /\ answer q = "paris")
  /\ "France" ∈ ["Paris"; "France"].
Proof.
  destruct (create_answer_map_within_titles (O := insertion_order)
              unidecode_ascii [the_expansion_rule] [exact_match_rule]
              ["Paris"; "France"] [("paris", "France"); ("x", "Nowhere")]
              [paris_question; unknown_question] ∅
              {["paris" := "France"]} 1
              {[0 := ["paris"; "zzz"]; 1 := ["zzz"]]}) as [Hmap _].
  - vm_compute. reflexivity.
  - apply (Hmap "paris" "France"). reflexivity.
Defined.

(** ** The data set of mapped questions *)

Lemma substring_app_middle a b c :
  String.substring (String.length a) (String.length b) (a +:+ b +:+ c) = b.
Proof.
  induction a as [| x a IH]; [| done].
  change (String.substring 0 (String.length b) (b +:+ c) = b).
  induction b as [| y b IHb]; simpl.
  - by destruct c.
  - by rewrite IHb.
Qed.

Lemma substring_length_le n m s :
  String.length (String.substring n m s) <= String.length s.
Proof.
  revert n m. induction s as [| x s IH]; intros n m.
  - by destruct n, m.
  - destruct n as [| n]; simpl.
    + destruct m as [| m]; simpl; [lia |]. specialize (IH 0 m). lia.
    + specialize (IH n m). lia.
Qed.

Module QuizBowlFacts.

Import QuizBowl.

Section Folds.

Variables GUESSER_TRAIN_FOLD GUESSER_DEV_FOLD BUZZER_TRAIN_FOLD
  BUZZER_DEV_FOLD SYSTEM_DEV_FOLD SYSTEM_TEST_FOLD : string.
Variables TRAIN_FOLDS DEV_FOLDS : list string.

Local Abbreviation load_database' :=
  (load_database GUESSER_TRAIN_FOLD GUESSER_DEV_FOLD BUZZER_TRAIN_FOLD
     BUZZER_DEV_FOLD SYSTEM_DEV_FOLD SYSTEM_TEST_FOLD TRAIN_FOLDS DEV_FOLDS).
Local Abbreviation questions_by_fold' :=
  (questions_by_fold GUESSER_TRAIN_FOLD GUESSER_DEV_FOLD BUZZER_TRAIN_FOLD
     BUZZER_DEV_FOLD SYSTEM_DEV_FOLD SYSTEM_TEST_FOLD).
Local Abbreviation questions_in_folds' :=
  (questions_in_folds GUESSER_TRAIN_FOLD GUESSER_DEV_FOLD BUZZER_TRAIN_FOLD
     BUZZER_DEV_FOLD SYSTEM_DEV_FOLD SYSTEM_TEST_FOLD).

(** X18. Every list of the data base is taken from the questions of the
    data set in their order, and every list but [all_questions] holds
    mapped questions only. The questions of [guess_train_questions] are the
    mapped questions of the guesser training fold, provided that fold is one
    of [TRAIN_FOLDS]: when it is not, the list is empty; the questions of
    [test_questions] are the mapped questions of the test fold. *)
Theorem database_lists questions :
  let d :=
    load_database GUESSER_TRAIN_FOLD GUESSER_DEV_FOLD BUZZER_TRAIN_FOLD
      BUZZER_DEV_FOLD SYSTEM_DEV_FOLD SYSTEM_TEST_FOLD TRAIN_FOLDS DEV_FOLDS
      questions in
  (forall l,
     l ∈ [mapped_questions d; train_questions d; guess_train_questions d;
          buzz_train_questions d; dev_questions d; guess_dev_questions d;
          buzz_dev_questions d; system_dev_questions d; test_questions d] ->
     l `sublist_of` questions /\ forall q, q ∈ l -> page q <> None) /\
  (forall q, q ∈ guess_train_questions d <->
     q ∈ questions /\ page q <> None /\
     fold q = GUESSER_TRAIN_FOLD /\ GUESSER_TRAIN_FOLD ∈ TRAIN_FOLDS) /\
  (GUESSER_TRAIN_FOLD ∉ TRAIN_FOLDS -> guess_train_questions d = []) /\
  (forall q, q ∈ test_questions d <->
     q ∈ questions /\ page q <> None /\ fold q = SYSTEM_TEST_FOLD).
Proof.
  intros d. unfold d, load_database. simpl.
  set (mapped := filter (fun q => page q <> None) questions).
  assert (Hm : mapped `sublist_of` questions) by apply sublist_filter.
  assert (Hp : forall q, q ∈ mapped -> page q <> None).
  { intros q Hq. by apply list_elem_of_filter in Hq as [? _]. }
  assert (Hsub : forall (P : Question -> Prop) `{!forall x, Decision (P x)} l,
    l `sublist_of` questions /\ (forall q, q ∈ l -> page q <> None) ->
    filter P l `sublist_of` questions /\
    (forall q, q ∈ filter P l -> page q <> None)).
  { intros P HP l [Hl Hl']. split.
    - etrans; [apply sublist_filter | done].
    - intros q Hq. apply Hl'. by apply list_elem_of_filter in Hq as [_ ?]. }
  split; [| split; [| split]].
  - assert (Hbase : mapped `sublist_of` questions /\
                    forall q, q ∈ mapped -> page q <> None) by done.
    intros l Hl. repeat (apply elem_of_cons in Hl as [-> | Hl]);
      [..| by apply elem_of_nil in Hl];
      first [exact Hbase
            | apply Hsub; first [exact Hbase | apply Hsub; exact Hbase]].
  - intros q. unfold mapped. rewrite !list_elem_of_filter. split.
    + intros (Hf & Ht & Hpage & Hq). rewrite Hf in Ht. done.
    + intros (Hq & Hpage & Hf & Ht). rewrite Hf. done.
  - intros Hnot. apply elem_of_nil_inv. intros q.
    rewrite !list_elem_of_filter. intros (Hf & Ht & _). by rewrite Hf in Ht.
  - intros q. unfold mapped. rewrite !list_elem_of_filter. tauto.
Qed.

(** X19. For a data set whose data base was loaded from the questions,
    the training data has as many pages as examples and [None] for third
    part; the example and the page at one place come from one question, a
    mapped question of the guesser or of the buzzer training fold as the
    flags of the data set say, so that no page is [None]; with both flags
    the guesser's questions come first. Every mapped question of the guesser
    training fold gives a page when the guesser flag is set and that fold is
    one of [TRAIN_FOLDS]. *)
Theorem training_data_pages questions self :
  db self
  = load_database GUESSER_TRAIN_FOLD GUESSER_DEV_FOLD BUZZER_TRAIN_FOLD
      BUZZER_DEV_FOLD SYSTEM_DEV_FOLD SYSTEM_TEST_FOLD TRAIN_FOLDS DEV_FOLDS
      questions ->
  let '(examples, pages, rest) := training_data self in
  rest = None /\
  List.length examples = List.length pages /\
  (forall p, p ∈ pages -> p <> None) /\
  (forall i ex, examples !! i = Some ex ->
     exists q, q ∈ questions /\ ex = sentences q /\
       pages !! i = Some (page q) /\ page q <> None /\
       (fold q = GUESSER_TRAIN_FOLD /\ guesser_train self = true \/
        fold q = BUZZER_TRAIN_FOLD /\ buzzer_train self = true)) /\
  pages
  = (if guesser_train self then page <$> guess_train_questions (db self)
     else [])
    ++ (if buzzer_train self then page <$> buzz_train_questions (db self)
        else []) /\
  (forall q, q ∈ questions -> page q <> None ->
     fold q = GUESSER_TRAIN_FOLD -> GUESSER_TRAIN_FOLD ∈ TRAIN_FOLDS ->
     guesser_train self = true -> page q ∈ pages).
Proof.
  intros Hdb. unfold training_data. rewrite Hdb.
  set (d := load_database' questions).
  set (used := (if guesser_train self then guess_train_questions d else [])
               ++ (if buzzer_train self then buzz_train_questions d
                   else [])).
  assert (Hused : forall q, q ∈ used ->
    q ∈ questions /\ page q <> None /\
    (fold q = GUESSER_TRAIN_FOLD /\ guesser_train self = true \/
     fold q = BUZZER_TRAIN_FOLD /\ buzzer_train self = true)).
  { intros q [Hq | Hq]%elem_of_app.
    - destruct (guesser_train self); [| by apply elem_of_nil in Hq].
      unfold d, load_database in Hq. simpl in Hq.
      rewrite !list_elem_of_filter in Hq. destruct Hq as (? & _ & ? & ?).
      split; [done | split; [done | by left]].
    - destruct (buzzer_train self); [| by apply elem_of_nil in Hq].
      unfold d, load_database in Hq. simpl in Hq.
      rewrite !list_elem_of_filter in Hq. destruct Hq as (? & _ & ? & ?).
      split; [done | split; [done | by right]]. }
  split; [done |]. split; [by rewrite !length_fmap |].
  split; [| split; [| split]].
  - intros p (q & -> & Hq)%list_elem_of_fmap.
    by apply Hused in Hq as (_ & ? & _).
  - intros i ex Hex. rewrite list_lookup_fmap in Hex.
    destruct (used !! i) as [q |] eqn:Hq; [| done]. injection Hex as <-.
    exists q. rewrite list_lookup_fmap, Hq.
    assert (Hin : q ∈ used) by (apply list_elem_of_lookup; eauto).
    apply Hused in Hin as (? & ? & ?). done.
  - unfold used. rewrite fmap_app.
    by destruct (guesser_train self), (buzzer_train self).
  - intros q Hq Hpage Hfold Htrain Hflag.
    apply list_elem_of_fmap. exists q. split; [done |].
    unfold used. rewrite Hflag. apply elem_of_app. left.
    unfold d, load_database. simpl. rewrite !list_elem_of_filter.
    rewrite Hfold. done.
Qed.

Lemma by_fold_lookup self f l :
  questions_by_fold' self !! f = Some l ->
  (f = GUESSER_TRAIN_FOLD /\ l = guess_train_questions (db self)) \/
  (f = GUESSER_DEV_FOLD /\ l = guess_dev_questions (db self)) \/
  (f = BUZZER_TRAIN_FOLD /\ l = buzz_train_questions (db self)) \/
  (f = BUZZER_DEV_FOLD /\ l = buzz_dev_questions (db self)) \/
  (f = SYSTEM_DEV_FOLD /\ l = system_dev_questions (db self)) \/
  (f = SYSTEM_TEST_FOLD /\ l = test_questions (db self)).
Proof.
  unfold questions_by_fold. intros H.
  repeat (apply lookup_insert_Some in H as [[<- <-] | [_ H]]; [by auto 10 |]).
  by rewrite lookup_empty in H.
Qed.

Lemma by_fold_keys self f :
  is_Some (questions_by_fold' self !! f) <->
  f ∈ [GUESSER_TRAIN_FOLD; GUESSER_DEV_FOLD; BUZZER_TRAIN_FOLD;
       BUZZER_DEV_FOLD; SYSTEM_DEV_FOLD; SYSTEM_TEST_FOLD].
Proof.
  rewrite !elem_of_cons, elem_of_nil. split.
  - intros [l Hl]. apply by_fold_lookup in Hl.
    destruct Hl as [[-> _] | [[-> _] | [[-> _] | [[-> _] | [[-> _]
                    | [-> _]]]]]]; by auto 10.
  - intros H. unfold questions_by_fold.
    repeat (apply lookup_insert_is_Some;
            match goal with
            | |- ?k = f \/ _ =>
                destruct (decide (k = f)); [by left | right; split; [done |]]
            end).
    exfalso. repeat (destruct H as [-> | H]; [done |]). done.
Qed.

Lemma in_folds_from self folds acc :
  fold_left
    (fun questions fold =>
       match questions, questions_by_fold' self !! fold with
       | Some questions, Some more => Some (questions ++ more)
       | _, _ => None
       end)
    folds acc
  = match acc with
    | None => None
    | Some qs =>
        (fun more => qs ++ List.concat more)
          <$> mapM (fun fold => questions_by_fold' self !! fold) folds
    end.
Proof.
  revert acc. induction folds as [| f folds IH]; intros acc; simpl.
  - destruct acc as [qs |]; [| done]. simpl. by rewrite app_nil_r.
  - rewrite IH. destruct acc as [qs |]; [| done].
    destruct (questions_by_fold' self !! f) as [more |]; simpl; [| done].
    destruct (mapM (fun fold => questions_by_fold' self !! fold) folds);
      simpl;
      [| done].
    by rewrite app_assoc.
Qed.

(** X20. [questions_in_folds] raises exactly when one of the folds asked
    for is none of the six fold names; when it returns, every question it
    gives is a mapped question of the data set whose fold is one of the folds
    asked for. *)
Theorem questions_in_folds_of_folds questions self folds :
  db self
  = load_database GUESSER_TRAIN_FOLD GUESSER_DEV_FOLD BUZZER_TRAIN_FOLD
      BUZZER_DEV_FOLD SYSTEM_DEV_FOLD SYSTEM_TEST_FOLD TRAIN_FOLDS DEV_FOLDS
      questions ->
  (questions_in_folds GUESSER_TRAIN_FOLD GUESSER_DEV_FOLD BUZZER_TRAIN_FOLD
     BUZZER_DEV_FOLD SYSTEM_DEV_FOLD SYSTEM_TEST_FOLD self folds = None <->
   exists f, f ∈ folds /\
     f ∉ [GUESSER_TRAIN_FOLD; GUESSER_DEV_FOLD; BUZZER_TRAIN_FOLD;
          BUZZER_DEV_FOLD; SYSTEM_DEV_FOLD; SYSTEM_TEST_FOLD]) /\
  (forall qs,
     questions_in_folds GUESSER_TRAIN_FOLD GUESSER_DEV_FOLD BUZZER_TRAIN_FOLD
       BUZZER_DEV_FOLD SYSTEM_DEV_FOLD SYSTEM_TEST_FOLD self folds
     = Some qs ->
     forall q, q ∈ qs ->
       q ∈ questions /\ page q <> None /\ fold q ∈ folds).
Proof.
  intros Hdb. unfold questions_in_folds. rewrite in_folds_from. split.
  - rewrite fmap_None, eq_None_not_Some, mapM_is_Some.
    rewrite Forall_forall. split.
    + intros Hnot.
      destruct (decide (Exists
                  (fun f => ~ is_Some (questions_by_fold' self !! f)) folds))
        as [Hex | Hex].
      * apply Exists_exists in Hex as (f & Hf & Hnone). exists f.
        split; [done |]. intros Hin. apply Hnone.
        by apply (proj2 (by_fold_keys self f)).
      * exfalso. apply Hnot. intros f Hf.
        destruct (decide (is_Some (questions_by_fold' self !! f)))
          as [? | Hn]; [done |].
        exfalso. apply Hex, Exists_exists. eauto.
    + intros (f & Hf & Hnone) Hall. apply Hnone.
      apply (proj1 (by_fold_keys self f)). by apply Hall.
  - intros qs Hqs q Hq.
    apply fmap_Some in Hqs as (more & Hmore & ->). simpl in Hq.
    apply mapM_Some in Hmore.
    apply list_elem_of_In, in_concat in Hq as (l & Hl & Hq).
    apply list_elem_of_In in Hl, Hq.
    apply list_elem_of_lookup in Hl as [i Hi].
    destruct (Forall2_lookup_r _ _ _ _ _ Hmore Hi) as (f & Hf & Hlook).
    assert (Hfold : f ∈ folds) by (apply list_elem_of_lookup; eauto).
    apply by_fold_lookup in Hlook. rewrite Hdb in Hlook.
    unfold load_database in Hlook. simpl in Hlook.
    destruct Hlook as [[-> ->] | [[-> ->] | [[-> ->] | [[-> ->] | [[-> ->]
                       | [-> ->]]]]]];
      rewrite !list_elem_of_filter in Hq;
      destruct Hq as (Hfq & Hq); rewrite <- Hfq in Hfold; tauto.
Qed.

(** X21. A question has one sentence for each of its tokenizations, none
    longer than its text; and a tokenization that gives the place of a piece
    of the text, by the lengths of what comes before it and of the piece,
    yields that piece. *)
Theorem sentences_of_tokenizations q :
  List.length (sentences q) = List.length (tokenizations q) /\
  (forall s, s ∈ sentences q -> String.length s <= String.length (text q)) /\
  (forall before piece after,
     text q = before +:+ piece +:+ after ->
     slice (text q) (Z.of_nat (String.length before))
       (Z.of_nat (String.length before + String.length piece))
     = piece).
Proof.
  unfold sentences. split; [by rewrite length_fmap |]. split.
  - intros s (t & -> & _)%list_elem_of_fmap. unfold slice.
    apply substring_length_le.
  - intros before piece after Htext. unfold slice, slice_index.
    rewrite Htext, !string_app_length.
    rewrite !(proj2 (Z.ltb_ge _ 0)) by lia.
    rewrite !Z.min_l by lia.
    replace (Z.to_nat (Z.of_nat (String.length before + String.length piece)
                       - Z.of_nat (String.length before)))
      with (String.length piece) by lia.
    rewrite Nat2Z.id. apply substring_app_middle.
Qed.

End Folds.

Lemma database_lists_witness :
  (sample_question 1 (Some "Paris") "guesstrain"
     ∈ guess_train_questions sample_database) /\
  (sample_question 2 None "guesstrain"
     ∉ guess_train_questions sample_database) /\
  (sample_question 4 (Some "Oslo") "test" ∈ test_questions sample_database).
Proof.
  destruct (database_lists "guesstrain" "guessdev" "buzztrain" "buzzdev"
              "dev" "test" ["guesstrain"; "buzztrain"]
              ["guessdev"; "buzzdev"; "dev"] sample_questions)
    as (_ & Hguess & _ & Htest).
  split; [| split].
  - apply Hguess. split; [by left |]. split; [done |]. split; [done |].
    by left.
  - intros Hin. apply Hguess in Hin as (_ & Hpage & _). by apply Hpage.
  - apply Htest. split; [| done]. do 3 right. by left.
Defined.

Lemma training_data_pages_witness :
  db sample_dataset = sample_database /\
  snd (fst (training_data sample_dataset)) = [Some "Paris"] /\
  List.length (fst (fst (training_data sample_dataset))) = 1.
Proof.
  split; [reflexivity |].
  pose proof (training_data_pages "guesstrain" "guessdev" "buzztrain"
                "buzzdev" "dev" "test" ["guesstrain"; "buzztrain"]
                ["guessdev"; "buzzdev"; "dev"] sample_questions
                sample_dataset eq_refl) as H.
  destruct (training_data sample_dataset) as [[examples pages] rest].
  destruct H as (_ & Hlen & _ & _ & Hpages & _). simpl.
  rewrite Hlen, Hpages. split; reflexivity.
Defined.

Lemma questions_in_folds_of_folds_witness :
  db sample_dataset = sample_database /\
  questions_in_folds "guesstrain" "guessdev" "buzztrain" "buzzdev" "dev"
    "test" sample_dataset ["test"; "train"] = None /\
  questions_in_folds "guesstrain" "guessdev" "buzztrain" "buzzdev" "dev"
    "test" sample_dataset ["test"; "guesstrain"]
  = Some [sample_question 4 (Some "Oslo") "test";
          sample_question 1 (Some "Paris") "guesstrain"] /\
  page (sample_question 4 (Some "Oslo") "test") <> None.
Proof.
  split; [reflexivity |].
  pose proof (questions_in_folds_of_folds "guesstrain" "guessdev"
                "buzztrain" "buzzdev" "dev" "test"
                ["guesstrain"; "buzztrain"] ["guessdev"; "buzzdev"; "dev"]
                sample_questions sample_dataset) as H.
  split; [| split].
  - apply (H ["test"; "train"] eq_refl). exists "train".
    split; [right; by left |].
    apply (bool_decide_unpack (_ ∉ _)). vm_compute. exact I.
  - vm_compute. reflexivity.
  - eapply (H ["test"; "guesstrain"] eq_refl).
    + vm_compute. reflexivity.
    + by left.
Defined.

Lemma sentences_of_tokenizations_witness :
  text (sample_question 1 (Some "Paris") "guesstrain")
  = "One." +:+ " " +:+ "Two." /\
  slice (text (sample_question 1 (Some "Paris") "guesstrain")) 0 4 = "One." /\
  List.length (sentences (sample_question 1 (Some "Paris") "guesstrain")) = 2.
Proof.
  split; [reflexivity |].
  destruct (sentences_of_tokenizations
              (sample_question 1 (Some "Paris") "guesstrain"))
    as (Hlen & _ & Hslice).
  split.
  - apply (Hslice "" "One." " Two."). reflexivity.
  - rewrite Hlen. reflexivity.
Defined.

End QuizBowlFacts.
